(** * DynamicQuantizeLinear (CPU kernel, uint8 output)

    Shallow embedding of
    [onnxruntime/core/providers/cpu/tensor/dynamicquantizelinear.cc]
    and the properties stated about it.

    Numbers.  The C++ type [float] is IEEE-754 binary32, evaluated in
    single precision with the default rounding direction (to nearest,
    ties to even).  It is modelled by the Standard Library's executable
    specification of IEEE arithmetic, [SpecFloat], instantiated at
    precision 24 and maximal exponent 128.  NaNs carry no payload there,
    which is all the kernel can observe. *)

From Stdlib Require Import ZArith List Bool Lia Floats.SpecFloat.
From Stdlib Require Import Reals Lra Psatz.
From Stdlib Require Import Permutation.
Import ListNotations.
Local Open Scope Z_scope.

(** ** binary32 *)

Module F32.

Definition prec : Z := 24.
Definition emax : Z := 128.

Definition float : Type := spec_float.

Definition add : float -> float -> float := SFadd prec emax.
Definition sub : float -> float -> float := SFsub prec emax.
Definition mul : float -> float -> float := SFmul prec emax.
Definition div : float -> float -> float := SFdiv prec emax.
Definition abs : float -> float := SFabs.

Definition ltb : float -> float -> bool := SFltb.
Definition leb : float -> float -> bool := SFleb.
Definition eqb : float -> float -> bool := SFeqb.

(** Conversion of an integer to [float] (exact for |z| < 2^24). *)
Definition of_Z (z : Z) : float := binary_normalize prec emax z 0 false.

Definition is_nan (x : float) : bool :=
  match x with S754_nan => true | _ => false end.

Definition is_finite (x : float) : bool :=
  match x with S754_zero _ | S754_finite _ _ _ => true | _ => false end.

(** Well-formed binary32 datum: the mantissa and exponent of a finite
    number are in canonical form. *)
Definition valid (x : float) : bool := valid_binary prec emax x.

End F32.

Abbreviation float := F32.float.

(** ** The C++ library functions the kernel calls *)

(** [std::min(a, b)] is [(b < a) ? b : a]. *)
Definition std_min (a b : float) : float := if F32.ltb b a then b else a.

(** [std::max(a, b)] is [(a < b) ? b : a]. *)
Definition std_max (a b : float) : float := if F32.ltb a b then b else a.

(** [std::nearbyintf] in rounding direction [FE_TONEAREST]: the nearest
    integral value, a tie going to the even one; the sign of the argument
    is kept (so that [-0.3] rounds to [-0.0]); zeros, infinities and NaN
    are returned unchanged. *)
Definition nearest_even (m d : Z) : Z :=
  let q := m / d in
  match 2 * (m mod d) ?= d with
  | Lt => q
  | Gt => q + 1
  | Eq => if Z.even q then q else q + 1
  end.

(** The [float] of sign [s] and integral magnitude [n]. *)
Definition integral (s : bool) (n : Z) : float :=
  match n with
  | Z0 => S754_zero s
  | _ => binary_normalize F32.prec F32.emax (SpecFloat.cond_Zopp s n) 0 s
  end.

Definition nearbyintf (x : float) : float :=
  match x with
  | S754_finite s m e =>
      if 0 <=? e then x
      else integral s (nearest_even (Zpos m) (2 ^ (- e)))
  | _ => x
  end.

(** [static float RoundHalfToEven(float input)]: sets the rounding
    direction to nearest and calls [nearbyintf]. *)
Definition RoundHalfToEven (input : float) : float :=
  let result := nearbyintf input in
  result.

(** Conversion of a [float] to an integer type discards the fractional
    part. *)
Definition truncate (x : float) : Z :=
  match x with
  | S754_finite s m e =>
      SpecFloat.cond_Zopp s (if 0 <=? e then Zpos m * 2 ^ e else Zpos m / 2 ^ (- e))
  | _ => 0
  end.

(** The integer output type [T] of the kernel template, with what the
    kernel asks of it: [std::numeric_limits<T>::min()], [::max()] and
    [static_cast<T>] from [float].  The C++ conversion is only defined
    when the truncated value is representable in [T]; outside that range
    the model wraps around, a case the kernel never reaches because it
    clamps first (lemma [conversions_defined]). *)
Record int_type : Type := {
  numeric_limits_min : Z;
  numeric_limits_max : Z;
  static_cast : float -> Z
}.

Definition uint8_t : int_type := {|
  numeric_limits_min := 0;
  numeric_limits_max := 255;
  static_cast := fun x => truncate x mod 256
|}.

(** Modelled from the spec: Eigen's [minCoeff] and [maxCoeff] are not part
    of the kernel's file.  "Compute min = minimum over all input
    elements, max = maximum over all input elements, in a single linear
    pass": a left-to-right scan keeping the smaller (larger) value under
    the comparison [<] of [float].  They are undefined on an empty
    vector. *)
Definition minCoeff (x : list float) : option float :=
  match x with
  | [] => None
  | x0 :: rest => Some (fold_left std_min rest x0)
  end.

Definition maxCoeff (x : list float) : option float :=
  match x with
  | [] => None
  | x0 :: rest => Some (fold_left std_max rest x0)
  end.

(** ** Elementwise quantization *)

Section Quantizer.

Variable T : int_type.

(** The clamp written at line 66 of the kernel:
    [std::max(qmin, std::min(qmax, v))]. *)
Definition clamp (qmin qmax v : float) : float :=
  std_max qmin (std_min qmax v).

(** Modelled from the spec: [MlasQuantizeLinear] lives in the MLAS
    library, outside the kernel's file.  "For every index i in [0, n):
    output[i] = round_half_to_even(clamp(input[i] / scale + zero_point,
    qmin, qmax)), truncated/cast to the output integer type", with the
    kernel's own rounding function, its clamp and the bounds of the
    output type. *)
Definition quantize_one (scale : float) (zero_point : Z) (v : float) : Z :=
  let qmin := F32.of_Z (numeric_limits_min T) in
  let qmax := F32.of_Z (numeric_limits_max T) in
  static_cast T
    (RoundHalfToEven
       (clamp qmin qmax (F32.add (F32.div v scale) (F32.of_Z zero_point)))).

Definition MlasQuantizeLinear (input : list float) (scale : float)
    (zero_point : Z) : list Z :=
  map (quantize_one scale zero_point) input.

End Quantizer.

(** ** The output buffer and the parallel loop *)

(** [slice l b e] is the sub-range [l[b .. e)]. *)
Definition slice {A : Type} (l : list A) (b e : nat) : list A :=
  firstn (e - b) (skipn b l).

(** [store out b vals] writes [vals] at positions [b, b + length vals)
    of the buffer [out]. *)
Definition store {A : Type} (out : list A) (b : nat) (vals : list A) : list A :=
  firstn b out ++ vals ++ skipn (b + length vals) out.

(** Modelled from the spec: [ThreadPool::TryParallelFor] is outside the
    kernel's file.  "Accepts a total work-item count, a per-item cost
    estimate and a callback describing a sub-range; invoked zero or more
    times covering [0, n) exactly once per index, with no guarantee on
    the number of sub-ranges."  What the pool decides is kept as data: the
    list of sub-ranges [(begin, end)] in the order in which the callback
    runs on them; the cost estimate only informs that decision.  The
    callback acts on the shared output buffer. *)
Definition schedule : Type := list (nat * nat).

Definition TryParallelFor {S : Type} (sched : schedule)
    (fn : nat -> nat -> S -> S) (s : S) : S :=
  fold_left (fun acc be => fn (fst be) (snd be) acc) sched s.

(** Number of sub-ranges of a schedule that contain index [i]. *)
Definition hits (sched : schedule) (i : nat) : nat :=
  length (filter (fun be => Nat.leb (fst be) i && Nat.ltb i (snd be))%bool sched).

Definition in_bounds (n : nat) (sched : schedule) : Prop :=
  Forall (fun be => (fst be <= snd be <= n)%nat) sched.

(** A schedule for [n] work items: every sub-range lies in [0, n) and
    every index is in exactly one of them. *)
Definition partitions (n : nat) (sched : schedule) : Prop :=
  in_bounds n sched /\ forall i, (i < n)%nat -> hits sched i = 1%nat.

(** The same, as a check that can be run on a given schedule. *)
Definition partitionsb (n : nat) (sched : schedule) : bool :=
  forallb (fun be => Nat.leb (fst be) (snd be) && Nat.leb (snd be) n) sched
  && forallb (fun i => Nat.eqb (hits sched i) 1) (seq 0 n).

(** The operator thread pool as the kernel sees it: how it splits [n]
    items.  [nullptr] (no pool) runs the whole range at once. *)
Record ThreadPool : Type := { split : nat -> schedule }.

(** [serves tp n]: on a call with [n] items the pool honours the
    dispatcher's contract. *)
Definition serves (tp : ThreadPool) (n : nat) : bool :=
  partitionsb n (split tp n).

Definition sequential : ThreadPool :=
  {| split := fun n => match n with O => [] | _ => [(O, n)] end |}.

(** ** The kernel *)

Record outputs : Type := {
  Y : list Z;
  Y_scale : float;
  Y_zero_point : Z
}.

Section Kernel.

Variable T : int_type.

(** Lines 45-50: the quantization range of [T], as [float]s. *)
Definition qmax : float := F32.of_Z (numeric_limits_max T).

Definition qmin : float :=
  let qmin := F32.of_Z (numeric_limits_min T) in
  if F32.eqb qmin (F32.of_Z (-128)) then F32.of_Z (-127) else qmin.

(** Lines 52-58: the input range, made to include zero. *)
Definition range_min (m : float) : float := std_min m (S754_zero false).
Definition range_max (m : float) : float := std_max m (S754_zero false).

(** Line 61. *)
Definition compute_scale (min max : float) : float :=
  F32.div (F32.sub max min) (F32.sub qmax qmin).

(** Lines 65-66. *)
Definition initial_zero_point (min scale : float) : float :=
  F32.sub qmin (F32.div min scale).

Definition compute_zero_point (min scale : float) : Z :=
  static_cast T
    (RoundHalfToEven (std_max qmin (std_min qmax (initial_zero_point min scale)))).

(** [DynamicQuantizeLinear<T>::Compute].  The input tensor is present
    ([ORT_ENFORCE(x_ptr != nullptr)]); [x_data] is its content in
    row-major order and [y0] the freshly allocated (uninitialised) buffer
    of output 0, of the same length.  [Some] stands for the return of
    [Status::OK()] with the three outputs written; the result is [None]
    where the C++ has no defined result: [minCoeff] of an empty vector. *)
Definition Compute (tp : ThreadPool) (y0 : list Z) (x_data : list float)
    : option outputs :=
  let num_of_elements := length x_data in
  match minCoeff x_data, maxCoeff x_data with
  | Some min, Some max =>
      let min := range_min min in
      let max := range_max max in
      let scale := compute_scale min max in
      let zero_point := compute_zero_point min scale in
      let output :=
        TryParallelFor (split tp num_of_elements)
          (fun begin end_ output =>
             store output begin
               (MlasQuantizeLinear T (slice x_data begin end_) scale zero_point))
          y0 in
      Some {| Y := output; Y_scale := scale; Y_zero_point := zero_point |}
  | _, _ => None
  end.

End Kernel.

(** ** The kernel as a function of its input *)

Section Derived.

Variable T : int_type.

(** The three outputs written as functions of the input alone. *)
Definition derived_min (x0 : float) (rest : list float) : float :=
  range_min (fold_left std_min rest x0).

Definition derived_max (x0 : float) (rest : list float) : float :=
  range_max (fold_left std_max rest x0).

Definition derived_scale (x0 : float) (rest : list float) : float :=
  compute_scale T (derived_min x0 rest) (derived_max x0 rest).

Definition derived_zero_point (x0 : float) (rest : list float) : Z :=
  compute_zero_point T (derived_min x0 rest) (derived_scale x0 rest).

End Derived.

(** ** Vocabulary of the statements *)

(** [has_sign s x]: [x] is a number (not NaN) with sign bit [s]. *)
Definition has_sign (s : bool) (x : spec_float) : Prop :=
  match x with
  | S754_nan => False
  | S754_zero s' | S754_infinity s' | S754_finite s' _ _ => s' = s
  end.

Definition sign_or_nan (s : bool) (x : spec_float) : Prop :=
  x = S754_nan \/ has_sign s x.

(** Positive zero, the constant [0.0f]. *)
Definition fzero : float := S754_zero false.

(** [x] is not a NaN. *)
Definition number (x : float) : Prop := F32.is_nan x = false.

(** [x] is a zero of either sign, that is, [x == 0.0f] in C++. *)
Definition is_zero (x : float) : Prop :=
  match x with S754_zero _ => True | _ => False end.

(** Shapes of the range bounds after lines 57-58. *)
Definition nonpos_or_nan (x : float) : bool :=
  match x with
  | S754_zero _ | S754_nan | S754_infinity true | S754_finite true _ _ => true
  | _ => false
  end.

Definition nonneg_or_nan (x : float) : bool :=
  match x with
  | S754_zero _ | S754_nan | S754_infinity false | S754_finite false _ _ => true
  | _ => false
  end.

(** Exhaustive check over the 256 zero points: a zero of either sign
    divided by a non-zero scale is quantized to the zero point. *)
Definition quantize_zero_table : bool :=
  forallb
    (fun n =>
       let z := Z.of_nat n in
       (quantize_one uint8_t (S754_infinity false) z (S754_zero false) =? z)
       && (quantize_one uint8_t (S754_infinity false) z (S754_zero true) =? z))%bool
    (seq 0 256).

(** The order of [float] comparison, read off the representation: the
    class of the number, then its exponent, then its mantissa. *)
Definition key (x : float) : Z * Z * Z :=
  match x with
  | S754_infinity true => (-2, 0, 0)
  | S754_finite true m e => (-1, - e, Zneg m)
  | S754_zero _ | S754_nan => (0, 0, 0)
  | S754_finite false m e => (1, e, Zpos m)
  | S754_infinity false => (2, 0, 0)
  end.

Definition lex3 (a b : Z * Z * Z) : comparison :=
  match fst (fst a) ?= fst (fst b) with
  | Eq => match snd (fst a) ?= snd (fst b) with
          | Eq => snd a ?= snd b
          | c => c
          end
  | c => c
  end.

(** A pool that cuts the range in two and runs the upper half first. *)
Definition two_workers : ThreadPool :=
  {| split := fun n => [((n / 2)%nat, n); (O, (n / 2)%nat)] |}.

(** The smallest positive binary32 number, [2^-149]. *)
Definition denorm_min : float := S754_finite false 1 (-149).

(** The mantissa of a finite number fits in [prec] bits. *)
Definition bounded_mantissa (prec : Z) (x : spec_float) : Prop :=
  match x with
  | S754_finite _ m _ => Zpos m < 2 ^ prec
  | _ => True
  end.

(** [nearest_ties_even m d n]: the integer [n] is nearest to the fraction
    [m / d], and it is even when [m / d] lies halfway between two
    integers. *)
Definition nearest_ties_even (m d n : Z) : Prop :=
  2 * Z.abs (n * d - m) <= d
  /\ (2 * Z.abs (n * d - m) = d -> Z.even n = true).

(** [rounds_half_even c n]: the integer [n] is the value of the number
    [c] rounded to the nearest integer, ties to even. *)
Definition rounds_half_even (c : float) (n : Z) : Prop :=
  match c with
  | S754_zero _ => n = 0
  | S754_finite s m e =>
      if 0 <=? e then n = SpecFloat.cond_Zopp s (Zpos m * 2 ^ e)
      else nearest_ties_even (SpecFloat.cond_Zopp s (Zpos m)) (2 ^ (- e)) n
  | _ => False
  end.

(** Exhaustive check over the integers 0..255: each of them survives the
    conversion to [float] that ends [nearbyintf] and the truncation back
    to an integer. *)
Definition integral_table : bool :=
  forallb
    (fun k =>
       let n := Z.of_nat k in
       truncate (integral false n) =? n)
    (seq 0 256).

(** What the clamp of line 66 can return: a zero, or a positive number
    with a fractional exponent and value at most 255. *)
Definition clamped (c : float) : Prop :=
  is_zero c
  \/ exists m e, c = S754_finite false m e /\ e < 0
                 /\ Zpos m <= 255 * 2 ^ (- e).

(** ** Real values of binary32 data *)

(** Powers of two as real numbers. *)
Definition bpow (e : Z) : R := powerRZ 2 e.

(** [inbetween m e v]: the real [v] lies in the interval
    [[m * 2^e, (m + 1) * 2^e)]. *)
Definition inbetween (m e : Z) (v : R) : Prop :=
  (IZR m * bpow e <= v < IZR (m + 1) * bpow e)%R.

Section Values.

Variables prec emax : Z.

(** The real number a finite datum stands for; 0 for the others. *)
Definition B2R (x : spec_float) : R :=
  match x with
  | S754_finite s m e => (IZR (SpecFloat.cond_Zopp s (Zpos m)) * bpow e)%R
  | _ => 0%R
  end.

(** The unit in the last place of a finite datum. *)
Definition ulp (x : spec_float) : R :=
  match x with
  | S754_finite _ _ e => bpow e
  | _ => bpow (SpecFloat.emin prec emax)
  end.

(** [rounded r v]: the datum [r] is a well-formed result for the exact
    value [v]: finite and within one unit in the last place of [v], or
    infinite when [v] is beyond the range. *)
Definition rounded (r : spec_float) (v : R) : Prop :=
  valid_binary prec emax r = true
  /\ match r with
     | S754_nan => False
     | S754_infinity s => (bpow (emax - 1) <= Rabs v)%R
     | _ => (Rabs (B2R r - v) <= ulp r)%R
     end.

End Values.

(** The real value and the unit in the last place of a binary32 datum. *)
Definition value (x : float) : R := B2R x.

Definition ulp32 (x : float) : R := ulp F32.prec F32.emax x.

(** A finite, well-formed binary32 datum. *)
Definition fin (x : float) : Prop :=
  F32.valid x = true /\ F32.is_finite x = true.

Definition rounded32 (r : float) (v : R) : Prop :=
  rounded F32.prec F32.emax r v.

(** [clamp_round z v]: [z] is the result of clamping [v] to [0, 255] and
    rounding to a nearest integer. *)
Definition clamp_round (z v : R) : Prop :=
  (v <= 0 /\ z = 0)%R
  \/ (0 < v < 255 /\ Rabs (z - v) <= / 2)%R
  \/ (255 <= v /\ z = 255)%R.

(** [near a b]: [a] is [b] up to a relative and an absolute error of
    [2^-23]. *)
Definition near (a b : R) : Prop :=
  (Rabs (a - b) <= / 8388608 * Rabs a + / 8388608)%R.

(** The smallest positive normal binary32 number, [FLT_MIN = 2^-126]. *)
Definition FLT_MIN : float := S754_finite false 8388608 (-149).

(** Exhaustive check over 0..255: the conversion of an 8-bit integer to
    [float] is exact and well formed. *)
Definition of_Z_table : bool :=
  forallb
    (fun k =>
       let n := Z.of_nat k in
       match F32.of_Z n with
       | S754_zero _ => n =? 0
       | S754_finite false m e =>
           (e <=? 0) && (Zpos m =? n * 2 ^ (- e))
           && F32.valid (S754_finite false m e)
       | _ => false
       end)
    (seq 0 256).


(** ** Further vocabulary *)

(** Every sub-range of a schedule lies inside a buffer of [n] items; a
    check that can be run on a given schedule. *)
Definition in_boundsb (n : nat) (sched : schedule) : bool :=
  forallb (fun be => Nat.leb (fst be) (snd be) && Nat.leb (snd be) n) sched.

(** A pool that only hands out the lower half of the range. *)
Definition lower_half : ThreadPool :=
  {| split := fun n => [(O, (n / 2)%nat)] |}.

(** A pool that hands out the lower two thirds, then the upper two
    thirds: the middle third is run twice. *)
Definition overlapping : ThreadPool :=
  {| split := fun n => [(O, (2 * n / 3)%nat); ((n / 3)%nat, n)] |}.

(** The largest finite binary32 number, [FLT_MAX = (2^24 - 1) * 2^104]. *)
Definition FLT_MAX : float := S754_finite false 16777215 104.

(** [int8_t], the output type for which lines 47-50 narrow the range to
    [-127, 127].  As for [uint8_t], the conversion wraps around outside
    the range of the type, a case the kernel never reaches. *)
Definition int8_t : int_type := {|
  numeric_limits_min := -128;
  numeric_limits_max := 127;
  static_cast := fun x => (truncate x + 128) mod 256 - 128
|}.
(** * Properties *)

(** ** Buffers and schedules *)

Section Buffers.

Context {A : Type}.

Lemma length_slice (l : list A) (b e : nat) :
  (e <= length l)%nat -> length (slice l b e) = (e - b)%nat.
Proof.
  intros He. unfold slice.
  rewrite length_firstn, length_skipn. lia.
Qed.

Lemma nth_error_slice (l : list A) (b e j : nat) :
  nth_error (slice l b e) j =
  if (j <? e - b)%nat then nth_error l (b + j) else None.
Proof.
  unfold slice. rewrite nth_error_firstn, nth_error_skipn. reflexivity.
Qed.

Lemma length_store (out vals : list A) (b : nat) :
  (b + length vals <= length out)%nat ->
  length (store out b vals) = length out.
Proof.
  intros Hb. unfold store.
  rewrite !length_app, length_firstn, length_skipn. lia.
Qed.

Lemma nth_error_store (out vals : list A) (b i : nat) :
  (b + length vals <= length out)%nat ->
  nth_error (store out b vals) i =
  if ((b <=? i) && (i <? b + length vals))%nat
  then nth_error vals (i - b)
  else nth_error out i.
Proof.
  intros Hb. unfold store.
  rewrite nth_error_app, length_firstn, Nat.min_l by lia.
  destruct (Nat.ltb_spec i b) as [Hlt | Hge].
  - rewrite nth_error_firstn.
    destruct (Nat.leb_spec b i); [lia |].
    destruct (Nat.ltb_spec i b); [reflexivity | lia].
  - destruct (Nat.leb_spec b i); [| lia]. cbn [andb].
    rewrite nth_error_app.
    destruct (Nat.ltb_spec (i - b) (length vals));
      destruct (Nat.ltb_spec i (b + length vals)); try lia.
    + reflexivity.
    + rewrite nth_error_skipn. f_equal. lia.
Qed.

End Buffers.

Section ParallelLoop.

Context {B : Type}.
Variable x : list float.
Variable q : float -> B.

(** The shape of the callback the kernel hands to the pool. *)
Let body (b e : nat) (out : list B) : list B :=
  store out b (map q (slice x b e)).

Lemma body_length (b e : nat) (out : list B) :
  (b <= e <= length x)%nat -> length out = length x ->
  length (body b e out) = length x.
Proof.
  intros Hbe Hout. unfold body.
  rewrite length_store; rewrite ?length_map, ?length_slice; lia.
Qed.

Lemma body_nth_error (b e i : nat) (out : list B) :
  (b <= e <= length x)%nat -> length out = length x ->
  nth_error (body b e out) i =
  if ((b <=? i) && (i <? e))%nat
  then option_map q (nth_error x i)
  else nth_error out i.
Proof.
  intros Hbe Hout. unfold body.
  rewrite nth_error_store by (rewrite length_map, length_slice; lia).
  rewrite length_map, length_slice by lia.
  replace (b + (e - b))%nat with e by lia.
  destruct (Nat.leb_spec b i); cbn [andb]; [| reflexivity].
  destruct (Nat.ltb_spec i e); [| reflexivity].
  rewrite nth_error_map, nth_error_slice.
  destruct (Nat.ltb_spec (i - b) (e - b)); [| lia].
  do 2 f_equal. lia.
Qed.

Lemma TryParallelFor_length (sched : schedule) (out : list B) :
  in_bounds (length x) sched -> length out = length x ->
  length (TryParallelFor sched body out) = length x.
Proof.
  unfold TryParallelFor. revert out.
  induction sched as [| [b e] rest IH]; intros out Hin Hout;
    cbn [fold_left fst snd].
  - exact Hout.
  - inversion Hin as [| ? ? Hbe Hrest]; subst.
    apply IH; [exact Hrest |]. apply body_length; assumption.
Qed.

Lemma hits_cons (b e : nat) (rest : schedule) (i : nat) :
  hits ((b, e) :: rest) i =
  ((if ((b <=? i) && (i <? e))%nat then 1 else 0) + hits rest i)%nat.
Proof.
  unfold hits. cbn [filter fst snd].
  destruct ((b <=? i) && (i <? e))%nat; reflexivity.
Qed.

Lemma TryParallelFor_nth_error (sched : schedule) (out : list B) (i : nat) :
  in_bounds (length x) sched -> length out = length x ->
  nth_error (TryParallelFor sched body out) i =
  if (hits sched i =? 0)%nat
  then nth_error out i
  else option_map q (nth_error x i).
Proof.
  unfold TryParallelFor. revert out.
  induction sched as [| [b e] rest IH]; intros out Hin Hout;
    cbn [fold_left fst snd].
  - reflexivity.
  - inversion Hin as [| ? ? Hbe Hrest]; subst. cbn [fst snd] in Hbe.
    rewrite IH by (try apply body_length; assumption).
    rewrite body_nth_error by assumption.
    rewrite hits_cons.
    destruct ((b <=? i) && (i <? e))%nat; cbn [Nat.add Nat.eqb].
    + destruct (_ =? 0)%nat; reflexivity.
    + reflexivity.
Qed.

Lemma hits_out_of_bounds (n : nat) (sched : schedule) (i : nat) :
  in_bounds n sched -> (n <= i)%nat -> hits sched i = 0%nat.
Proof.
  induction 1 as [| [b e] rest Hbe _ IH]; intros Hi.
  - reflexivity.
  - cbn [fst snd] in Hbe. rewrite hits_cons.
    destruct (Nat.ltb_spec i e); [lia |].
    rewrite andb_false_r. apply IH, Hi.
Qed.

(** Whatever the schedule, as long as it partitions the index range,
    and whatever the buffer held before, the loop leaves the elementwise
    image of the input in the buffer. *)
Lemma TryParallelFor_map (sched : schedule) (out : list B) :
  partitions (length x) sched -> length out = length x ->
  TryParallelFor sched body out = map q x.
Proof.
  intros [Hin Hone] Hout. apply nth_error_ext. intros i.
  rewrite TryParallelFor_nth_error by assumption.
  rewrite nth_error_map.
  destruct (Nat.lt_ge_cases i (length x)) as [Hi | Hi].
  - rewrite (Hone i Hi). reflexivity.
  - rewrite (hits_out_of_bounds _ _ _ Hin Hi). cbn.
    assert (nth_error out i = None) as -> by (apply nth_error_None; lia).
    assert (nth_error x i = None) as -> by (apply nth_error_None; lia).
    reflexivity.
Qed.

End ParallelLoop.

Lemma partitionsb_correct (n : nat) (sched : schedule) :
  partitionsb n sched = true <-> partitions n sched.
Proof.
  unfold partitionsb, partitions, in_bounds.
  rewrite andb_true_iff, !forallb_forall, Forall_forall.
  split; intros [Hb Hh]; split.
  - intros be Hbe. specialize (Hb be Hbe).
    apply andb_prop in Hb as [H1 H2].
    apply Nat.leb_le in H1, H2. lia.
  - intros i Hi. apply Nat.eqb_eq, Hh, in_seq. lia.
  - intros be Hbe. specialize (Hb be Hbe).
    apply andb_true_intro. split; apply Nat.leb_le; lia.
  - intros i Hi. apply Nat.eqb_eq, Hh. apply in_seq in Hi. lia.
Qed.

Lemma sequential_serves (n : nat) : serves sequential n = true.
Proof.
  apply partitionsb_correct. destruct n as [| n]; split; cbn.
  - constructor.
  - intros i Hi. lia.
  - repeat constructor; cbn; lia.
  - intros i Hi. unfold hits. cbn.
    destruct (Nat.leb_spec i n); [reflexivity | lia].
Qed.

(** ** The kernel as a function of its input *)

Section KernelFacts.

Variable T : int_type.

Lemma Compute_nonempty (tp : ThreadPool) (y0 : list Z)
    (x0 : float) (rest : list float) :
  serves tp (length (x0 :: rest)) = true ->
  length y0 = length (x0 :: rest) ->
  Compute T tp y0 (x0 :: rest) =
  Some {| Y := map (quantize_one T (derived_scale T x0 rest)
                      (derived_zero_point T x0 rest)) (x0 :: rest);
          Y_scale := derived_scale T x0 rest;
          Y_zero_point := derived_zero_point T x0 rest |}.
Proof.
  intros Htp Hlen. unfold Compute. cbn [minCoeff maxCoeff].
  unfold MlasQuantizeLinear.
  rewrite TryParallelFor_map by (try apply partitionsb_correct; assumption).
  reflexivity.
Qed.

Lemma Compute_empty (tp : ThreadPool) (y0 : list Z) :
  Compute T tp y0 [] = None.
Proof. reflexivity. Qed.

End KernelFacts.

(** ** Signs and NaNs of the IEEE operations

    Facts about the rounding pipeline of [SpecFloat] that hold for every
    format. *)

Section RoundingShape.

Variables prec emax : Z.

Lemma iter_pos_invariant {A : Type} (P : A -> Prop) (f : A -> A) :
  (forall a, P a -> P (f a)) ->
  forall n a, P a -> P (SpecFloat.iter_pos f n a).
Proof.
  intros Hf. induction n as [n IH | n IH |]; intros a Ha; cbn.
  - apply IH, IH, Hf, Ha.
  - apply IH, IH, Ha.
  - apply Hf, Ha.
Qed.

Lemma shr_1_nonneg (mrs : shr_record) :
  0 <= shr_m mrs -> 0 <= shr_m (shr_1 mrs).
Proof.
  destruct mrs as [m r s]. cbn [shr_m].
  destruct m as [| [p | p |] | p]; cbn; lia.
Qed.

Lemma shr_nonneg (mrs : shr_record) (e n : Z) :
  0 <= shr_m mrs -> 0 <= shr_m (fst (shr mrs e n)).
Proof.
  intros Hm. destruct n as [| p | p]; cbn [shr fst]; try exact Hm.
  apply (iter_pos_invariant (fun r => 0 <= shr_m r)); [| exact Hm].
  apply shr_1_nonneg.
Qed.

Lemma shr_m_of_loc (m : Z) (l : location) :
  shr_m (shr_record_of_loc m l) = m.
Proof. destruct l as [| []]; reflexivity. Qed.

Lemma shr_fexp_nonneg (m e : Z) (l : location) :
  0 <= m -> 0 <= shr_m (fst (shr_fexp prec emax m e l)).
Proof.
  intros Hm. unfold shr_fexp. apply shr_nonneg.
  rewrite shr_m_of_loc. exact Hm.
Qed.

Lemma round_nearest_even_nonneg (m : Z) (l : location) :
  0 <= m -> 0 <= round_nearest_even m l.
Proof.
  intros Hm. destruct l as [| []]; cbn; try lia.
  destruct (Z.even m); lia.
Qed.

(** The rounding step keeps the sign it is given, or yields NaN. *)
Lemma binary_round_aux_sign_or_nan (s : bool) (mx ex : Z) (lx : location) :
  sign_or_nan s (binary_round_aux prec emax s mx ex lx).
Proof.
  unfold binary_round_aux, sign_or_nan.
  destruct (shr_fexp prec emax mx ex lx) as [mrs' e'].
  destruct (shr_fexp prec emax _ e' loc_Exact) as [mrs'' e''].
  destruct (shr_m mrs'') as [| m | m]; cbn; auto.
  destruct (e'' <=? emax - prec); cbn; auto.
Qed.

(** On a non-negative mantissa it never yields NaN. *)
Lemma binary_round_aux_has_sign (s : bool) (mx ex : Z) (lx : location) :
  0 <= mx -> has_sign s (binary_round_aux prec emax s mx ex lx).
Proof.
  intros Hmx. unfold binary_round_aux.
  pose proof (shr_fexp_nonneg mx ex lx Hmx) as H1.
  destruct (shr_fexp prec emax mx ex lx) as [mrs' e']. cbn [fst] in H1.
  pose proof (shr_fexp_nonneg _ e' loc_Exact
                (round_nearest_even_nonneg _ (loc_of_shr_record mrs') H1)) as H2.
  destruct (shr_fexp prec emax _ e' loc_Exact) as [mrs'' e'']. cbn [fst] in H2.
  destruct (shr_m mrs'') as [| m | m]; [reflexivity | | lia].
  destruct (e'' <=? emax - prec); reflexivity.
Qed.

Lemma binary_round_has_sign (s : bool) (m : positive) (e : Z) :
  has_sign s (binary_round prec emax s m e).
Proof.
  unfold binary_round. destruct (shl_align m e _) as [mz ez].
  apply binary_round_aux_has_sign. lia.
Qed.

Lemma SFdiv_core_binary_nonneg (m1 m2 : positive) (e1 e2 : Z) :
  0 <= fst (fst (SFdiv_core_binary prec emax (Zpos m1) e1 (Zpos m2) e2)).
Proof.
  unfold SFdiv_core_binary.
  set (s := _ - _ - _).
  set (m' := match s with Z0 => _ | Zpos _ => _ | Zneg _ => _ end).
  assert (0 <= m') as Hm'.
  { subst m'. destruct s; try lia. apply Z.shiftl_nonneg. lia. }
  pose proof (Z_div_mod m' (Zpos m2) eq_refl) as Hdm.
  destruct (Z.div_eucl m' (Zpos m2)) as [q r]. cbn [fst].
  destruct Hdm as [Heq Hr]. nia.
Qed.

(** Quotient of two finite numbers. *)
Lemma SFdiv_finite_has_sign (sx sy : bool) (mx my : positive) (ex ey : Z) :
  has_sign (xorb sx sy)
    (SFdiv prec emax (S754_finite sx mx ex) (S754_finite sy my ey)).
Proof.
  cbn [SFdiv].
  pose proof (SFdiv_core_binary_nonneg mx my ex ey) as Hq.
  destruct (SFdiv_core_binary prec emax (Zpos mx) ex (Zpos my) ey)
    as [[mz ez] lz].
  apply binary_round_aux_has_sign. exact Hq.
Qed.

(** Sum of the magnitudes: a finite positive number minus a finite
    negative one. *)
Lemma SFsub_pos_neg_has_sign (mx my : positive) (ex ey : Z) :
  has_sign false
    (SFsub prec emax (S754_finite false mx ex) (S754_finite true my ey)).
Proof.
  cbn [SFsub SpecFloat.cond_Zopp Z.opp Z.sub Z.add binary_normalize].
  apply binary_round_has_sign.
Qed.

End RoundingShape.

(** ** Mantissas of rounded results *)

Lemma digits2_pos_bounds (p : positive) :
  2 ^ (Zpos (digits2_pos p) - 1) <= Zpos p < 2 ^ Zpos (digits2_pos p).
Proof.
  induction p as [p IH | p IH |]; cbn [digits2_pos].
  - rewrite Pos2Z.inj_succ.
    replace (Z.succ (Zpos (digits2_pos p)) - 1)
      with (Z.succ (Zpos (digits2_pos p) - 1)) by lia.
    rewrite !Z.pow_succ_r by lia. lia.
  - rewrite Pos2Z.inj_succ.
    replace (Z.succ (Zpos (digits2_pos p)) - 1)
      with (Z.succ (Zpos (digits2_pos p) - 1)) by lia.
    rewrite !Z.pow_succ_r by lia. lia.
  - cbn. lia.
Qed.

Lemma Zdigits2_bounds (m : Z) :
  0 < m -> 2 ^ (Zdigits2 m - 1) <= m < 2 ^ Zdigits2 m.
Proof.
  destruct m as [| p | p]; try lia. intros _. apply digits2_pos_bounds.
Qed.

Lemma Zdigits2_nonneg (m : Z) : 0 <= Zdigits2 m.
Proof. destruct m; cbn; lia. Qed.

Lemma shr_1_div2 (mrs : shr_record) :
  0 <= shr_m mrs -> shr_m (shr_1 mrs) = shr_m mrs / 2.
Proof.
  destruct mrs as [m r s]. cbn [shr_m].
  destruct m as [| [p | p |] | p]; intros Hm; try lia; cbn [shr_1 shr_m];
    first [apply (Z.div_unique _ _ _ 0); lia | apply (Z.div_unique _ _ _ 1); lia].
Qed.

Lemma iter_shr_1_div (p : positive) (mrs : shr_record) :
  0 <= shr_m mrs ->
  shr_m (SpecFloat.iter_pos shr_1 p mrs) = shr_m mrs / 2 ^ Zpos p.
Proof.
  revert mrs. induction p as [p IH | p IH |]; intros mrs Hm; cbn [SpecFloat.iter_pos].
  - assert (0 <= shr_m (shr_1 mrs)) as H1 by (apply shr_1_nonneg, Hm).
    assert (0 <= shr_m (SpecFloat.iter_pos shr_1 p (shr_1 mrs))) as H2
        by (apply (iter_pos_invariant (fun r => 0 <= shr_m r));
            [apply shr_1_nonneg | exact H1]).
    rewrite IH, IH, shr_1_div2 by assumption.
    rewrite !Z.div_div by lia. f_equal.
    replace (Zpos p~1) with (1 + Zpos p + Zpos p) by lia.
    rewrite !Z.pow_add_r by lia. change (2 ^ 1) with 2. ring.
  - assert (0 <= shr_m (SpecFloat.iter_pos shr_1 p mrs)) as H2
        by (apply (iter_pos_invariant (fun r => 0 <= shr_m r));
            [apply shr_1_nonneg | exact Hm]).
    rewrite IH, IH by assumption.
    rewrite !Z.div_div by lia. f_equal.
    replace (Zpos p~0) with (Zpos p + Zpos p) by lia.
    rewrite !Z.pow_add_r by lia. ring.
  - apply shr_1_div2, Hm.
Qed.

(** [shr] divides the mantissa by [2^n] and adds [n] to the exponent,
    when [n] is positive, and does nothing otherwise. *)
Lemma shr_m_shr (mrs : shr_record) (e n : Z) :
  0 <= shr_m mrs ->
  shr_m (fst (shr mrs e n)) = shr_m mrs / 2 ^ Z.max n 0.
Proof.
  intros Hm. destruct n as [| p | p]; cbn [shr fst Z.max Z.compare].
  - rewrite Z.div_1_r. reflexivity.
  - apply iter_shr_1_div, Hm.
  - rewrite Z.div_1_r. reflexivity.
Qed.

Lemma shr_e_shr (mrs : shr_record) (e n : Z) :
  snd (shr mrs e n) = e + Z.max n 0.
Proof. destruct n as [| p | p]; cbn [shr snd]; lia. Qed.

Section Mantissa.

Variables prec emax : Z.
Hypothesis prec_pos : 0 < prec.

Lemma fexp_lower (e : Z) : e - prec <= fexp prec emax e.
Proof. unfold fexp. lia. Qed.

Lemma shr_fexp_m (m e : Z) (l : location) :
  0 <= m ->
  shr_m (fst (shr_fexp prec emax m e l)) =
  m / 2 ^ Z.max (fexp prec emax (Zdigits2 m + e) - e) 0.
Proof.
  intros Hm. unfold shr_fexp.
  rewrite shr_m_shr; rewrite shr_m_of_loc; [reflexivity | exact Hm].
Qed.

Lemma shr_fexp_e (m e : Z) (l : location) :
  snd (shr_fexp prec emax m e l) =
  e + Z.max (fexp prec emax (Zdigits2 m + e) - e) 0.
Proof. unfold shr_fexp. apply shr_e_shr. Qed.

(** The first truncation leaves at most [prec] bits. *)
Lemma shr_fexp_bounded (m e : Z) (l : location) :
  0 <= m -> shr_m (fst (shr_fexp prec emax m e l)) < 2 ^ prec.
Proof.
  intros Hm. rewrite shr_fexp_m by exact Hm.
  set (n := Z.max _ 0).
  assert (0 < 2 ^ n) by (apply Z.pow_pos_nonneg; lia).
  assert (0 < 2 ^ prec) by (apply Z.pow_pos_nonneg; lia).
  destruct (Z.eq_dec m 0) as [-> | Hm0].
  - rewrite Z.div_0_l by lia. assumption.
  - apply Z.div_lt_upper_bound; [assumption |].
    pose proof (Zdigits2_bounds m ltac:(lia)) as [_ Hd].
    pose proof (Zdigits2_nonneg m) as Hd0.
    pose proof (fexp_lower (Zdigits2 m + e)) as Hf.
    rewrite <- Z.pow_add_r by lia.
    eapply Z.lt_le_trans; [exact Hd |].
    apply Z.pow_le_mono_r; lia.
Qed.

Lemma binary_round_aux_bounded (s : bool) (mx ex : Z) (lx : location) :
  0 <= mx -> bounded_mantissa prec (binary_round_aux prec emax s mx ex lx).
Proof.
  intros Hmx. unfold binary_round_aux.
  pose proof (shr_fexp_nonneg prec emax mx ex lx Hmx) as H1.
  destruct (shr_fexp prec emax mx ex lx) as [mrs' e']. cbn [fst] in H1.
  pose proof (round_nearest_even_nonneg _ (loc_of_shr_record mrs') H1) as H2.
  pose proof (shr_fexp_bounded _ e' loc_Exact H2) as H3.
  destruct (shr_fexp prec emax _ e' loc_Exact) as [mrs'' e'']. cbn [fst] in H3.
  destruct (shr_m mrs'') as [| m | m]; cbn; auto.
  destruct (e'' <=? emax - prec); cbn; auto.
Qed.

Lemma SFdiv_bounded (x y : spec_float) :
  bounded_mantissa prec (SFdiv prec emax x y).
Proof.
  destruct x as [sx | sx | | sx mx ex], y as [sy | sy | | sy my ey];
    try exact I.
  cbn [SFdiv].
  pose proof (SFdiv_core_binary_nonneg prec emax mx my ex ey) as Hq.
  destruct (SFdiv_core_binary prec emax (Zpos mx) ex (Zpos my) ey)
    as [[mz ez] lz].
  apply binary_round_aux_bounded. exact Hq.
Qed.

End Mantissa.

(** ** The derived range and scale *)

Lemma std_min_cases (a b : float) : std_min a b = a \/ std_min a b = b.
Proof. unfold std_min. destruct (F32.ltb b a); auto. Qed.

Lemma std_max_cases (a b : float) : std_max a b = a \/ std_max a b = b.
Proof. unfold std_max. destruct (F32.ltb a b); auto. Qed.

Lemma fold_left_closed {A : Type} (P : A -> Prop) (f : A -> A -> A) :
  (forall a b, f a b = a \/ f a b = b) ->
  forall l a, P a -> Forall P l -> P (fold_left f l a).
Proof.
  intros Hf. induction l as [| b l IH]; intros a Ha Hl; cbn.
  - exact Ha.
  - inversion Hl; subst. apply IH; [| assumption].
    destruct (Hf a b) as [-> | ->]; assumption.
Qed.

Lemma fold_left_In {A : Type} (f : A -> A -> A) :
  (forall a b, f a b = a \/ f a b = b) ->
  forall l a, In (fold_left f l a) (a :: l).
Proof.
  intros Hf l a.
  apply (fold_left_closed (fun v => In v (a :: l)) f Hf).
  - left; reflexivity.
  - apply Forall_forall. intros v Hv. right; exact Hv.
Qed.

Lemma leb_zero_has_sign (x : float) :
  has_sign false x -> F32.leb fzero x = true.
Proof. destruct x as [s | s | | s m e]; cbn; intros H; subst; tauto. Qed.

(** After line 57 the minimum is a NaN or at most zero; after line 58 the
    maximum is a NaN or at least zero. *)
Lemma range_min_nonpos (m : float) :
  number m -> F32.leb (range_min m) fzero = true.
Proof.
  destruct m as [[] | [] | | [] p e]; intros H; try discriminate H;
    reflexivity.
Qed.

Lemma range_max_nonneg (m : float) :
  number m -> F32.leb fzero (range_max m) = true.
Proof.
  destruct m as [[] | [] | | [] p e]; intros H; try discriminate H;
    reflexivity.
Qed.

Lemma sub_nonneg_nonpos (mx mn : float) :
  F32.leb fzero mx = true -> F32.leb mn fzero = true ->
  F32.leb fzero (F32.sub mx mn) = true.
Proof.
  destruct mx as [sx | [] | | [] px ex]; cbn; try discriminate;
    destruct mn as [sn | [] | | [] pn en]; cbn; try discriminate;
    intros _ _; try reflexivity.
  - destruct sx, sn; reflexivity.
  - apply leb_zero_has_sign.
    apply (SFsub_pos_neg_has_sign F32.prec F32.emax px pn ex en).
Qed.

Lemma uint8_range_width : F32.sub (qmax uint8_t) (qmin uint8_t) = F32.of_Z 255.
Proof. reflexivity. Qed.

Lemma div_255_nonneg (d : float) :
  F32.leb fzero d = true -> F32.leb fzero (F32.div d (F32.of_Z 255)) = true.
Proof.
  destruct d as [s | [] | | [] p e]; cbn; try discriminate; intros _;
    try reflexivity.
  apply leb_zero_has_sign.
  apply (SFdiv_finite_has_sign F32.prec F32.emax false false).
Qed.

Lemma derived_scale_nonneg (x0 : float) (rest : list float) :
  Forall number (x0 :: rest) ->
  F32.leb fzero (derived_scale uint8_t x0 rest) = true.
Proof.
  intros Hx. inversion Hx as [| ? ? H0 Hrest]; subst.
  unfold derived_scale, compute_scale. rewrite uint8_range_width.
  apply div_255_nonneg, sub_nonneg_nonpos.
  - apply range_max_nonneg.
    apply (fold_left_closed number std_max std_max_cases); assumption.
  - apply range_min_nonpos.
    apply (fold_left_closed number std_min std_min_cases); assumption.
Qed.

Lemma range_min_shape (m : float) : nonpos_or_nan (range_min m) = true.
Proof. destruct m as [[] | [] | | [] p e]; reflexivity. Qed.

Lemma range_max_shape (m : float) : nonneg_or_nan (range_max m) = true.
Proof. destruct m as [[] | [] | | [] p e]; reflexivity. Qed.

Lemma has_sign_false_not_neg_zero (x : float) :
  has_sign false x -> x <> S754_zero true.
Proof. intros H ->. discriminate H. Qed.

(** ** The zero point when the scale degenerates *)

Lemma zero_point_nan_scale (mn : float) :
  compute_zero_point uint8_t mn S754_nan = 255.
Proof. destruct mn; reflexivity. Qed.

(** A scale that is a zero (of either sign) sends the zero point to the
    upper bound: [min / scale] is then a NaN or minus infinity. *)
Lemma zero_point_zero_scale (mn mx : float) (s : bool) :
  nonpos_or_nan mn = true -> nonneg_or_nan mx = true ->
  compute_scale uint8_t mn mx = S754_zero s ->
  compute_zero_point uint8_t mn (S754_zero s) = 255.
Proof.
  unfold compute_scale. rewrite uint8_range_width.
  destruct mn as [sn | [] | | [] pn en]; try discriminate; intros _;
    try (intros; reflexivity).
  - (* min = -inf *)
    destruct mx as [sx | [] | | [] px ex]; discriminate.
  - (* min finite and negative *)
    destruct s; [| intros; reflexivity].
    destruct mx as [sx | [] | | [] px ex]; try discriminate; intros _ Hs;
      exfalso; revert Hs.
    + apply has_sign_false_not_neg_zero.
      apply (SFdiv_finite_has_sign F32.prec F32.emax false false).
    + pose proof (SFsub_pos_neg_has_sign F32.prec F32.emax px pn ex en) as Hd.
      fold F32.sub in Hd.
      destruct (F32.sub _ _) as [sd | sd | | sd pd ed]; cbn in Hd; subst;
        try discriminate; try contradiction.
      apply has_sign_false_not_neg_zero.
      apply (SFdiv_finite_has_sign F32.prec F32.emax false false).
Qed.

Lemma derived_zero_point_range (x0 : float) (rest : list float) :
  0 <= derived_zero_point uint8_t x0 rest < 256.
Proof.
  unfold derived_zero_point, compute_zero_point. cbn [static_cast uint8_t].
  apply Z.mod_pos_bound. lia.
Qed.

(** ** Quantizing a zero *)

Lemma quantize_zero_regular (scale : float) (z : Z) (v : float) :
  0 <= z < 256 -> is_zero v ->
  (exists s, scale = S754_infinity s) \/ (exists s m e, scale = S754_finite s m e) ->
  quantize_one uint8_t scale z v = z.
Proof.
  intros Hz Hv Hscale.
  assert (quantize_zero_table = true) as Htab by (vm_compute; reflexivity).
  unfold quantize_zero_table in Htab. rewrite forallb_forall in Htab.
  specialize (Htab (Z.to_nat z)).
  rewrite Z2Nat.id in Htab by lia.
  assert (In (Z.to_nat z) (seq 0 256)) as Hin by (apply in_seq; lia).
  apply Htab in Hin. apply andb_prop in Hin as [Hp Hn].
  apply Z.eqb_eq in Hp, Hn.
  destruct v as [sv | | |]; try contradiction.
  destruct Hscale as [[s ->] | (s & m & e & ->)];
    destruct sv, s; assumption.
Qed.

(** ** The order of binary32 comparison *)

Lemma SFcompare_key (x y : float) :
  number x -> number y -> SFcompare x y = Some (lex3 (key x) (key y)).
Proof.
  destruct x as [sx | [] | | [] mx ex]; intros Hx; try discriminate Hx;
    destruct y as [sy | [] | | [] my ey]; intros Hy; try discriminate Hy;
    try reflexivity.
  - (* both negative: the order of the magnitudes is reversed *)
    unfold lex3; cbn [SFcompare key fst snd Z.compare Pos.compare].
    rewrite Z.compare_opp.
    rewrite (Z.compare_antisym ey ex).
    destruct (ey ?= ex); reflexivity.
Qed.

Lemma lex3_le (a b : Z * Z * Z) :
  lex3 a b <> Gt <->
  fst (fst a) < fst (fst b) \/
  (fst (fst a) = fst (fst b) /\
   (snd (fst a) < snd (fst b) \/
    (snd (fst a) = snd (fst b) /\ snd a <= snd b))).
Proof.
  unfold lex3.
  destruct (Z.compare_spec (fst (fst a)) (fst (fst b)));
    destruct (Z.compare_spec (snd (fst a)) (snd (fst b)));
    destruct (Z.compare_spec (snd a) (snd b));
    split; intros; try lia; try congruence.
Qed.

Lemma leb_key (x y : float) :
  number x -> number y ->
  (F32.leb x y = true <-> lex3 (key x) (key y) <> Gt).
Proof.
  intros Hx Hy. unfold F32.leb, SFleb. rewrite SFcompare_key by assumption.
  destruct (lex3 (key x) (key y)); split; congruence.
Qed.

Lemma ltb_key (x y : float) :
  number x -> number y ->
  (F32.ltb x y = false <-> lex3 (key y) (key x) <> Gt).
Proof.
  intros Hx Hy. unfold F32.ltb, SFltb. rewrite SFcompare_key by assumption.
  rewrite lex3_le. unfold lex3.
  destruct (Z.compare_spec (fst (fst (key x))) (fst (fst (key y))));
    destruct (Z.compare_spec (snd (fst (key x))) (snd (fst (key y))));
    destruct (Z.compare_spec (snd (key x)) (snd (key y)));
    split; intros; try lia; try congruence.
Qed.

Lemma leb_number (x y : float) : F32.leb x y = true -> number x /\ number y.
Proof. destruct x, y; cbn; intros H; split; try reflexivity; discriminate. Qed.

Lemma leb_refl (x : float) : number x -> F32.leb x x = true.
Proof. intros Hx. apply leb_key; [assumption .. |]. apply lex3_le. lia. Qed.

Lemma leb_trans (x y z : float) :
  F32.leb x y = true -> F32.leb y z = true -> F32.leb x z = true.
Proof.
  intros Hxy Hyz.
  destruct (leb_number _ _ Hxy) as [Hx Hy].
  destruct (leb_number _ _ Hyz) as [_ Hz].
  apply leb_key in Hxy, Hyz; try assumption.
  apply leb_key; try assumption.
  rewrite lex3_le in *. lia.
Qed.

Lemma std_min_le_l (a b : float) :
  number a -> number b -> F32.leb (std_min a b) a = true.
Proof.
  intros Ha Hb. unfold std_min. destruct (F32.ltb b a) eqn:Hlt.
  - unfold F32.ltb, SFltb in Hlt. unfold F32.leb, SFleb.
    destruct (SFcompare b a) as [[] |]; congruence.
  - apply leb_refl, Ha.
Qed.

Lemma std_min_le_r (a b : float) :
  number a -> number b -> F32.leb (std_min a b) b = true.
Proof.
  intros Ha Hb. unfold std_min. destruct (F32.ltb b a) eqn:Hlt.
  - apply leb_refl, Hb.
  - apply leb_key; try assumption. apply ltb_key in Hlt; assumption.
Qed.

Lemma std_max_ge_l (a b : float) :
  number a -> number b -> F32.leb a (std_max a b) = true.
Proof.
  intros Ha Hb. unfold std_max. destruct (F32.ltb a b) eqn:Hlt.
  - unfold F32.ltb, SFltb in Hlt. unfold F32.leb, SFleb.
    destruct (SFcompare a b) as [[] |]; congruence.
  - apply leb_refl, Ha.
Qed.

Lemma std_max_ge_r (a b : float) :
  number a -> number b -> F32.leb b (std_max a b) = true.
Proof.
  intros Ha Hb. unfold std_max. destruct (F32.ltb a b) eqn:Hlt.
  - apply leb_refl, Hb.
  - apply leb_key; try assumption. apply ltb_key in Hlt; assumption.
Qed.

Lemma std_min_number (a b : float) : number a -> number b -> number (std_min a b).
Proof. intros Ha Hb. destruct (std_min_cases a b) as [-> | ->]; assumption. Qed.

Lemma std_max_number (a b : float) : number a -> number b -> number (std_max a b).
Proof. intros Ha Hb. destruct (std_max_cases a b) as [-> | ->]; assumption. Qed.

(** The scan of [minCoeff] returns a lower bound of what it has seen, and
    that of [maxCoeff] an upper bound. *)
Lemma fold_left_std_min_lower (l : list float) (a : float) :
  Forall number (a :: l) ->
  Forall (fun v => F32.leb (fold_left std_min l a) v = true) (a :: l).
Proof.
  revert a. induction l as [| b l IH]; intros a Hn.
  - inversion Hn; subst. constructor; [| constructor]. apply leb_refl; assumption.
  - inversion Hn as [| ? ? Ha Hbl]; subst. inversion Hbl as [| ? ? Hb Hl]; subst.
    cbn [fold_left].
    assert (Forall number (std_min a b :: l)) as Hn'
        by (constructor; [apply std_min_number |]; assumption).
    specialize (IH _ Hn'). inversion IH as [| ? ? Hhd Htl]; subst.
    constructor; [| constructor].
    + eapply leb_trans; [exact Hhd | apply std_min_le_l; assumption].
    + eapply leb_trans; [exact Hhd | apply std_min_le_r; assumption].
    + exact Htl.
Qed.

Lemma fold_left_std_max_upper (l : list float) (a : float) :
  Forall number (a :: l) ->
  Forall (fun v => F32.leb v (fold_left std_max l a) = true) (a :: l).
Proof.
  revert a. induction l as [| b l IH]; intros a Hn.
  - inversion Hn; subst. constructor; [| constructor]. apply leb_refl; assumption.
  - inversion Hn as [| ? ? Ha Hbl]; subst. inversion Hbl as [| ? ? Hb Hl]; subst.
    cbn [fold_left].
    assert (Forall number (std_max a b :: l)) as Hn'
        by (constructor; [apply std_max_number |]; assumption).
    specialize (IH _ Hn'). inversion IH as [| ? ? Hhd Htl]; subst.
    constructor; [| constructor].
    + eapply leb_trans; [apply (std_max_ge_l a b); assumption | exact Hhd].
    + eapply leb_trans; [apply (std_max_ge_r a b); assumption | exact Hhd].
    + exact Htl.
Qed.

Lemma two_workers_serves (n : nat) : serves two_workers n = true.
Proof.
  apply partitionsb_correct.
  assert (n / 2 <= n)%nat as Hle by (apply Nat.Div0.div_le_upper_bound; lia).
  split; cbn [split two_workers].
  - repeat constructor; cbn [fst snd]; lia.
  - intros i Hi. unfold hits. cbn [filter fst snd].
    destruct (Nat.leb_spec (n / 2) i), (Nat.ltb_spec i n),
      (Nat.ltb_spec i (n / 2)); cbn; lia.
Qed.

(** ** Rounding to the nearest integer, ties to even *)

Lemma nearest_even_spec (m d : Z) :
  0 < d -> 0 <= m ->
  nearest_ties_even m d (nearest_even m d)
  /\ m / d <= nearest_even m d <= m / d + 1.
Proof.
  intros Hd Hm. unfold nearest_ties_even, nearest_even.
  pose proof (Z.div_mod m d ltac:(lia)) as Hdm.
  pose proof (Z.mod_pos_bound m d Hd) as Hr.
  set (q := m / d) in *. set (r := m mod d) in *.
  destruct (Z.compare_spec (2 * r) d) as [Heq | Hlt | Hgt].
  - destruct (Z.even q) eqn:Hq.
    + repeat split; try lia. intros _. exact Hq.
    + repeat split; try lia. intros _.
      replace (q + 1) with (Z.succ q) by lia.
      rewrite Z.even_succ, <- Z.negb_even, Hq. reflexivity.
  - repeat split; lia.
  - repeat split; lia.
Qed.

Lemma nearest_ties_even_unique (m d n n' : Z) :
  0 < d ->
  nearest_ties_even m d n -> nearest_ties_even m d n' -> n = n'.
Proof.
  intros Hd [Hn Hne] [Hn' Hne'].
  assert (n' = n \/ n' = Z.succ n \/ n = Z.succ n') as [-> | [-> | ->]] by nia.
  - reflexivity.
  - assert (2 * Z.abs (n * d - m) = d) as H1 by lia.
    assert (2 * Z.abs (Z.succ n * d - m) = d) as H2 by lia.
    specialize (Hne H1). specialize (Hne' H2).
    rewrite Z.even_succ, <- Z.negb_even, Hne in Hne'. discriminate.
  - assert (2 * Z.abs (n' * d - m) = d) as H1 by lia.
    assert (2 * Z.abs (Z.succ n' * d - m) = d) as H2 by lia.
    specialize (Hne H2). specialize (Hne' H1).
    rewrite Z.even_succ, <- Z.negb_even, Hne' in Hne. discriminate.
Qed.

Lemma clamp_clamped (v : float) :
  bounded_mantissa F32.prec v ->
  clamped (clamp (F32.of_Z 0) (F32.of_Z 255) v).
Proof.
  assert (clamped (F32.of_Z 255)) as H255.
  { right. exists 16711680%positive, (-16). repeat split; cbn; lia. }
  assert (clamped fzero) as H0 by (left; exact I).
  unfold clamp, std_max, std_min.
  destruct v as [s | [] | | [] m e]; intros Hb; try assumption.
  destruct (F32.ltb _ (F32.of_Z 255)) eqn:Hlt; [| exact H255].
  replace (F32.ltb (F32.of_Z 0) (S754_finite false m e)) with true
    by reflexivity.
  right. exists m, e. split; [reflexivity |].
  cbn in Hb. unfold F32.ltb, SFltb in Hlt.
  cbn [SFcompare F32.of_Z binary_normalize] in Hlt.
  change (binary_round F32.prec F32.emax false 255 0)
    with (S754_finite false 16711680 (-16)) in Hlt.
  cbn [SFcompare] in Hlt.
  destruct (Z.compare_spec e (-16)) as [He | He | He]; try discriminate.
  - subst e.
    change (Pos.compare_cont Eq m 16711680) with (Pos.compare m 16711680) in Hlt.
    destruct (Pos.compare_spec m 16711680); try discriminate.
    cbn. lia.
  - split; [lia |].
    assert (2 ^ 17 <= 2 ^ (- e)) by (apply Z.pow_le_mono_r; lia).
    change (2 ^ F32.prec) with 16777216 in Hb.
    change (2 ^ 17) with 131072 in *. lia.
Qed.

(** On a clamped value the rounded result truncates to an integer of
    [0, 255], the one nearest to the value with ties to even, so that the
    conversion to uint8 is defined and returns it. *)
Lemma truncate_clamped (c : float) :
  clamped c ->
  rounds_half_even c (truncate (RoundHalfToEven c))
  /\ 0 <= truncate (RoundHalfToEven c) <= 255.
Proof.
  intros [Hz | (m & e & -> & He & Hm)].
  - destruct c; try contradiction. cbn. lia.
  - unfold RoundHalfToEven, nearbyintf, rounds_half_even.
    destruct (Z.leb_spec 0 e) as [| _]; [lia |].
    assert (0 < 2 ^ (- e)) as Hd by (apply Z.pow_pos_nonneg; lia).
    destruct (nearest_even_spec (Zpos m) (2 ^ (- e)) Hd ltac:(lia))
      as [Hspec [Hlo Hhi]].
    set (n := nearest_even (Zpos m) (2 ^ (- e))) in *.
    assert (0 <= n <= 255) as Hn.
    { split.
      - pose proof (Z.div_pos (Zpos m) (2 ^ (- e)) ltac:(lia) Hd). lia.
      - destruct (Z.eq_dec n (Zpos m / 2 ^ (- e) + 1)) as [Hup |].
        + destruct Hspec as [Hnear _]. rewrite Hup in Hnear |- *.
          pose proof (Z.div_mod (Zpos m) (2 ^ (- e)) ltac:(lia)) as Hdm.
          pose proof (Z.mod_pos_bound (Zpos m) (2 ^ (- e)) Hd) as Hr.
          nia.
        + assert (Zpos m / 2 ^ (- e) <= 255)
            by (apply Zdiv_le_upper_bound; lia).
          lia. }
    assert (integral_table = true) as Htab by (vm_compute; reflexivity).
    unfold integral_table in Htab. rewrite forallb_forall in Htab.
    specialize (Htab (Z.to_nat n)). rewrite Z2Nat.id in Htab by lia.
    assert (In (Z.to_nat n) (seq 0 256)) as Hin by (apply in_seq; lia).
    apply Htab, Z.eqb_eq in Hin.
    cbn [SpecFloat.cond_Zopp]. rewrite Hin.
    split; [exact Hspec | exact Hn].
Qed.

Lemma static_cast_clamped (c : float) :
  clamped c -> static_cast uint8_t (RoundHalfToEven c) = truncate (RoundHalfToEven c).
Proof.
  intros Hc. destruct (truncate_clamped c Hc) as [_ Hr].
  cbn [static_cast uint8_t]. apply Z.mod_small. lia.
Qed.

Lemma RoundHalfToEven_clamped (c : float) :
  clamped c ->
  rounds_half_even c (static_cast uint8_t (RoundHalfToEven c))
  /\ 0 <= static_cast uint8_t (RoundHalfToEven c) <= 255.
Proof.
  intros Hc. rewrite static_cast_clamped by exact Hc.
  apply truncate_clamped, Hc.
Qed.

Lemma initial_zero_point_bounded (mn scale : float) :
  bounded_mantissa F32.prec (initial_zero_point uint8_t mn scale).
Proof.
  unfold initial_zero_point.
  pose proof (SFdiv_bounded F32.prec F32.emax ltac:(reflexivity) mn scale) as Hb.
  fold (F32.div mn scale) in Hb.
  destruct (F32.div mn scale) as [[] | [] | | s m e]; try exact I.
  exact Hb.
Qed.

Lemma binary_normalize_bounded (z e : Z) (szero : bool) :
  bounded_mantissa F32.prec (binary_normalize F32.prec F32.emax z e szero).
Proof.
  destruct z as [| p | p]; cbn [binary_normalize]; [exact I | |];
    unfold binary_round; destruct (shl_align p e _) as [mz ez];
    apply binary_round_aux_bounded; reflexivity || lia.
Qed.

Lemma add_bounded (x y : float) :
  bounded_mantissa F32.prec x -> bounded_mantissa F32.prec y ->
  bounded_mantissa F32.prec (F32.add x y).
Proof.
  intros Hx Hy.
  destruct x as [sx | sx | | sx mx ex], y as [sy | sy | | sy my ey];
    try exact I; try assumption.
  - destruct sx, sy; exact I.
  - destruct sx, sy; exact I.
  - apply binary_normalize_bounded.
Qed.

(** Every conversion from [float] to uint8 that the kernel and the
    elementwise pass perform is applied to an integral value of
    [0, 255]: the conversions are defined, whatever the input. *)
Lemma conversions_defined (mn scale : float) (zero_point : Z) (v : float) :
  0 <= truncate (RoundHalfToEven
                   (std_max (qmin uint8_t)
                      (std_min (qmax uint8_t)
                         (initial_zero_point uint8_t mn scale)))) <= 255
  /\ 0 <= truncate (RoundHalfToEven
                      (clamp (F32.of_Z 0) (F32.of_Z 255)
                         (F32.add (F32.div v scale) (F32.of_Z zero_point))))
       <= 255.
Proof.
  split.
  - apply truncate_clamped.
    apply (clamp_clamped _ (initial_zero_point_bounded mn scale)).
  - apply truncate_clamped, clamp_clamped, add_bounded.
    + apply (SFdiv_bounded F32.prec F32.emax). reflexivity.
    + apply binary_normalize_bounded.
Qed.

(** * Accuracy of the arithmetic *)

(** ** Powers of two as real numbers *)

Lemma bpow_gt_0 (e : Z) : (0 < bpow e)%R.
Proof. apply powerRZ_lt. lra. Qed.

Lemma bpow_add (a b : Z) : bpow (a + b) = (bpow a * bpow b)%R.
Proof. apply powerRZ_add. lra. Qed.

Lemma bpow_IZR (n : Z) : 0 <= n -> bpow n = IZR (2 ^ n).
Proof.
  intros Hn. unfold bpow.
  rewrite <- (Z2Nat.id n Hn) at 1 2.
  rewrite <- pow_powerRZ, pow_IZR. reflexivity.
Qed.

Lemma bpow_opp (e : Z) : bpow (- e) = (/ bpow e)%R.
Proof. apply powerRZ_neg'. Qed.

Lemma bpow_ge_1 (n : Z) : 0 <= n -> (1 <= bpow n)%R.
Proof.
  intros Hn. rewrite bpow_IZR by exact Hn. apply IZR_le.
  pose proof (Z.pow_pos_nonneg 2 n ltac:(lia) Hn). lia.
Qed.

Lemma bpow_le (a b : Z) : a <= b -> (bpow a <= bpow b)%R.
Proof.
  intros Hab. replace b with (a + (b - a)) by lia. rewrite bpow_add.
  pose proof (bpow_gt_0 a). pose proof (bpow_ge_1 (b - a) ltac:(lia)). nra.
Qed.

Lemma bpow_lt (a b : Z) : a < b -> (bpow a < bpow b)%R.
Proof.
  intros Hab. replace b with (a + (b - a)) by lia. rewrite bpow_add.
  pose proof (bpow_gt_0 a).
  assert (2 <= bpow (b - a))%R.
  { rewrite bpow_IZR by lia. apply IZR_le.
    replace (b - a) with (Z.succ (b - a - 1)) by lia.
    rewrite Z.pow_succ_r by lia.
    pose proof (Z.pow_pos_nonneg 2 (b - a - 1) ltac:(lia) ltac:(lia)). lia. }
  nra.
Qed.

Lemma bpow_0 : bpow 0 = 1%R.
Proof. reflexivity. Qed.

Lemma bpow_1 : bpow 1 = 2%R.
Proof. rewrite bpow_IZR by lia. reflexivity. Qed.

(** ** Counting bits *)

Lemma Zdigits2_unique (m k : Z) :
  2 ^ (k - 1) <= m < 2 ^ k -> 0 < m -> Zdigits2 m = k.
Proof.
  intros [Hlo Hhi] Hm.
  pose proof (Zdigits2_bounds m Hm) as [Dlo Dhi].
  pose proof (Zdigits2_nonneg m) as Hd.
  assert (0 < k).
  { destruct (Z.lt_ge_cases 0 k) as [| Hk]; [assumption |].
    destruct (Z.eq_dec k 0) as [-> | ]; [cbn in Hhi; lia |].
    rewrite (Z.pow_neg_r 2 k) in Hhi by lia. lia. }
  destruct (Z.lt_trichotomy (Zdigits2 m) k) as [Hlt | [Heq | Hgt]].
  - assert (2 ^ Zdigits2 m <= 2 ^ (k - 1)) by (apply Z.pow_le_mono_r; lia). lia.
  - exact Heq.
  - assert (2 ^ k <= 2 ^ (Zdigits2 m - 1)) by (apply Z.pow_le_mono_r; lia). lia.
Qed.

Lemma Zdigits2_pos (m : Z) : 0 < m -> 0 < Zdigits2 m.
Proof. destruct m; cbn; lia. Qed.

Lemma Zdigits2_div_pow2 (m n : Z) :
  0 <= n -> 0 < m / 2 ^ n -> Zdigits2 (m / 2 ^ n) = Zdigits2 m - n.
Proof.
  intros Hn Hq.
  assert (0 < 2 ^ n) as Hp by (apply Z.pow_pos_nonneg; lia).
  assert (0 < m) as Hm.
  { destruct (Z.lt_ge_cases 0 m); [assumption |].
    assert (m / 2 ^ n <= 0) by (apply Z.div_le_upper_bound; lia). lia. }
  pose proof (Zdigits2_bounds m Hm) as [Dlo Dhi].
  pose proof (Zdigits2_pos m Hm) as Hd.
  assert (n < Zdigits2 m) as Hnd.
  { destruct (Z.lt_ge_cases n (Zdigits2 m)); [assumption |].
    assert (2 ^ Zdigits2 m <= 2 ^ n) by (apply Z.pow_le_mono_r; lia).
    rewrite Z.div_small in Hq by lia. lia. }
  apply Zdigits2_unique; [| exact Hq]. split.
  - apply Z.div_le_lower_bound; [exact Hp |].
    rewrite <- Z.pow_add_r by lia.
    replace (n + (Zdigits2 m - n - 1)) with (Zdigits2 m - 1) by lia. exact Dlo.
  - apply Z.div_lt_upper_bound; [exact Hp |].
    rewrite <- Z.pow_add_r by lia.
    replace (n + (Zdigits2 m - n)) with (Zdigits2 m) by lia. exact Dhi.
Qed.

Lemma Zdigits2_mul_pow2 (m n : Z) :
  0 < m -> 0 <= n -> Zdigits2 (m * 2 ^ n) = Zdigits2 m + n.
Proof.
  intros Hm Hn.
  assert (0 < 2 ^ n) as Hp by (apply Z.pow_pos_nonneg; lia).
  pose proof (Zdigits2_bounds m Hm) as [Dlo Dhi].
  pose proof (Zdigits2_pos m Hm) as Hd.
  apply Zdigits2_unique; [| nia]. split.
  - replace (Zdigits2 m + n - 1) with (Zdigits2 m - 1 + n) by lia.
    rewrite Z.pow_add_r by lia. nia.
  - rewrite Z.pow_add_r by lia. nia.
Qed.

Lemma Zdigits2_succ (m : Z) :
  0 <= m ->
  Zdigits2 (m + 1) = Zdigits2 m
  \/ (Zdigits2 (m + 1) = Zdigits2 m + 1 /\ m + 1 = 2 ^ Zdigits2 m).
Proof.
  intros Hm. destruct (Z.eq_dec m 0) as [-> | Hm0]; [right; split; reflexivity |].
  pose proof (Zdigits2_bounds m ltac:(lia)) as [Dlo Dhi].
  pose proof (Zdigits2_pos m ltac:(lia)) as Hd.
  destruct (Z.eq_dec (m + 1) (2 ^ Zdigits2 m)) as [Heq | Hne].
  - right. split; [| exact Heq].
    apply Zdigits2_unique; [| lia].
    replace (Zdigits2 m + 1 - 1) with (Zdigits2 m) by lia.
    rewrite Z.pow_add_r by lia. change (2 ^ 1) with 2. lia.
  - left. apply Zdigits2_unique; lia.
Qed.

Lemma Rabs_le_inv (a b : R) : (Rabs a <= b)%R -> (- b <= a <= b)%R.
Proof. unfold Rabs. destruct (Rcase_abs a); lra. Qed.

(** ** The rounding step *)

Lemma inbetween_shift (m e n : Z) (v : R) :
  0 <= m -> 0 <= n -> inbetween m e v -> inbetween (m / 2 ^ n) (e + n) v.
Proof.
  intros Hm Hn [Hlo Hhi]. unfold inbetween.
  assert (0 < 2 ^ n) as Hp by (apply Z.pow_pos_nonneg; lia).
  pose proof (Z.div_mod m (2 ^ n) ltac:(lia)) as Hdm.
  pose proof (Z.mod_pos_bound m (2 ^ n) Hp) as Hr.
  rewrite bpow_add, (bpow_IZR n Hn).
  pose proof (bpow_gt_0 e) as He.
  assert (IZR (m / 2 ^ n) * IZR (2 ^ n) <= IZR m)%R as A
      by (rewrite <- mult_IZR; apply IZR_le; lia).
  assert (IZR (m + 1) <= IZR (m / 2 ^ n + 1) * IZR (2 ^ n))%R as B
      by (rewrite <- mult_IZR; apply IZR_le; lia).
  split.
  - apply Rle_trans with (IZR m * bpow e)%R; [| exact Hlo].
    replace (IZR (m / 2 ^ n) * (bpow e * IZR (2 ^ n)))%R
      with (IZR (m / 2 ^ n) * IZR (2 ^ n) * bpow e)%R by ring.
    apply Rmult_le_compat_r; [lra | exact A].
  - apply Rlt_le_trans with (IZR (m + 1) * bpow e)%R; [exact Hhi |].
    replace (IZR (m / 2 ^ n + 1) * (bpow e * IZR (2 ^ n)))%R
      with (IZR (m / 2 ^ n + 1) * IZR (2 ^ n) * bpow e)%R by ring.
    apply Rmult_le_compat_r; [lra | exact B].
Qed.

Section Rounding.

Variables prec emax : Z.
Hypothesis prec_gt_1 : 1 < prec.

Let emin := SpecFloat.emin prec emax.
Let fexp := SpecFloat.fexp prec emax.

Lemma fexp_mono (a b : Z) : a <= b -> fexp a <= fexp b.
Proof. unfold fexp, SpecFloat.fexp. lia. Qed.

Lemma fexp_succ (a : Z) : fexp (a + 1) <= fexp a + 1.
Proof. unfold fexp, SpecFloat.fexp. lia. Qed.

Lemma fexp_ge_arg (a : Z) : a <= fexp a -> fexp a = emin.
Proof. unfold fexp, SpecFloat.fexp, emin. lia. Qed.

Lemma fexp_emin : fexp emin = emin.
Proof. unfold fexp, SpecFloat.fexp, emin. lia. Qed.

Lemma fexp_ge_emin (a : Z) : emin <= fexp a.
Proof. unfold fexp, SpecFloat.fexp, emin. lia. Qed.

(** First truncation: under the precondition that the exponent is not
    above the canonical one, the mantissa is cut to its canonical
    length. *)
Lemma shr_fexp_truncate (m e : Z) (l : location) (v : R) :
  0 <= m -> e <= fexp (Zdigits2 m + e) -> inbetween m e v ->
  let m1 := shr_m (fst (shr_fexp prec emax m e l)) in
  let e1 := snd (shr_fexp prec emax m e l) in
  0 <= m1 /\ inbetween m1 e1 v
  /\ (0 < m1 -> fexp (Zdigits2 m1 + e1) = e1)
  /\ (m1 = 0 -> e1 = emin).
Proof.
  intros Hm Hpre Hv. cbv zeta.
  rewrite shr_fexp_m by (try exact Hm; lia).
  rewrite shr_fexp_e.
  fold (fexp (Zdigits2 m + e)).
  set (n := fexp (Zdigits2 m + e) - e) in *.
  assert (0 <= n) as Hn by (unfold n; lia).
  rewrite Z.max_l by exact Hn.
  assert (0 < 2 ^ n) as Hp by (apply Z.pow_pos_nonneg; lia).
  split; [apply Z.div_pos; lia |].
  split; [apply inbetween_shift; assumption |].
  split.
  - intros Hm1. rewrite Zdigits2_div_pow2 by assumption.
    replace (Zdigits2 m - n + (e + n)) with (Zdigits2 m + e) by lia.
    unfold n. lia.
  - intros Hm1.
    replace (e + n) with (fexp (Zdigits2 m + e)) by (unfold n; lia).
    apply fexp_ge_arg.
    destruct (Z.eq_dec m 0) as [-> | Hm0].
    + cbn [Zdigits2] in *. lia.
    + pose proof (Zdigits2_bounds m ltac:(lia)) as [Dlo Dhi].
      pose proof (Zdigits2_pos m ltac:(lia)) as Hd.
      destruct (Z.lt_ge_cases n (Zdigits2 m)) as [Hlt | Hge]; [| unfold n in Hge; lia].
      exfalso.
      assert (2 ^ n <= 2 ^ (Zdigits2 m - 1)) by (apply Z.pow_le_mono_r; lia).
      assert (1 <= m / 2 ^ n) by (apply Z.div_le_lower_bound; lia).
      lia.
Qed.

Lemma round_nearest_even_cases (m : Z) (l : location) :
  round_nearest_even m l = m \/ round_nearest_even m l = m + 1.
Proof.
  destruct l as [| []]; cbn; auto. destruct (Z.even m); auto.
Qed.

(** Second truncation: after rounding, at most one more bit has to go,
    and only when the mantissa has become a power of two. *)
Lemma shr_fexp_renormalize (m1 m2 e1 : Z) :
  0 <= m1 ->
  (0 < m1 -> fexp (Zdigits2 m1 + e1) = e1) ->
  (m1 = 0 -> e1 = emin) ->
  m2 = m1 \/ m2 = m1 + 1 ->
  let m3 := shr_m (fst (shr_fexp prec emax m2 e1 loc_Exact)) in
  let e3 := snd (shr_fexp prec emax m2 e1 loc_Exact) in
  0 <= m3 /\ e1 <= e3
  /\ (IZR m3 * bpow e3 = IZR m2 * bpow e1)%R
  /\ (0 < m3 -> fexp (Zdigits2 m3 + e3) = e3)
  /\ (m3 = 0 -> e3 = emin).
Proof.
  intros Hm1 Hcan Hzero Hm2. cbv zeta.
  assert (0 <= m2) as Hm2' by lia.
  rewrite shr_fexp_m by (try exact Hm2'; lia).
  rewrite shr_fexp_e.
  fold (fexp (Zdigits2 m2 + e1)).
  set (n := fexp (Zdigits2 m2 + e1) - e1) in *.
  destruct (Z.eq_dec m2 0) as [Hz | Hnz].
  - (* the result is zero *)
    assert (m1 = 0) as Hm10 by lia. specialize (Hzero Hm10).
    assert (n = 0) as ->.
    { unfold n. rewrite Hz. cbn [Zdigits2]. rewrite Z.add_0_l, Hzero.
      rewrite fexp_emin. lia. }
    rewrite Hz. cbn. rewrite Z.add_0_r. repeat split; try lia.
  - assert (n = 0 \/ (n = 1 /\ m2 = 2 ^ Zdigits2 m1 /\ 0 < m1
                      /\ Zdigits2 m2 = Zdigits2 m1 + 1)) as Hn.
    { destruct (Z.eq_dec m1 0) as [Hm10 | Hm10].
      - left. assert (m2 = 1) as -> by lia.
        unfold n. rewrite (Hzero Hm10). cbn [Zdigits2 digits2_pos].
        unfold fexp, SpecFloat.fexp, emin, SpecFloat.emin. lia.
      - specialize (Hcan ltac:(lia)).
        destruct Hm2 as [-> | ->].
        + left. unfold n. lia.
        + destruct (Zdigits2_succ m1 Hm1) as [Hd | [Hd Hpow]].
          * left. unfold n. rewrite Hd. lia.
          * pose proof (fexp_succ (Zdigits2 m1 + e1)) as Hs.
            pose proof (fexp_mono (Zdigits2 m1 + e1) (Zdigits2 m1 + e1 + 1)
                          ltac:(lia)) as Hmo.
            assert (n = fexp (Zdigits2 m1 + e1 + 1) - e1) as Hn'
                by (unfold n; rewrite Hd; do 2 f_equal; lia).
            assert (n = 0 \/ n = 1) as [Hn0 | Hn1] by lia.
            -- left; exact Hn0.
            -- right. repeat split; try assumption; lia. }
    destruct Hn as [Hn | (Hn & Hpow & Hm1pos & Hdig)]; rewrite Hn.
    + change (Z.max 0 0) with 0. change (2 ^ 0) with 1.
      rewrite Z.div_1_r, Z.add_0_r.
      repeat split; lia.
    + change (Z.max 1 0) with 1. change (2 ^ 1) with 2.
      pose proof (Zdigits2_pos m1 Hm1pos) as Hd.
      assert (m2 = 2 * 2 ^ (Zdigits2 m1 - 1)) as Hm2eq.
      { rewrite Hpow. rewrite <- Z.pow_succ_r by lia. f_equal. lia. }
      assert (0 < 2 ^ (Zdigits2 m1 - 1)) by (apply Z.pow_pos_nonneg; lia).
      assert (m2 / 2 = 2 ^ (Zdigits2 m1 - 1)) as Hhalf.
      { rewrite Hm2eq. rewrite Z.mul_comm, Z.div_mul by lia. reflexivity. }
      rewrite Hhalf. repeat split; try lia.
      * rewrite bpow_add, bpow_1, Hm2eq, mult_IZR. lra.
      * intros _.
        assert (Zdigits2 (2 ^ (Zdigits2 m1 - 1)) = Zdigits2 m1) as ->.
        { apply Zdigits2_unique; [| lia]. split; [lia |].
          apply Z.pow_lt_mono_r; lia. }
        unfold n in Hn. rewrite Hdig in Hn.
        replace (Zdigits2 m1 + (e1 + 1)) with (Zdigits2 m1 + 1 + e1) by lia.
        lia.
Qed.

(** The rounding step of every operation: the result is a zero, a
    canonical finite number or an infinity of the given sign, one unit in
    the last place away from the exact value at most. *)
Lemma binary_round_aux_correct (s : bool) (mx ex : Z) (lx : location) (v : R) :
  0 <= mx -> ex <= fexp (Zdigits2 mx + ex) -> inbetween mx ex v ->
  exists m3 e3,
    0 <= m3
    /\ (0 < m3 -> fexp (Zdigits2 m3 + e3) = e3)
    /\ (m3 = 0 -> e3 = emin)
    /\ (Rabs (IZR m3 * bpow e3 - v) <= bpow e3)%R
    /\ binary_round_aux prec emax s mx ex lx =
       match m3 with
       | Z0 => S754_zero s
       | Zpos p =>
           if e3 <=? emax - prec then S754_finite s p e3 else S754_infinity s
       | Zneg _ => S754_nan
       end.
Proof.
  intros Hmx Hpre Hv.
  destruct (shr_fexp_truncate mx ex lx v Hmx Hpre Hv) as (H1 & Hv1 & Hcan1 & Hz1).
  unfold binary_round_aux.
  destruct (shr_fexp prec emax mx ex lx) as [mrs' e']. cbn [fst snd] in *.
  set (m2 := round_nearest_even (shr_m mrs') (loc_of_shr_record mrs')).
  pose proof (round_nearest_even_cases (shr_m mrs') (loc_of_shr_record mrs'))
    as Hm2. fold m2 in Hm2.
  destruct (shr_fexp_renormalize (shr_m mrs') m2 e' H1 Hcan1 Hz1 Hm2)
    as (H3 & He3 & Hval & Hcan3 & Hz3).
  destruct (shr_fexp prec emax m2 e' loc_Exact) as [mrs'' e'']. cbn [fst snd] in *.
  exists (shr_m mrs''), e''.
  split; [exact H3 |]. split; [exact Hcan3 |]. split; [exact Hz3 |].
  split; [| reflexivity].
  rewrite Hval. destruct Hv1 as [Hlo Hhi].
  pose proof (bpow_le e' e'' He3) as Hle.
  pose proof (bpow_gt_0 e') as Hpos.
  rewrite plus_IZR in Hhi.
  apply Rabs_le.
  destruct Hm2 as [-> | ->]; [| rewrite plus_IZR]; split; nra.
Qed.

End Rounding.

Section Operations.

Variables prec emax : Z.
Hypothesis prec_gt_1 : 1 < prec.
Hypothesis emax_ge_2 : 2 <= emax.

Let emin := SpecFloat.emin prec emax.
Let fexp := SpecFloat.fexp prec emax.

Lemma canonical_normal (m : positive) (e : Z) :
  canonical_mantissa prec emax m e = true -> emin < e ->
  2 ^ (prec - 1) <= Zpos m.
Proof.
  unfold canonical_mantissa. intros Hc He. apply Z.eqb_eq in Hc.
  pose proof (digits2_pos_bounds m) as [Hlo _].
  assert (Zpos (digits2_pos m) = prec) as <-
      by (unfold SpecFloat.fexp, emin, SpecFloat.emin in *; lia).
  exact Hlo.
Qed.

Lemma canonical_bounded (m : positive) (e : Z) :
  canonical_mantissa prec emax m e = true -> Zpos m < 2 ^ prec.
Proof.
  unfold canonical_mantissa. intros Hc. apply Z.eqb_eq in Hc.
  pose proof (digits2_pos_bounds m) as [_ Hhi].
  eapply Z.lt_le_trans; [exact Hhi |].
  apply Z.pow_le_mono_r; [lia |].
  unfold SpecFloat.fexp in Hc. lia.
Qed.

(** The rounding step, on the magnitude [v] of the exact result. *)
Lemma binary_round_aux_rounded (s : bool) (mx ex : Z) (lx : location) (v : R) :
  0 <= mx -> ex <= fexp (Zdigits2 mx + ex) -> inbetween mx ex v ->
  rounded prec emax (binary_round_aux prec emax s mx ex lx)
    (if s then - v else v)%R.
Proof.
  intros Hmx Hpre Hv.
  destruct (binary_round_aux_correct prec emax prec_gt_1 s mx ex lx v Hmx Hpre Hv)
    as (m3 & e3 & Hm3 & Hcan & Hz & Herr & ->).
  assert (0 <= v)%R as Hv0.
  { destruct Hv as [Hlo _]. pose proof (bpow_gt_0 ex).
    assert (0 <= IZR mx)%R by (apply IZR_le; lia). nra. }
  destruct m3 as [| p | p]; [| | lia].
  - (* zero *)
    split; [reflexivity |]. cbn [B2R ulp].
    rewrite (Hz eq_refl) in Herr. fold emin.
    rewrite Rmult_0_l in Herr.
    destruct s; rewrite Rminus_0_l, Rabs_Ropp in *;
      rewrite ?Ropp_involutive; rewrite ?Rabs_Ropp; exact Herr.
  - specialize (Hcan ltac:(lia)). cbn [Zdigits2] in Hcan.
    destruct (Z.leb_spec e3 (emax - prec)) as [Hle | Hgt].
    + (* finite *)
      split.
      * cbn [valid_binary]. unfold bounded, canonical_mantissa.
        apply andb_true_intro. split; [apply Z.eqb_eq; exact Hcan |].
        apply Z.leb_le; exact Hle.
      * cbn [B2R ulp SpecFloat.cond_Zopp].
        destruct s; cbn [SpecFloat.cond_Zopp]; [| exact Herr].
        rewrite <- Rabs_Ropp. rewrite Pos2Z.opp_pos in *.
        replace (- (IZR (Z.neg p) * bpow e3 - - v))%R
          with (IZR (Zpos p) * bpow e3 - v)%R; [exact Herr |].
        change (Z.neg p) with (- Zpos p). rewrite opp_IZR. ring.
    + (* overflow *)
      split; [reflexivity |].
      assert (canonical_mantissa prec emax p e3 = true) as Hc
          by (apply Z.eqb_eq; exact Hcan).
      assert (emin < e3) as Hee by (unfold emin, SpecFloat.emin; lia).
      pose proof (canonical_normal p e3 Hc Hee) as Hnorm.
      assert (2 ^ (prec - 2) + 1 <= Zpos p) as Hp.
      { replace (prec - 1) with (Z.succ (prec - 2)) in Hnorm by lia.
        rewrite Z.pow_succ_r in Hnorm by lia.
        pose proof (Z.pow_pos_nonneg 2 (prec - 2) ltac:(lia) ltac:(lia)). lia. }
      apply IZR_le in Hp. rewrite plus_IZR, <- bpow_IZR in Hp by lia.
      pose proof (bpow_gt_0 e3) as He3.
      assert (bpow (emax - 1) <= bpow (prec - 2) * bpow e3)%R as Hb
          by (rewrite <- bpow_add; apply bpow_le; lia).
      apply Rabs_le_inv in Herr.
      assert (bpow (emax - 1) <= v)%R by nra.
      destruct s; rewrite ?Rabs_Ropp; rewrite Rabs_pos_eq; lra.
Qed.


(** *** Division *)

Lemma SFdiv_core_binary_correct (m1 m2 : positive) (e1 e2 : Z) :
  let '(q, e', l) := SFdiv_core_binary prec emax (Zpos m1) e1 (Zpos m2) e2 in
  0 <= q /\ e' <= fexp (Zdigits2 q + e')
  /\ inbetween q e' (IZR (Zpos m1) * bpow e1 / (IZR (Zpos m2) * bpow e2)).
Proof.
  unfold SFdiv_core_binary.
  set (d1 := Zdigits2 (Zpos m1)). set (d2 := Zdigits2 (Zpos m2)).
  set (e' := Z.min (SpecFloat.fexp prec emax (d1 + e1 - (d2 + e2))) (e1 - e2)).
  set (s := e1 - e2 - e').
  assert (0 <= s) as Hs by (unfold s, e'; lia).
  set (m' := match s with Z0 => Zpos m1 | Zpos _ => Z.shiftl (Zpos m1) s
                     | Zneg _ => 0 end).
  assert (m' = Zpos m1 * 2 ^ s) as Hm'.
  { unfold m'. destruct s as [| p | p]; [cbn; lia | | lia].
    apply Z.shiftl_mul_pow2. lia. }
  clearbody m'.
  assert (0 < 2 ^ s) as Hps by (apply Z.pow_pos_nonneg; lia).
  pose proof (Z_div_mod m' (Zpos m2) eq_refl) as Hdm.
  destruct (Z.div_eucl m' (Zpos m2)) as [q r]. destruct Hdm as [Hq Hr].
  assert (0 <= q) as Hq0 by nia.
  split; [exact Hq0 |]. split.
  - (* the quotient has enough bits *)
    pose proof (digits2_pos_bounds m1) as [L1 U1]. fold (Zdigits2 (Zpos m1)) in L1, U1.
    pose proof (digits2_pos_bounds m2) as [L2 U2]. fold (Zdigits2 (Zpos m2)) in L2, U2.
    fold d1 in L1, U1. fold d2 in L2, U2.
    assert (0 < d1) as Hd1 by (apply Zdigits2_pos; lia).
    assert (0 < d2) as Hd2 by (apply Zdigits2_pos; lia).
    assert (d1 + s - d2 <= Zdigits2 q) as Hk.
    { destruct (Z.le_gt_cases (d1 + s - d2) 0) as [Hk0 | Hk0].
      - pose proof (Zdigits2_nonneg q). lia.
      - assert (2 ^ (d1 + s - d2 - 1) <= q) as Hlow.
        { assert (2 ^ (d1 + s - d2 - 1) * 2 ^ d2 = 2 ^ (d1 - 1) * 2 ^ s) as Hpw.
          { rewrite <- !Z.pow_add_r by lia. f_equal. lia. }
          assert (0 < 2 ^ (d1 + s - d2 - 1)) by (apply Z.pow_pos_nonneg; lia).
          nia. }
        assert (0 < 2 ^ (d1 + s - d2 - 1)) by (apply Z.pow_pos_nonneg; lia).
        pose proof (Zdigits2_bounds q ltac:(lia)) as [_ Uq].
        pose proof (Zdigits2_nonneg q).
        assert (d1 + s - d2 - 1 < Zdigits2 q)
          by (apply (Z.pow_lt_mono_r_iff 2); lia).
        lia. }
    apply Z.le_trans with (SpecFloat.fexp prec emax (d1 + e1 - (d2 + e2)));
      [unfold e'; lia |].
    apply (fexp_mono prec emax). unfold s in Hk. lia.
  - (* the quotient brackets the exact value *)
    set (v := (IZR (Zpos m1) * bpow e1 / (IZR (Zpos m2) * bpow e2))%R).
    pose proof (bpow_gt_0 e') as He'. pose proof (bpow_gt_0 e2) as He2.
    assert (0 < IZR (Zpos m2))%R as Hm2 by (apply IZR_lt; lia).
    assert (bpow e1 = bpow e' * IZR (2 ^ s) * bpow e2)%R as Hb.
    { rewrite <- bpow_IZR, <- !bpow_add by lia. f_equal. unfold s. lia. }
    assert (IZR (Zpos m1) * IZR (2 ^ s) = IZR (Zpos m2) * IZR q + IZR r)%R as HZ.
    { rewrite <- !mult_IZR, <- plus_IZR. f_equal. lia. }
    assert (v = (IZR q + IZR r / IZR (Zpos m2)) * bpow e')%R as ->.
    { unfold v. rewrite Hb.
      transitivity (IZR (Zpos m1) * IZR (2 ^ s) * bpow e' / IZR (Zpos m2))%R;
        [field; lra |].
      rewrite HZ. field. lra. }
    assert (0 <= IZR r / IZR (Zpos m2) < 1)%R as Hfrac.
    { assert (0 <= IZR r)%R by (apply IZR_le; lia).
      assert (IZR r < IZR (Zpos m2))%R by (apply IZR_lt; lia).
      split.
      - apply Rmult_le_pos; [lra |]. apply Rlt_le, Rinv_0_lt_compat. lra.
      - apply Rmult_lt_reg_r with (IZR (Zpos m2)); [lra |].
        unfold Rdiv. rewrite Rmult_assoc, Rinv_l by lra. lra. }
    unfold inbetween. rewrite plus_IZR. split; nra.
Qed.

Lemma SFdiv_finite_rounded (sx sy : bool) (mx my : positive) (ex ey : Z) :
  rounded prec emax
    (SFdiv prec emax (S754_finite sx mx ex) (S754_finite sy my ey))
    (B2R (S754_finite sx mx ex) / B2R (S754_finite sy my ey)).
Proof.
  cbn [SFdiv].
  pose proof (SFdiv_core_binary_correct mx my ex ey) as Hcore.
  destruct (SFdiv_core_binary prec emax (Zpos mx) ex (Zpos my) ey)
    as [[q e'] l].
  destruct Hcore as (Hq & Hpre & Hv).
  pose proof (binary_round_aux_rounded (xorb sx sy) q e' l _ Hq Hpre Hv) as Hr.
  assert (0 < IZR (Zpos my))%R by (apply IZR_lt; lia).
  pose proof (bpow_gt_0 ey).
  replace (B2R (S754_finite sx mx ex) / B2R (S754_finite sy my ey))%R
    with (if xorb sx sy
          then - (IZR (Zpos mx) * bpow ex / (IZR (Zpos my) * bpow ey))
          else IZR (Zpos mx) * bpow ex / (IZR (Zpos my) * bpow ey))%R;
    [exact Hr |].
  cbn [B2R].
  destruct sx, sy; cbn [xorb SpecFloat.cond_Zopp];
    rewrite ?Pos2Z.opp_pos; change (Z.neg mx) with (- Zpos mx);
    change (Z.neg my) with (- Zpos my); rewrite ?opp_IZR; field; lra.
Qed.

End Operations.

Lemma iter_xO_pow2 (m d : positive) :
  Zpos (Pos.iter xO m d) = Zpos m * 2 ^ Zpos d.
Proof.
  induction d as [| d IH] using Pos.peano_ind.
  - cbn. lia.
  - rewrite Pos.iter_succ, Pos2Z.inj_xO, IH, Pos2Z.inj_succ.
    rewrite Z.pow_succ_r by lia. ring.
Qed.

Lemma shl_align_correct (m : positive) (e e' : Z) :
  snd (shl_align m e e') = Z.min e e'
  /\ Zpos (fst (shl_align m e e')) = Zpos m * 2 ^ (e - Z.min e e').
Proof.
  unfold shl_align. destruct (e' - e) as [| d | d] eqn:Hd; cbn [fst snd].
  - rewrite Z.min_l by lia. rewrite Z.sub_diag. cbn. lia.
  - rewrite Z.min_l by lia. rewrite Z.sub_diag. cbn. lia.
  - rewrite Z.min_r by lia. split; [reflexivity |].
    rewrite iter_xO_pow2. do 2 f_equal. lia.
Qed.

Lemma cond_Zopp_IZR (s : bool) (z : Z) :
  IZR (SpecFloat.cond_Zopp s z) = (if s then - IZR z else IZR z)%R.
Proof. destruct s; cbn [SpecFloat.cond_Zopp]; [apply opp_IZR | reflexivity]. Qed.

Section Sums.

Variables prec emax : Z.
Hypothesis prec_gt_1 : 1 < prec.
Hypothesis emax_ge_2 : 2 <= emax.

Let emin := SpecFloat.emin prec emax.
Let fexp := SpecFloat.fexp prec emax.

(** *** Rounding an exact dyadic number *)

Lemma binary_round_rounded (s : bool) (m : positive) (e : Z) :
  rounded prec emax (binary_round prec emax s m e)
    (IZR (SpecFloat.cond_Zopp s (Zpos m)) * bpow e).
Proof.
  unfold binary_round.
  pose proof (shl_align_correct m e (fexp (Zpos (digits2_pos m) + e)))
    as [Hez Hmz].
  fold fexp.
  destruct (shl_align m e (fexp (Zpos (digits2_pos m) + e))) as [mz ez].
  cbn [fst snd] in Hez, Hmz.
  assert (ez <= e) as Hle by lia.
  assert (0 < 2 ^ (e - ez)) as Hp by (apply Z.pow_pos_nonneg; lia).
  assert (IZR (Zpos mz) * bpow ez = IZR (Zpos m) * bpow e)%R as Hval.
  { rewrite Hmz, <- Hez, mult_IZR, <- bpow_IZR by lia.
    rewrite Rmult_assoc, <- bpow_add. do 2 f_equal. lia. }
  assert (rounded prec emax
            (binary_round_aux prec emax s (Zpos mz) ez loc_Exact)
            (if s then - (IZR (Zpos m) * bpow e) else IZR (Zpos m) * bpow e)%R)
    as Hr.
  { apply binary_round_aux_rounded; try assumption; [lia | |].
    - rewrite Hmz, <- Hez, Zdigits2_mul_pow2 by lia.
      replace (Zdigits2 (Zpos m) + (e - ez) + ez) with (Zdigits2 (Zpos m) + e)
        by lia.
      cbn [Zdigits2]. fold fexp. lia.
    - unfold inbetween. rewrite plus_IZR, <- Hval.
      pose proof (bpow_gt_0 ez). split; nra. }
  rewrite cond_Zopp_IZR.
  destruct s; [| exact Hr].
  replace (- IZR (Zpos m) * bpow e)%R with (- (IZR (Zpos m) * bpow e))%R by ring.
  exact Hr.
Qed.

Lemma binary_normalize_rounded (z e : Z) (szero : bool) :
  rounded prec emax (binary_normalize prec emax z e szero) (IZR z * bpow e).
Proof.
  destruct z as [| p | p]; cbn [binary_normalize].
  - split; [reflexivity |]. cbn [B2R ulp].
    rewrite Rmult_0_l, Rminus_0_r, Rabs_R0. apply Rlt_le, bpow_gt_0.
  - apply (binary_round_rounded false).
  - apply (binary_round_rounded true).
Qed.

Lemma aligned_value (s : bool) (m : positive) (e ez : Z) :
  ez <= e ->
  (IZR (SpecFloat.cond_Zopp s (Zpos (fst (shl_align m e ez)))) * bpow ez
   = B2R (S754_finite s m e))%R.
Proof.
  intros Hle. destruct (shl_align_correct m e ez) as [_ Hmz].
  rewrite Z.min_r in Hmz by lia.
  assert (0 < 2 ^ (e - ez)) as Hp by (apply Z.pow_pos_nonneg; lia).
  cbn [B2R]. rewrite !cond_Zopp_IZR, Hmz, mult_IZR, <- bpow_IZR by lia.
  replace (bpow e) with (bpow (e - ez) * bpow ez)%R
    by (rewrite <- bpow_add; f_equal; lia).
  destruct s; ring.
Qed.

(** *** Addition and subtraction of finite numbers *)

Lemma SFadd_finite_rounded (sx sy : bool) (mx my : positive) (ex ey : Z) :
  rounded prec emax
    (SFadd prec emax (S754_finite sx mx ex) (S754_finite sy my ey))
    (B2R (S754_finite sx mx ex) + B2R (S754_finite sy my ey)).
Proof.
  cbn [SFadd].
  rewrite <- (aligned_value sx mx ex (Z.min ex ey)) by lia.
  rewrite <- (aligned_value sy my ey (Z.min ex ey)) by lia.
  rewrite <- Rmult_plus_distr_r, <- plus_IZR.
  apply binary_normalize_rounded.
Qed.

Lemma SFsub_finite_rounded (sx sy : bool) (mx my : positive) (ex ey : Z) :
  rounded prec emax
    (SFsub prec emax (S754_finite sx mx ex) (S754_finite sy my ey))
    (B2R (S754_finite sx mx ex) - B2R (S754_finite sy my ey)).
Proof.
  cbn [SFsub].
  rewrite <- (aligned_value sx mx ex (Z.min ex ey)) by lia.
  rewrite <- (aligned_value sy my ey (Z.min ex ey)) by lia.
  rewrite <- Rmult_minus_distr_r, <- minus_IZR.
  apply binary_normalize_rounded.
Qed.

End Sums.

(** ** binary32 values *)

Lemma prec32_gt_1 : 1 < F32.prec.
Proof. reflexivity. Qed.

Lemma emax32_ge_2 : 2 <= F32.emax.
Proof. discriminate. Qed.

Lemma fin_zero (s : bool) : fin (S754_zero s).
Proof. split; reflexivity. Qed.

Lemma rounded32_exact (x : float) : fin x -> rounded32 x (value x).
Proof.
  intros [Hv Hf]. split; [exact Hv |].
  destruct x as [s | s | | s m e]; try discriminate Hf;
    unfold value; rewrite Rminus_diag, Rabs_R0; apply Rlt_le, bpow_gt_0.
Qed.

Lemma add_rounded (x y : float) :
  fin x -> fin y -> rounded32 (F32.add x y) (value x + value y).
Proof.
  intros Hx Hy.
  destruct x as [sx | sx | | sx mx ex]; try (destruct Hx; discriminate);
    destruct y as [sy | sy | | sy my ey]; try (destruct Hy; discriminate).
  - replace (value (S754_zero sx) + value (S754_zero sy))%R
      with (value (F32.add (S754_zero sx) (S754_zero sy)))
      by (destruct sx, sy; unfold value; cbn [B2R F32.add F32.sub SFadd SFsub]; lra).
    apply rounded32_exact. destruct sx, sy; apply fin_zero.
  - replace (value (S754_zero sx) + value (S754_finite sy my ey))%R
      with (value (S754_finite sy my ey)) by (unfold value; cbn [B2R]; lra).
    apply rounded32_exact, Hy.
  - replace (value (S754_finite sx mx ex) + value (S754_zero sy))%R
      with (value (S754_finite sx mx ex)) by (unfold value; cbn [B2R]; lra).
    apply rounded32_exact, Hx.
  - apply SFadd_finite_rounded; [exact prec32_gt_1 | exact emax32_ge_2].
Qed.

Lemma sub_rounded (x y : float) :
  fin x -> fin y -> rounded32 (F32.sub x y) (value x - value y).
Proof.
  intros Hx Hy.
  destruct x as [sx | sx | | sx mx ex]; try (destruct Hx; discriminate);
    destruct y as [sy | sy | | sy my ey]; try (destruct Hy; discriminate).
  - replace (value (S754_zero sx) - value (S754_zero sy))%R
      with (value (F32.sub (S754_zero sx) (S754_zero sy)))
      by (destruct sx, sy; unfold value; cbn [B2R F32.add F32.sub SFadd SFsub]; lra).
    apply rounded32_exact. destruct sx, sy; apply fin_zero.
  - replace (value (S754_zero sx) - value (S754_finite sy my ey))%R
      with (value (S754_finite (negb sy) my ey)).
    + apply rounded32_exact. exact Hy.
    + unfold value. cbn [B2R]. rewrite !cond_Zopp_IZR. destruct sy; cbn; lra.
  - replace (value (S754_finite sx mx ex) - value (S754_zero sy))%R
      with (value (S754_finite sx mx ex)) by (unfold value; cbn [B2R]; lra).
    apply rounded32_exact, Hx.
  - apply SFsub_finite_rounded; [exact prec32_gt_1 | exact emax32_ge_2].
Qed.

Lemma div_rounded (x y : float) (sy : bool) (my : positive) (ey : Z) :
  fin x -> y = S754_finite sy my ey ->
  rounded32 (F32.div x y) (value x / value y).
Proof.
  intros Hx ->.
  destruct x as [sx | sx | | sx mx ex]; try (destruct Hx; discriminate).
  - split; [reflexivity |]. cbn [F32.div SFdiv B2R ulp value].
    unfold value. cbn [B2R]. unfold Rdiv.
    rewrite Rmult_0_l, Rminus_diag, Rabs_R0. apply Rlt_le, bpow_gt_0.
  - apply SFdiv_finite_rounded; [exact prec32_gt_1 | exact emax32_ge_2].
Qed.

(** What a rounded result is when the exact value is in range. *)
Lemma rounded32_fin (r : float) (v : R) :
  rounded32 r v -> (Rabs v < bpow 127)%R ->
  fin r /\ (Rabs (value r - v) <= ulp32 r)%R.
Proof.
  intros [Hv Hr] Hrange.
  destruct r as [s | s | | s m e]; try contradiction.
  - split; [apply fin_zero | exact Hr].
  - change (F32.emax - 1) with 127 in Hr. lra.
  - split; [split; [exact Hv | reflexivity] | exact Hr].
Qed.

Lemma fin_canonical (s : bool) (m : positive) (e : Z) :
  fin (S754_finite s m e) ->
  canonical_mantissa F32.prec F32.emax m e = true /\ -149 <= e <= 104.
Proof.
  intros [Hv _]. unfold F32.valid in Hv. cbn [valid_binary] in Hv.
  unfold bounded in Hv. apply andb_prop in Hv as [Hc He].
  split; [exact Hc |]. apply Z.leb_le in He.
  unfold canonical_mantissa in Hc. apply Z.eqb_eq in Hc.
  unfold SpecFloat.fexp, SpecFloat.emin, F32.prec, F32.emax in *. lia.
Qed.

(** The unit in the last place is at most [2^-23] of the magnitude,
    except in the subnormal range, where it is [2^-149]. *)
Lemma ulp32_bound (r : float) :
  fin r ->
  (ulp32 r <= bpow (-23) * Rabs (value r))%R \/ ulp32 r = bpow (-149).
Proof.
  intros Hr. destruct r as [s | s | | s m e]; try (destruct Hr; discriminate).
  - right. reflexivity.
  - destruct (fin_canonical s m e Hr) as [Hc He].
    destruct (Z.eq_dec e (-149)) as [-> | Hne]; [right; reflexivity |].
    left.
    pose proof (canonical_normal F32.prec F32.emax prec32_gt_1 m e Hc) as Hn.
    change (2 ^ (F32.prec - 1)) with 8388608 in Hn.
    change (SpecFloat.emin F32.prec F32.emax) with (-149) in Hn.
    specialize (Hn ltac:(lia)).
    unfold ulp32, value. cbn [ulp B2R]. rewrite cond_Zopp_IZR.
    assert (Rabs (if s then - IZR (Zpos m) else IZR (Zpos m)) = IZR (Zpos m))
      as Habs.
    { assert (0 < IZR (Zpos m))%R by (apply IZR_lt; lia).
      destruct s; [rewrite Rabs_Ropp |]; apply Rabs_pos_eq; lra. }
    rewrite Rabs_mult, Habs, (Rabs_pos_eq (bpow e)) by (apply Rlt_le, bpow_gt_0).
    pose proof (bpow_gt_0 e).
    assert (bpow (-23) * IZR 8388608 = 1)%R as H23.
    { change 8388608 with (2 ^ 23). rewrite <- bpow_IZR, <- bpow_add by lia.
      reflexivity. }
    apply IZR_le in Hn. nra.
Qed.

Lemma ulp32_pos (r : float) : (0 < ulp32 r)%R.
Proof. destruct r; apply bpow_gt_0. Qed.

(** ** Comparison and the order of the reals *)

Lemma canonical_lt (m1 m2 : positive) (e1 e2 : Z) :
  fin (S754_finite false m1 e1) -> fin (S754_finite false m2 e2) ->
  e1 < e2 -> (IZR (Zpos m1) * bpow e1 < IZR (Zpos m2) * bpow e2)%R.
Proof.
  intros H1 H2 Hlt.
  destruct (fin_canonical _ _ _ H1) as [C1 E1].
  destruct (fin_canonical _ _ _ H2) as [C2 E2].
  pose proof (canonical_bounded F32.prec F32.emax m1 e1 C1) as B1.
  pose proof (canonical_normal F32.prec F32.emax prec32_gt_1 m2 e2 C2) as N2.
  change (SpecFloat.emin F32.prec F32.emax) with (-149) in N2.
  specialize (N2 ltac:(lia)).
  change (2 ^ F32.prec) with (2 * 2 ^ 23) in B1.
  change (2 ^ (F32.prec - 1)) with (2 ^ 23) in N2.
  apply IZR_lt in B1. apply IZR_le in N2. rewrite mult_IZR in B1.
  pose proof (bpow_gt_0 e1).
  assert (2 * bpow e1 <= bpow e2)%R.
  { rewrite <- bpow_1, <- bpow_add. apply bpow_le. lia. }
  assert (0 < IZR (2 ^ 23))%R by (apply IZR_lt; lia).
  apply Rlt_le_trans with (2 * IZR (2 ^ 23) * bpow e1)%R; [nra |].
  apply Rle_trans with (IZR (2 ^ 23) * bpow e2)%R; nra.
Qed.

Lemma fin_opp (s : bool) (m : positive) (e : Z) :
  fin (S754_finite s m e) -> fin (S754_finite false m e).
Proof. intros [Hv Hf]. split; [exact Hv | reflexivity]. Qed.

Lemma compare_correct (x y : float) :
  fin x -> fin y ->
  match lex3 (key x) (key y) with
  | Lt => (value x < value y)%R
  | Eq => value x = value y
  | Gt => (value y < value x)%R
  end.
Proof.
  intros Hx Hy.
  destruct x as [sx | sx | | sx mx ex]; try (destruct Hx; discriminate);
    destruct y as [sy | sy | | sy my ey]; try (destruct Hy; discriminate).
  - reflexivity.
  - pose proof (bpow_gt_0 ey). assert (0 < IZR (Zpos my))%R by (apply IZR_lt; lia).
    unfold value. destruct sy; cbn; change (Z.neg my) with (- Zpos my);
      rewrite ?opp_IZR; nra.
  - pose proof (bpow_gt_0 ex). assert (0 < IZR (Zpos mx))%R by (apply IZR_lt; lia).
    unfold value. destruct sx; cbn; change (Z.neg mx) with (- Zpos mx);
      rewrite ?opp_IZR; nra.
  - pose proof (bpow_gt_0 ex). pose proof (bpow_gt_0 ey).
    assert (0 < IZR (Zpos mx))%R by (apply IZR_lt; lia).
    assert (0 < IZR (Zpos my))%R by (apply IZR_lt; lia).
    pose proof (canonical_lt mx my ex ey (fin_opp _ _ _ Hx) (fin_opp _ _ _ Hy))
      as Hxy.
    pose proof (canonical_lt my mx ey ex (fin_opp _ _ _ Hy) (fin_opp _ _ _ Hx))
      as Hyx.
    unfold value, lex3.
    destruct sx, sy; cbn [key fst snd B2R SpecFloat.cond_Zopp Z.opp];
      change (Z.neg mx) with (- Zpos mx); change (Z.neg my) with (- Zpos my);
      rewrite ?opp_IZR.
    + (* both negative *)
      change (-1 ?= -1) with Eq. cbv iota.
      rewrite Z.compare_opp.
      destruct (Z.compare_spec ey ex) as [He | He | He].
      * subst. change (- Zpos mx ?= - Zpos my) with (CompOpp (Zpos mx ?= Zpos my)).
        destruct (Z.compare_spec (Zpos mx) (Zpos my)) as [Hm | Hm | Hm];
          cbn [CompOpp].
        -- rewrite Hm. reflexivity.
        -- apply IZR_lt in Hm. nra.
        -- apply IZR_lt in Hm. nra.
      * specialize (Hyx He). nra.
      * specialize (Hxy He). nra.
    + change (-1 ?= 1) with Lt. cbv iota. nra.
    + change (1 ?= -1) with Gt. cbv iota. nra.
    + change (1 ?= 1) with Eq. cbv iota.
      destruct (Z.compare_spec ex ey) as [He | He | He].
      * subst.
        destruct (Z.compare_spec (Zpos mx) (Zpos my)) as [Hm | Hm | Hm].
        -- rewrite Hm. reflexivity.
        -- apply IZR_lt in Hm. nra.
        -- apply IZR_lt in Hm. nra.
      * exact (Hxy He).
      * exact (Hyx He).
Qed.

Lemma fin_number (x : float) : fin x -> number x.
Proof. intros [_ Hf]. destruct x; try discriminate Hf; reflexivity. Qed.

Lemma F32_ltb_value (x y : float) :
  fin x -> fin y -> (F32.ltb x y = true <-> (value x < value y)%R).
Proof.
  intros Hx Hy. pose proof (compare_correct x y Hx Hy) as Hc.
  unfold F32.ltb, SFltb.
  rewrite SFcompare_key by (apply fin_number; assumption).
  destruct (lex3 (key x) (key y)); split; intros H; try discriminate;
    try reflexivity; lra.
Qed.

Lemma F32_leb_value (x y : float) :
  fin x -> fin y -> (F32.leb x y = true <-> (value x <= value y)%R).
Proof.
  intros Hx Hy. pose proof (compare_correct x y Hx Hy) as Hc.
  unfold F32.leb, SFleb.
  rewrite SFcompare_key by (apply fin_number; assumption).
  destruct (lex3 (key x) (key y)); split; intros H; try discriminate;
    try reflexivity; lra.
Qed.

(** ** The error budget, over the reals *)

Lemma roundtrip_budget (rho r kappa izp zp u w q : R) :
  (0 <= rho <= kappa)%R -> (- rho <= r <= kappa - rho)%R ->
  (kappa <= 255 + / 1000)%R ->
  near izp rho -> clamp_round zp izp ->
  near u r -> near w (u + zp) -> clamp_round q w ->
  (Rabs (q - zp - r) <= 1)%R.
Proof.
  unfold near, clamp_round.
  intros Hrho Hr Hk Hizp Hzp Hu Hw Hq.
  apply Rabs_le_inv in Hizp, Hu, Hw.
  apply Rabs_le.
  assert (forall a, exists b, Rabs a = b /\ (0 <= b)%R
                   /\ ((b = a /\ 0 <= a) \/ (b = - a /\ a <= 0))%R) as Habs.
  { intros a. exists (Rabs a). split; [reflexivity |]. split; [apply Rabs_pos |].
    unfold Rabs. destruct (Rcase_abs a); [right | left]; lra. }
  destruct (Habs izp) as (ai & Ei & Hai & Ci). rewrite Ei in Hizp.
  destruct (Habs u) as (au & Eu & Hau & Cu). rewrite Eu in Hu.
  destruct (Habs w) as (aw & Ew & Haw & Cw). rewrite Ew in Hw.
  clear Habs Ei Eu Ew.
  destruct Hzp as [[Hz1 Hz2] | [[Hz1 Hz2] | [Hz1 Hz2]]];
    destruct Hq as [[Hq1 Hq2] | [[Hq1 Hq2] | [Hq1 Hq2]]];
    try apply Rabs_le_inv in Hz2; try apply Rabs_le_inv in Hq2;
    destruct Ci as [[-> Ci] | [-> Ci]];
    destruct Cu as [[-> Cu] | [-> Cu]];
    destruct Cw as [[-> Cw] | [-> Cw]];
    lra.
Qed.

(** ** Values of the constants *)

Lemma bpow_neg_23 : bpow (-23) = (/ 8388608)%R.
Proof.
  change (-23) with (- (23)). rewrite bpow_opp, bpow_IZR by lia. reflexivity.
Qed.

Lemma value_dyadic (n : Z) (m : positive) (e : Z) :
  e <= 0 -> Zpos m = n * 2 ^ (- e) ->
  value (S754_finite false m e) = IZR n.
Proof.
  intros He Hm. unfold value. cbn [B2R SpecFloat.cond_Zopp].
  rewrite Hm, mult_IZR, <- bpow_IZR by lia.
  rewrite Rmult_assoc, <- bpow_add.
  replace (- e + e) with 0 by lia. rewrite bpow_0. ring.
Qed.

Lemma value_255 : value (F32.of_Z 255) = 255%R.
Proof.
  change (F32.of_Z 255) with (S754_finite false 16711680 (-16)).
  apply (value_dyadic 255); [lia | reflexivity].
Qed.

Lemma fin_255 : fin (F32.of_Z 255).
Proof. split; reflexivity. Qed.

Lemma fin_FLT_MIN : fin FLT_MIN.
Proof. split; reflexivity. Qed.

Lemma value_FLT_MIN : value FLT_MIN = bpow (-126).
Proof.
  unfold value, FLT_MIN. cbn [B2R SpecFloat.cond_Zopp].
  change 8388608 with (2 ^ 23). rewrite <- bpow_IZR, <- bpow_add by lia.
  reflexivity.
Qed.

Lemma of_Z_uint8 (z : Z) :
  0 <= z <= 255 -> fin (F32.of_Z z) /\ value (F32.of_Z z) = IZR z.
Proof.
  intros Hz.
  assert (of_Z_table = true) as Htab by (vm_compute; reflexivity).
  unfold of_Z_table in Htab. rewrite forallb_forall in Htab.
  specialize (Htab (Z.to_nat z)). rewrite Z2Nat.id in Htab by lia.
  assert (In (Z.to_nat z) (seq 0 256)) as Hin by (apply in_seq; lia).
  apply Htab in Hin.
  destruct (F32.of_Z z) as [s | s | | [] m e]; try discriminate Hin.
  - apply Z.eqb_eq in Hin. subst z. split; [apply fin_zero | reflexivity].
  - apply andb_prop in Hin as [Hin Hv]. apply andb_prop in Hin as [He Hm].
    apply Z.leb_le in He. apply Z.eqb_eq in Hm.
    split; [split; [exact Hv | reflexivity] |].
    apply value_dyadic; assumption.
Qed.

(** ** Units in the last place *)

Lemma ulp32_le (r : float) :
  fin r -> (ulp32 r <= / 8388608 * Rabs (value r) + / 8388608)%R.
Proof.
  intros Hr. rewrite <- bpow_neg_23.
  pose proof (Rabs_pos (value r)). pose proof (bpow_gt_0 (-23)).
  destruct (ulp32_bound r Hr) as [Hb | ->].
  - nra.
  - pose proof (bpow_le (-149) (-23) ltac:(lia)). nra.
Qed.

Lemma ulp32_normal (r : float) :
  fin r -> (bpow (-126) <= Rabs (value r))%R ->
  (ulp32 r <= / 8388608 * Rabs (value r))%R.
Proof.
  intros Hr Hn. rewrite <- bpow_neg_23.
  destruct (ulp32_bound r Hr) as [Hb | ->]; [exact Hb |].
  replace (bpow (-149)) with (bpow (-23) * bpow (-126))%R
    by (rewrite <- bpow_add; reflexivity).
  apply Rmult_le_compat_l; [apply Rlt_le, bpow_gt_0 | exact Hn].
Qed.

Lemma rounded32_near (r : float) (v : R) :
  rounded32 r v -> (Rabs v < bpow 127)%R -> fin r /\ near (value r) v.
Proof.
  intros Hr Hv. destruct (rounded32_fin r v Hr Hv) as [Hf He].
  split; [exact Hf |]. unfold near.
  eapply Rle_trans; [exact He | apply ulp32_le, Hf].
Qed.

(** ** Clamping and rounding, on values *)

Lemma rounds_half_even_real (c : float) (n : Z) :
  clamped c -> rounds_half_even c n ->
  (Rabs (IZR n - value c) <= / 2)%R.
Proof.
  intros [Hz | (m & e & -> & He & Hm)] Hn.
  - destruct c; try contradiction. cbn in Hn. subst n.
    unfold value. cbn [B2R]. rewrite Rminus_diag, Rabs_R0. lra.
  - unfold rounds_half_even in Hn.
    destruct (Z.leb_spec 0 e); [lia |].
    destruct Hn as [Hn _]. cbn [SpecFloat.cond_Zopp] in Hn.
    assert (0 < 2 ^ (- e)) as Hd by (apply Z.pow_pos_nonneg; lia).
    unfold value. cbn [B2R SpecFloat.cond_Zopp].
    replace (bpow e) with (/ IZR (2 ^ (- e)))%R
      by (rewrite <- bpow_IZR, <- bpow_opp by lia; f_equal; lia).
    assert (0 < IZR (2 ^ (- e)))%R as Hd' by (apply IZR_lt; exact Hd).
    replace (IZR n - IZR (Zpos m) * / IZR (2 ^ (- e)))%R
      with (IZR (n * 2 ^ (- e) - Zpos m) * / IZR (2 ^ (- e)))%R
      by (rewrite minus_IZR, mult_IZR; field; lra).
    rewrite Rabs_mult, (Rabs_pos_eq (/ _)) by (apply Rlt_le, Rinv_0_lt_compat; lra).
    rewrite <- abs_IZR.
    apply Rmult_le_reg_r with (IZR (2 ^ (- e))); [exact Hd' |].
    rewrite Rmult_assoc, Rinv_l by lra.
    apply IZR_le in Hn. rewrite mult_IZR in Hn. lra.
Qed.

Lemma fin_bounded (v : float) : fin v -> bounded_mantissa F32.prec v.
Proof.
  intros Hv. destruct v as [s | s | | s m e]; try exact I.
  destruct (fin_canonical s m e Hv) as [Hc _].
  exact (canonical_bounded F32.prec F32.emax m e Hc).
Qed.

Lemma quantize_clamp_round (v : float) :
  fin v ->
  let z := static_cast uint8_t
             (RoundHalfToEven (clamp (F32.of_Z 0) (F32.of_Z 255) v)) in
  0 <= z <= 255 /\ clamp_round (IZR z) (value v).
Proof.
  intros Hv. cbv zeta.
  pose proof (clamp_clamped v (fin_bounded v Hv)) as Hc.
  pose proof (RoundHalfToEven_clamped _ Hc) as [Hr Hz].
  split; [exact Hz |].
  revert Hc Hr. unfold clamp, std_max, std_min.
  pose proof (F32_ltb_value v (F32.of_Z 255) Hv fin_255) as H255.
  rewrite value_255 in H255.
  destruct (F32.ltb v (F32.of_Z 255)) eqn:Hlt.
  - pose proof (F32_ltb_value (F32.of_Z 0) v (fin_zero false) Hv) as H0.
    change (value (F32.of_Z 0)) with 0%R in H0.
    destruct (F32.ltb (F32.of_Z 0) v) eqn:Hgt.
    + intros Hc Hr. right. left.
      split; [split; [apply H0 | apply H255]; reflexivity |].
      apply rounds_half_even_real; assumption.
    + intros _ _. left. split; [| reflexivity].
      destruct (Rle_or_lt (value v) 0) as [Hle | Hpos]; [exact Hle |].
      apply H0 in Hpos. discriminate.
  - intros _ _. right. right. split; [| reflexivity].
    destruct (Rle_or_lt 255 (value v)) as [Hle | Hsmall]; [exact Hle |].
    apply H255 in Hsmall. discriminate.
Qed.

(** ** The derived range, on values *)

Lemma fold_min_value (x0 : float) (rest : list float) :
  Forall fin (x0 :: rest) ->
  fin (fold_left std_min rest x0)
  /\ Forall (fun x => (value (fold_left std_min rest x0) <= value x)%R)
       (x0 :: rest).
Proof.
  intros Hfin.
  assert (fin (fold_left std_min rest x0)) as Hm.
  { rewrite Forall_forall in Hfin. apply Hfin.
    apply fold_left_In, std_min_cases. }
  split; [exact Hm |].
  assert (Forall number (x0 :: rest)) as Hnum
      by (apply (Forall_impl _ fin_number), Hfin).
  pose proof (fold_left_std_min_lower rest x0 Hnum) as Hlow.
  rewrite Forall_forall in *. intros x Hx.
  apply F32_leb_value; auto.
Qed.

Lemma fold_max_value (x0 : float) (rest : list float) :
  Forall fin (x0 :: rest) ->
  fin (fold_left std_max rest x0)
  /\ Forall (fun x => (value x <= value (fold_left std_max rest x0))%R)
       (x0 :: rest).
Proof.
  intros Hfin.
  assert (fin (fold_left std_max rest x0)) as Hm.
  { rewrite Forall_forall in Hfin. apply Hfin.
    apply fold_left_In, std_max_cases. }
  split; [exact Hm |].
  assert (Forall number (x0 :: rest)) as Hnum
      by (apply (Forall_impl _ fin_number), Hfin).
  pose proof (fold_left_std_max_upper rest x0 Hnum) as Hup.
  rewrite Forall_forall in *. intros x Hx.
  apply F32_leb_value; auto.
Qed.

Lemma range_min_value (m : float) :
  fin m ->
  fin (range_min m)
  /\ (value (range_min m) <= 0)%R /\ (value (range_min m) <= value m)%R.
Proof.
  intros Hm. unfold range_min, std_min.
  pose proof (F32_ltb_value (S754_zero false) m (fin_zero false) Hm) as H0.
  change (value (S754_zero false)) with 0%R in H0.
  destruct (F32.ltb (S754_zero false) m).
  - split; [apply fin_zero |]. change (value (S754_zero false)) with 0%R.
    assert (0 < value m)%R by (apply H0; reflexivity). lra.
  - split; [exact Hm |].
    destruct (Rle_or_lt (value m) 0) as [Hle | Hpos]; [lra |].
    apply H0 in Hpos. discriminate.
Qed.

Lemma range_max_value (m : float) :
  fin m ->
  fin (range_max m)
  /\ (0 <= value (range_max m))%R /\ (value m <= value (range_max m))%R.
Proof.
  intros Hm. unfold range_max, std_max.
  pose proof (F32_ltb_value m (S754_zero false) Hm (fin_zero false)) as H0.
  change (value (S754_zero false)) with 0%R in H0.
  destruct (F32.ltb m (S754_zero false)).
  - split; [apply fin_zero |]. change (value (S754_zero false)) with 0%R.
    assert (value m < 0)%R by (apply H0; reflexivity). lra.
  - split; [exact Hm |].
    destruct (Rle_or_lt 0 (value m)) as [Hle | Hneg]; [lra |].
    apply H0 in Hneg. discriminate.
Qed.

Lemma derived_range (x0 : float) (rest : list float) :
  Forall fin (x0 :: rest) ->
  fin (derived_min x0 rest) /\ fin (derived_max x0 rest)
  /\ (value (derived_min x0 rest) <= 0 <= value (derived_max x0 rest))%R
  /\ Forall (fun x => (value (derived_min x0 rest) <= value x
                       <= value (derived_max x0 rest))%R) (x0 :: rest).
Proof.
  intros Hfin.
  destruct (fold_min_value x0 rest Hfin) as [Fmin Lmin].
  destruct (fold_max_value x0 rest Hfin) as [Fmax Lmax].
  destruct (range_min_value _ Fmin) as (F1 & Z1 & B1).
  destruct (range_max_value _ Fmax) as (F2 & Z2 & B2).
  unfold derived_min, derived_max.
  split; [exact F1 |]. split; [exact F2 |]. split; [lra |].
  rewrite Forall_forall in *. intros x Hx.
  specialize (Lmin x Hx). specialize (Lmax x Hx). lra.
Qed.

(** ** The scale, when it is a normal number *)

Lemma scale_normal (mn mx : float) :
  fin mn -> fin mx -> (value mn <= 0 <= value mx)%R ->
  F32.is_finite (compute_scale uint8_t mn mx) = true ->
  F32.leb FLT_MIN (compute_scale uint8_t mn mx) = true ->
  fin (compute_scale uint8_t mn mx)
  /\ (exists s m e, compute_scale uint8_t mn mx = S754_finite s m e)
  /\ (bpow (-126) <= value (compute_scale uint8_t mn mx))%R
  /\ (value mx - value mn
      <= (255 + / 1000) * value (compute_scale uint8_t mn mx))%R.
Proof.
  intros Hmn Hmx Hsign. unfold compute_scale. rewrite uint8_range_width.
  pose proof (sub_rounded mx mn Hmx Hmn) as Hd.
  destruct (F32.sub mx mn) as [sd | sd | | sd md ed] eqn:Ed;
    try (intros Hf; discriminate Hf); try (intros _ Hl; discriminate Hl).
  intros Hf Hl.
  pose proof (div_rounded (S754_finite sd md ed) (F32.of_Z 255)
                false 16711680 (-16)) as Hs.
  assert (fin (S754_finite sd md ed)) as Fd
      by (split; [apply Hd | reflexivity]).
  specialize (Hs Fd eq_refl). rewrite value_255 in Hs.
  set (s := F32.div (S754_finite sd md ed) (F32.of_Z 255)) in *.
  assert (fin s) as Fs by (split; [apply Hs | exact Hf]).
  split; [exact Fs |].
  pose proof (F32_leb_value FLT_MIN s fin_FLT_MIN Fs) as Hle.
  rewrite value_FLT_MIN in Hle. apply Hle in Hl.
  pose proof (bpow_gt_0 (-126)) as H126.
  split.
  { destruct s as [ss | ss | | ss ms es]; try discriminate Hf.
    - unfold value in Hl. cbn [B2R] in Hl. lra.
    - eauto. }
  split; [exact Hl |].
  (* error of the division *)
  assert (Rabs (value s - value (S754_finite sd md ed) / 255)
          <= / 8388608 * value s)%R as Es.
  { destruct Hs as [_ Hs].
    assert (Rabs (value s - value (S754_finite sd md ed) / 255) <= ulp32 s)%R
      as Hu by (destruct s; try discriminate Hf; exact Hs).
    eapply Rle_trans; [exact Hu |].
    rewrite <- (Rabs_pos_eq (value s)) at 1 by lra.
    apply ulp32_normal; [exact Fs |]. rewrite Rabs_pos_eq; lra. }
  apply Rabs_le_inv in Es.
  set (d := value (S754_finite sd md ed)) in *.
  assert (bpow (-126) <= d)%R as Hdn by lra.
  (* error of the subtraction *)
  assert (Rabs (d - (value mx - value mn)) <= / 8388608 * d)%R as Ed'.
  { destruct Hd as [_ Hd].
    eapply Rle_trans; [exact Hd |].
    rewrite <- (Rabs_pos_eq d) at 1 by lra.
    apply ulp32_normal; [exact Fd |]. fold d. rewrite Rabs_pos_eq; lra. }
  apply Rabs_le_inv in Ed'.
  nra.
Qed.

(** ** The quantization error *)

Lemma bpow_127_large : (1000 <= bpow 127)%R.
Proof.
  apply Rle_trans with (bpow 10); [| apply bpow_le; lia].
  rewrite bpow_IZR by lia. apply IZR_le. cbn. lia.
Qed.

Lemma near_bounded (a b k : R) :
  near a b -> (Rabs b <= k)%R -> (Rabs a <= 2 * k + 1)%R.
Proof.
  unfold near. intros Hn Hb.
  apply Rabs_le_inv in Hn, Hb.
  assert (Rabs a = a \/ Rabs a = - a)%R as [Ha | Ha]
      by (unfold Rabs; destruct (Rcase_abs a); auto);
    rewrite Ha in *; lra.
Qed.

(** Dividing an input element by a normal scale. *)
Lemma div_by_scale (x scale : float) :
  fin x -> fin scale ->
  (exists s m e, scale = S754_finite s m e) ->
  (0 < value scale)%R -> (Rabs (value x) <= 256 * value scale)%R ->
  fin (F32.div x scale)
  /\ near (value (F32.div x scale)) (value x / value scale)
  /\ (Rabs (value x / value scale) <= 256)%R.
Proof.
  intros Hx Hs (s & m & e & Es) Hpos Hb.
  assert (Rabs (value x / value scale) <= 256)%R as Hq.
  { unfold Rdiv. rewrite Rabs_mult, Rabs_inv, (Rabs_pos_eq (value scale)) by lra.
    apply Rmult_le_reg_r with (value scale); [exact Hpos |].
    rewrite Rmult_assoc, Rinv_l by lra. lra. }
  pose proof (div_rounded x scale s m e Hx Es) as Hr.
  pose proof bpow_127_large.
  destruct (rounded32_near _ _ Hr ltac:(lra)) as [Hf Hn].
  repeat split; try assumption; apply Hf.
Qed.

Lemma initial_zero_point_value (mn scale : float) :
  fin (F32.div mn scale) ->
  fin (initial_zero_point uint8_t mn scale)
  /\ value (initial_zero_point uint8_t mn scale)
     = (- value (F32.div mn scale))%R.
Proof.
  unfold initial_zero_point. change (qmin uint8_t) with (S754_zero false).
  intros Ht.
  destruct (F32.div mn scale) as [s | s | | s m e];
    try (destruct Ht; discriminate).
  - destruct s; split; try apply fin_zero; unfold value; cbn [F32.sub SFsub B2R]; lra.
  - split; [exact Ht |].
    unfold value. cbn [F32.sub SFsub B2R]. rewrite !cond_Zopp_IZR.
    destruct s; cbn [negb]; lra.
Qed.

(** For every element of a finite input whose derived scale is a normal
    number, the dequantized value is within one scale of the element. *)
Lemma roundtrip_bound (x0 : float) (rest : list float) (x : float) :
  Forall fin (x0 :: rest) -> In x (x0 :: rest) ->
  F32.is_finite (derived_scale uint8_t x0 rest) = true ->
  F32.leb FLT_MIN (derived_scale uint8_t x0 rest) = true ->
  (Rabs ((IZR (quantize_one uint8_t (derived_scale uint8_t x0 rest)
                 (derived_zero_point uint8_t x0 rest) x)
          - IZR (derived_zero_point uint8_t x0 rest))
         * value (derived_scale uint8_t x0 rest) - value x)
   <= value (derived_scale uint8_t x0 rest))%R.
Proof.
  intros Hfin Hx Hfs Hls.
  destruct (derived_range x0 rest Hfin) as (Fmn & Fmx & Hsign & Hall).
  rewrite Forall_forall in Hall, Hfin.
  pose proof (Hall x Hx) as Hxr. pose proof (Hfin x Hx) as Fx.
  unfold derived_zero_point, derived_scale in *.
  set (mn := derived_min x0 rest) in *. set (mx := derived_max x0 rest) in *.
  destruct (scale_normal mn mx Fmn Fmx Hsign Hfs Hls)
    as (Fs & Ess & Hnorm & Hwidth).
  set (scale := compute_scale uint8_t mn mx) in *.
  pose proof (bpow_gt_0 (-126)) as H126.
  assert (0 < value scale)%R as Hpos by lra.
  (* the zero point *)
  destruct (div_by_scale mn scale Fmn Fs Ess Hpos) as (Ft & Nt & Bt).
  { rewrite Rabs_left1 by lra. nra. }
  destruct (initial_zero_point_value mn scale Ft) as (Fi & Vi).
  pose proof (quantize_clamp_round _ Fi) as [Hzp Czp]. cbv zeta in Hzp, Czp.
  fold (clamp (qmin uint8_t) (qmax uint8_t)
          (initial_zero_point uint8_t mn scale)) in *.
  change (clamp (F32.of_Z 0) (F32.of_Z 255) (initial_zero_point uint8_t mn scale))
    with (std_max (qmin uint8_t)
            (std_min (qmax uint8_t) (initial_zero_point uint8_t mn scale)))
    in Hzp, Czp.
  fold (compute_zero_point uint8_t mn scale) in Hzp, Czp.
  set (zp := compute_zero_point uint8_t mn scale) in *.
  (* the element *)
  destruct (div_by_scale x scale Fx Fs Ess Hpos) as (Fu & Nu & Bu).
  { apply Rabs_le. nra. }
  destruct (of_Z_uint8 zp Hzp) as [Fz Vz].
  pose proof (add_rounded _ _ Fu Fz) as Hw. rewrite Vz in Hw.
  pose proof (near_bounded _ _ _ Nu Bu) as Bu'.
  pose proof bpow_127_large.
  assert (0 <= IZR zp <= 255)%R as Bz
      by (split; apply IZR_le; lia).
  destruct (rounded32_near _ _ Hw) as [Fw Nw].
  { apply Rle_lt_trans with ((2 * 256 + 1) + 255)%R; [| lra].
    eapply Rle_trans; [apply Rabs_triang |].
    rewrite (Rabs_pos_eq (IZR zp)) by lra. lra. }
  pose proof (quantize_clamp_round _ Fw) as [Hq Cq]. cbv zeta in Hq, Cq.
  change (static_cast uint8_t
            (RoundHalfToEven
               (clamp (F32.of_Z 0) (F32.of_Z 255)
                  (F32.add (F32.div x scale) (F32.of_Z zp)))))
    with (quantize_one uint8_t scale zp x) in Hq, Cq.
  set (q := quantize_one uint8_t scale zp x) in *.
  (* the budget *)
  assert (near (value (initial_zero_point uint8_t mn scale))
            (- value mn / value scale)) as Ni.
  { unfold near in *. rewrite Vi.
    replace (- value (F32.div mn scale) - - value mn / value scale)%R
      with (- (value (F32.div mn scale) - value mn / value scale))%R
      by (unfold Rdiv; ring).
    rewrite !Rabs_Ropp. exact Nt. }
  pose proof (roundtrip_budget
                (- value mn / value scale) (value x / value scale)
                ((value mx - value mn) / value scale)
                (value (initial_zero_point uint8_t mn scale)) (IZR zp)
                (value (F32.div x scale))
                (value (F32.add (F32.div x scale) (F32.of_Z zp))) (IZR q))
    as Hbudget.
  assert (/ value scale > 0)%R as Hinv by (apply Rinv_0_lt_compat; exact Hpos).
  assert (Rabs (IZR q - IZR zp - value x / value scale) <= 1)%R as Hone.
  { apply Hbudget; try assumption.
    - unfold Rdiv. split; nra.
    - unfold Rdiv. split; nra.
    - apply Rmult_le_reg_r with (value scale); [exact Hpos |].
      unfold Rdiv. rewrite Rmult_assoc, Rinv_l by lra. lra. }
  replace ((IZR q - IZR zp) * value scale - value x)%R
    with ((IZR q - IZR zp - value x / value scale) * value scale)%R
    by (field; lra).
  rewrite Rabs_mult, (Rabs_pos_eq (value scale)) by lra.
  pose proof (Rabs_pos (IZR q - IZR zp - value x / value scale)). nra.
Qed.

(** ** Inputs made of zeros *)

Lemma derived_all_zero (x0 : float) (rest : list float) :
  Forall is_zero (x0 :: rest) ->
  is_zero (derived_scale uint8_t x0 rest)
  /\ derived_zero_point uint8_t x0 rest = 255.
Proof.
  intros Hz. inversion Hz as [| ? ? H0 Hrest]; subst.
  pose proof (fold_left_closed is_zero std_min std_min_cases rest x0 H0 Hrest)
    as Hmin.
  pose proof (fold_left_closed is_zero std_max std_max_cases rest x0 H0 Hrest)
    as Hmax.
  unfold derived_zero_point, derived_scale, derived_min, derived_max.
  destruct (fold_left std_min rest x0) as [[] | | |]; try contradiction;
    destruct (fold_left std_max rest x0) as [[] | | |]; try contradiction;
    split; (exact I || reflexivity).
Qed.

(** ** The elementwise pass, outside the model's own words *)

Lemma div_valid (x y : float) : F32.valid (F32.div x y) = true.
Proof.
  destruct x as [sx | sx | | sx mx ex], y as [sy | sy | | sy my ey];
    try reflexivity.
  apply (SFdiv_finite_rounded F32.prec F32.emax prec32_gt_1 emax32_ge_2).
Qed.

Lemma add_valid (x y : float) :
  F32.valid x = true -> F32.valid y = true -> F32.valid (F32.add x y) = true.
Proof.
  intros Hx Hy.
  destruct x as [sx | sx | | sx mx ex], y as [sy | sy | | sy my ey];
    try reflexivity; try assumption.
  - destruct sx, sy; reflexivity.
  - destruct sx, sy; reflexivity.
  - apply (SFadd_finite_rounded F32.prec F32.emax prec32_gt_1 emax32_ge_2).
Qed.

Lemma of_Z_valid (z : Z) : F32.valid (F32.of_Z z) = true.
Proof.
  apply (binary_normalize_rounded F32.prec F32.emax prec32_gt_1 emax32_ge_2
           z 0 false).
Qed.

(** The clamp to [0, 255], on values. *)
Lemma clamp_uint8_value (w : float) :
  fin w ->
  value (clamp (F32.of_Z 0) (F32.of_Z 255) w) = Rmax 0 (Rmin 255 (value w)).
Proof.
  intros Hw. unfold clamp, std_max, std_min.
  pose proof (F32_ltb_value w (F32.of_Z 255) Hw fin_255) as H255.
  rewrite value_255 in H255.
  destruct (F32.ltb w (F32.of_Z 255)) eqn:Hlt.
  - assert (value w < 255)%R as Hv by (apply H255; reflexivity).
    rewrite (Rmin_right 255 (value w)) by lra.
    pose proof (F32_ltb_value (F32.of_Z 0) w (fin_zero false) Hw) as H0.
    change (value (F32.of_Z 0)) with 0%R in H0.
    destruct (F32.ltb (F32.of_Z 0) w) eqn:Hgt.
    + assert (0 < value w)%R by (apply H0; reflexivity).
      rewrite Rmax_right by lra. reflexivity.
    + assert (value w <= 0)%R.
      { destruct (Rle_or_lt (value w) 0) as [H | H]; [exact H |].
        apply H0 in H. discriminate. }
      rewrite Rmax_left by lra. reflexivity.
  - assert (255 <= value w)%R as Hv.
    { destruct (Rle_or_lt 255 (value w)) as [H | H]; [exact H |].
      apply H255 in H. discriminate. }
    rewrite Rmin_left by lra. rewrite Rmax_right by lra.
    change (F32.ltb (F32.of_Z 0) (F32.of_Z 255)) with true. cbv iota.
    apply value_255.
Qed.

Lemma quantize_one_spec (scale : float) (zero_point : Z) (v : float) :
  let w := F32.add (F32.div v scale) (F32.of_Z zero_point) in
  let c := clamp (F32.of_Z 0) (F32.of_Z 255) w in
  rounds_half_even c (quantize_one uint8_t scale zero_point v)
  /\ 0 <= quantize_one uint8_t scale zero_point v <= 255
  /\ (F32.is_finite w = true -> value c = Rmax 0 (Rmin 255 (value w)))
  /\ (w = S754_infinity false -> quantize_one uint8_t scale zero_point v = 255)
  /\ (w = S754_infinity true -> quantize_one uint8_t scale zero_point v = 0).
Proof.
  cbv zeta.
  assert (bounded_mantissa F32.prec
            (F32.add (F32.div v scale) (F32.of_Z zero_point))) as Hb.
  { apply add_bounded.
    - apply (SFdiv_bounded F32.prec F32.emax). reflexivity.
    - apply binary_normalize_bounded. }
  destruct (RoundHalfToEven_clamped _ (clamp_clamped _ Hb)) as [Hr Hq].
  split; [exact Hr |]. split; [exact Hq |]. split; [| split].
  - intros Hf. apply clamp_uint8_value. split; [| exact Hf].
    apply add_valid; [apply div_valid | apply of_Z_valid].
  - unfold quantize_one. cbn [numeric_limits_min numeric_limits_max uint8_t].
    intros ->. reflexivity.
  - unfold quantize_one. cbn [numeric_limits_min numeric_limits_max uint8_t].
    intros ->. reflexivity.
Qed.

(** * The claims *)

(** C1.  On the input [0.0, 2.0, -1.0, 1.0] the kernel returns the scale
    3/255 (the binary32 number 12632257 * 2^-30, which is 0.011764706 to
    nine decimals), the zero point 85 and the tensor [85, 255, 0, 170]. *)
Theorem scenario_1 (tp : ThreadPool) (y0 : list Z) :
  serves tp 4 = true -> length y0 = 4%nat ->
  Compute uint8_t tp y0 [fzero; F32.of_Z 2; F32.of_Z (-1); F32.of_Z 1] =
    Some {| Y := [85; 255; 0; 170];
            Y_scale := F32.div (F32.of_Z 3) (F32.of_Z 255);
            Y_zero_point := 85 |}
  /\ F32.div (F32.of_Z 3) (F32.of_Z 255) = S754_finite false 12632257 (-30)
  /\ 11764706 * 2 ^ 30 <= 12632257 * 10 ^ 9 < 11764707 * 2 ^ 30.
Proof.
  intros Htp Hlen. split; [| split; [reflexivity | lia]].
  rewrite Compute_nonempty by assumption.
  vm_compute. reflexivity.
Qed.

Lemma scenario_1_witness :
  Compute uint8_t sequential [0; 0; 0; 0]
    [fzero; F32.of_Z 2; F32.of_Z (-1); F32.of_Z 1] =
    Some {| Y := [85; 255; 0; 170];
            Y_scale := F32.div (F32.of_Z 3) (F32.of_Z 255);
            Y_zero_point := 85 |}
  /\ F32.div (F32.of_Z 3) (F32.of_Z 255) = S754_finite false 12632257 (-30)
  /\ 11764706 * 2 ^ 30 <= 12632257 * 10 ^ 9 < 11764707 * 2 ^ 30.
Proof.
  apply (scenario_1 sequential [0; 0; 0; 0]).
  - reflexivity.
  - reflexivity.
Defined.

(** C2.  Every element of the quantized tensor is the rounding to nearest
    even of the clamped value [input[i] / scale + zero_point], converted
    to uint8, with the scale and zero point the kernel returns and the
    bounds 0 and 255.  The rounding and the clamp are also stated on
    their own.  With [w] the sum [input[i] / scale + zero_point] and [c]
    its clamp: the element is an integer of [0, 255]; it is the integer
    nearest to [c], the even one when [c] lies halfway between two
    integers; when [w] is finite the value of [c] is
    [max(0, min(255, w))]; when [w] is plus infinity the element is 255
    and when it is minus infinity the element is 0. *)
Theorem quantized_elements (tp : ThreadPool) (y0 : list Z) (x : list float) :
  serves tp (length x) = true -> length y0 = length x -> x <> [] ->
  exists out,
    Compute uint8_t tp y0 x = Some out
    /\ length (Y out) = length x
    /\ forall i v,
         nth_error x i = Some v ->
         let w := F32.add (F32.div v (Y_scale out))
                    (F32.of_Z (Y_zero_point out)) in
         let c := clamp (F32.of_Z 0) (F32.of_Z 255) w in
         nth_error (Y out) i
         = Some (static_cast uint8_t (RoundHalfToEven c))
         /\ exists q,
              nth_error (Y out) i = Some q
              /\ rounds_half_even c q
              /\ 0 <= q <= 255
              /\ (F32.is_finite w = true ->
                  value c = Rmax 0 (Rmin 255 (value w)))
              /\ (w = S754_infinity false -> q = 255)
              /\ (w = S754_infinity true -> q = 0).
Proof.
  intros Htp Hlen Hne. destruct x as [| x0 rest]; [congruence |].
  rewrite Compute_nonempty by assumption.
  eexists; split; [reflexivity |]. cbn [Y Y_scale Y_zero_point]. split.
  - apply length_map.
  - intros i v Hv. cbv zeta. rewrite nth_error_map, Hv. cbn [option_map].
    split; [reflexivity |].
    eexists. split; [reflexivity |].
    exact (quantize_one_spec (derived_scale uint8_t x0 rest)
             (derived_zero_point uint8_t x0 rest) v).
Qed.

Lemma quantized_elements_witness :
  exists out,
    Compute uint8_t two_workers [9; 9; 9] [F32.of_Z 5; F32.of_Z (-3); fzero]
      = Some out
    /\ length (Y out) = 3%nat
    /\ forall i v,
         nth_error [F32.of_Z 5; F32.of_Z (-3); fzero] i = Some v ->
         let w := F32.add (F32.div v (Y_scale out))
                    (F32.of_Z (Y_zero_point out)) in
         let c := clamp (F32.of_Z 0) (F32.of_Z 255) w in
         nth_error (Y out) i
         = Some (static_cast uint8_t (RoundHalfToEven c))
         /\ exists q,
              nth_error (Y out) i = Some q
              /\ rounds_half_even c q
              /\ 0 <= q <= 255
              /\ (F32.is_finite w = true ->
                  value c = Rmax 0 (Rmin 255 (value w)))
              /\ (w = S754_infinity false -> q = 255)
              /\ (w = S754_infinity true -> q = 0).
Proof.
  apply (quantized_elements two_workers [9; 9; 9]
           [F32.of_Z 5; F32.of_Z (-3); fzero]).
  - reflexivity.
  - reflexivity.
  - discriminate.
Defined.

(** C3.  The returned zero point is [qmin - min / scale], with [min] the
    smaller of 0.0 and the least input element, clamped to [0, 255],
    rounded and converted to uint8.  The rounding is to the nearest
    integer with ties going to the even one: the zero point is the
    integer nearest to the clamped value and is even when that value lies
    halfway between two integers.  On the inputs [-1, 509], [-3, 507] and
    [-5, 505] the scale is 2, the values before rounding are 0.5
    ([2^23 * 2^-24]), 1.5 and 2.5, and the zero points are 0, 2 and 2. *)
Theorem zero_point_formula (tp : ThreadPool) (y0 : list Z) (x : list float) :
  serves tp (length x) = true -> length y0 = length x -> x <> [] ->
  (exists out lo,
    Compute uint8_t tp y0 x = Some out
    /\ minCoeff x = Some lo
    /\ let izp :=
         F32.sub (F32.of_Z 0) (F32.div (std_min lo fzero) (Y_scale out)) in
       let c := std_max (F32.of_Z 0) (std_min (F32.of_Z 255) izp) in
       Y_zero_point out = static_cast uint8_t (RoundHalfToEven c)
       /\ rounds_half_even c (Y_zero_point out)
       /\ 0 <= Y_zero_point out <= 255)
  /\ (initial_zero_point uint8_t
        (derived_min (F32.of_Z (-1)) [F32.of_Z 509])
        (derived_scale uint8_t (F32.of_Z (-1)) [F32.of_Z 509])
        = S754_finite false 8388608 (-24)
      /\ derived_zero_point uint8_t (F32.of_Z (-1)) [F32.of_Z 509] = 0)
  /\ (initial_zero_point uint8_t
        (derived_min (F32.of_Z (-3)) [F32.of_Z 507])
        (derived_scale uint8_t (F32.of_Z (-3)) [F32.of_Z 507])
        = S754_finite false 12582912 (-23)
      /\ derived_zero_point uint8_t (F32.of_Z (-3)) [F32.of_Z 507] = 2)
  /\ (initial_zero_point uint8_t
        (derived_min (F32.of_Z (-5)) [F32.of_Z 505])
        (derived_scale uint8_t (F32.of_Z (-5)) [F32.of_Z 505])
        = S754_finite false 10485760 (-22)
      /\ derived_zero_point uint8_t (F32.of_Z (-5)) [F32.of_Z 505] = 2).
Proof.
  intros Htp Hlen Hne. split; [| repeat split; vm_compute; reflexivity].
  destruct x as [| x0 rest]; [congruence |].
  rewrite Compute_nonempty by assumption.
  do 2 eexists. split; [reflexivity |]. split; [reflexivity |].
  cbn [Y_scale Y_zero_point]. cbv zeta.
  pose proof (clamp_clamped _
                (initial_zero_point_bounded (derived_min x0 rest)
                   (derived_scale uint8_t x0 rest))) as Hc.
  apply RoundHalfToEven_clamped in Hc.
  split; [reflexivity | exact Hc].
Qed.

Lemma zero_point_formula_witness :
  exists out lo,
    Compute uint8_t sequential [0; 0] [F32.of_Z (-5); F32.of_Z 505] = Some out
    /\ minCoeff [F32.of_Z (-5); F32.of_Z 505] = Some lo
    /\ let izp :=
         F32.sub (F32.of_Z 0) (F32.div (std_min lo fzero) (Y_scale out)) in
       let c := std_max (F32.of_Z 0) (std_min (F32.of_Z 255) izp) in
       Y_zero_point out = static_cast uint8_t (RoundHalfToEven c)
       /\ rounds_half_even c (Y_zero_point out)
       /\ 0 <= Y_zero_point out <= 255.
Proof.
  apply (zero_point_formula sequential [0; 0] [F32.of_Z (-5); F32.of_Z 505]).
  - reflexivity.
  - reflexivity.
  - discriminate.
Defined.

(** C4.  The returned scale is [(max - min) / (qmax - qmin)] with
    [qmin = 0], [qmax = 255], [min] the smaller of 0.0 and the least
    input element and [max] the larger of 0.0 and the greatest one.  On
    an input without NaN the scan results are elements of the input that
    bound all the others in the order of [float], and [min <= 0 <= max];
    on an input of finite numbers they bound the others as real numbers
    too. *)
Theorem scale_formula (tp : ThreadPool) (y0 : list Z) (x : list float) :
  serves tp (length x) = true -> length y0 = length x -> x <> [] ->
  exists out lo hi,
    Compute uint8_t tp y0 x = Some out
    /\ minCoeff x = Some lo /\ maxCoeff x = Some hi
    /\ Y_scale out =
       F32.div (F32.sub (std_max hi fzero) (std_min lo fzero))
               (F32.sub (F32.of_Z 255) (F32.of_Z 0))
    /\ (Forall number x ->
        In lo x /\ Forall (fun v => F32.leb lo v = true) x
        /\ In hi x /\ Forall (fun v => F32.leb v hi = true) x
        /\ F32.leb (std_min lo fzero) fzero = true
        /\ F32.leb fzero (std_max hi fzero) = true)
    /\ (Forall fin x ->
        Forall (fun v => (value lo <= value v <= value hi)%R) x).
Proof.
  intros Htp Hlen Hne. destruct x as [| x0 rest]; [congruence |].
  rewrite Compute_nonempty by assumption.
  do 3 eexists. repeat (split; [reflexivity |]).
  split.
  - intros Hnum. inversion Hnum as [| ? ? H0 Hrest]; subst.
    repeat split.
    + apply fold_left_In, std_min_cases.
    + apply fold_left_std_min_lower, Hnum.
    + apply fold_left_In, std_max_cases.
    + apply fold_left_std_max_upper, Hnum.
    + apply range_min_nonpos.
      apply (fold_left_closed number std_min std_min_cases); assumption.
    + apply range_max_nonneg.
      apply (fold_left_closed number std_max std_max_cases); assumption.
  - intros Hfin.
    destruct (fold_min_value x0 rest Hfin) as [_ Hlo].
    destruct (fold_max_value x0 rest Hfin) as [_ Hhi].
    rewrite Forall_forall in *. intros v Hv. split; auto.
Qed.

Lemma scale_formula_witness :
  exists out lo hi,
    Compute uint8_t sequential [0; 0; 0] [F32.of_Z 4; F32.of_Z (-6); F32.of_Z 1]
      = Some out
    /\ minCoeff [F32.of_Z 4; F32.of_Z (-6); F32.of_Z 1] = Some lo
    /\ maxCoeff [F32.of_Z 4; F32.of_Z (-6); F32.of_Z 1] = Some hi
    /\ Y_scale out =
       F32.div (F32.sub (std_max hi fzero) (std_min lo fzero))
               (F32.sub (F32.of_Z 255) (F32.of_Z 0))
    /\ Forall number [F32.of_Z 4; F32.of_Z (-6); F32.of_Z 1]
    /\ Forall fin [F32.of_Z 4; F32.of_Z (-6); F32.of_Z 1]
    /\ (In lo [F32.of_Z 4; F32.of_Z (-6); F32.of_Z 1]
        /\ Forall (fun v => F32.leb lo v = true)
             [F32.of_Z 4; F32.of_Z (-6); F32.of_Z 1]
        /\ In hi [F32.of_Z 4; F32.of_Z (-6); F32.of_Z 1]
        /\ Forall (fun v => F32.leb v hi = true)
             [F32.of_Z 4; F32.of_Z (-6); F32.of_Z 1]
        /\ F32.leb (std_min lo fzero) fzero = true
        /\ F32.leb fzero (std_max hi fzero) = true)
    /\ Forall (fun v => (value lo <= value v <= value hi)%R)
         [F32.of_Z 4; F32.of_Z (-6); F32.of_Z 1].
Proof.
  destruct (scale_formula sequential [0; 0; 0]
              [F32.of_Z 4; F32.of_Z (-6); F32.of_Z 1])
    as (out & lo & hi & Hout & Hlo & Hhi & Hscale & Hnumber & Hvalue).
  - reflexivity.
  - reflexivity.
  - discriminate.
  - assert (Forall number [F32.of_Z 4; F32.of_Z (-6); F32.of_Z 1]) as Hnum
        by (repeat constructor).
    assert (Forall fin [F32.of_Z 4; F32.of_Z (-6); F32.of_Z 1]) as Hfin
        by (repeat constructor).
    exists out, lo, hi.
    repeat (split; [assumption |]).
    split; [exact (Hnumber Hnum) | exact (Hvalue Hfin)].
Defined.

(** C5, as stated, fails: on the one-element input [NaN] the scale is NaN,
    and [0 <= NaN] is false. *)
Lemma scale_nonneg_counterexample :
  Compute uint8_t sequential [0] [S754_nan] =
    Some {| Y := [255]; Y_scale := S754_nan; Y_zero_point := 255 |}
  /\ F32.leb fzero S754_nan = false.
Proof. split; reflexivity. Qed.

(** C5, amended.  For every non-empty input none of whose elements is a
    NaN (infinities are allowed), the returned scale is a number and
    [0 <= Y_scale]. *)
Theorem scale_nonneg (tp : ThreadPool) (y0 : list Z) (x : list float) :
  serves tp (length x) = true -> length y0 = length x -> x <> [] ->
  Forall number x ->
  exists out,
    Compute uint8_t tp y0 x = Some out
    /\ F32.leb fzero (Y_scale out) = true.
Proof.
  intros Htp Hlen Hne Hnum. destruct x as [| x0 rest]; [congruence |].
  rewrite Compute_nonempty by assumption.
  eexists; split; [reflexivity |]. cbn [Y_scale].
  apply derived_scale_nonneg, Hnum.
Qed.

Lemma scale_nonneg_witness :
  exists out,
    Compute uint8_t sequential [0; 0]
      [S754_infinity true; F32.of_Z 3] = Some out
    /\ F32.leb fzero (Y_scale out) = true.
Proof.
  apply (scale_nonneg sequential [0; 0] [S754_infinity true; F32.of_Z 3]).
  - reflexivity.
  - reflexivity.
  - discriminate.
  - repeat constructor.
Defined.

(** C6, as stated, fails: on the one-element input [2^-149] the scale
    [2^-149 / 255] rounds to zero, so the element is quantized to 255
    with zero point 255 and dequantized to 0, at distance [2^-149] from
    the element while the scale is 0.  The bound fails in exact
    arithmetic and in binary32 arithmetic alike. *)
Lemma roundtrip_counterexample :
  Compute uint8_t sequential [0] [denorm_min] =
    Some {| Y := [255]; Y_scale := fzero; Y_zero_point := 255 |}
  /\ ~ (Rabs ((IZR 255 - IZR 255) * value fzero - value denorm_min)
        <= value fzero)%R
  /\ F32.leb
       (F32.abs
          (F32.sub (F32.mul (F32.sub (F32.of_Z 255) (F32.of_Z 255)) fzero)
             denorm_min))
       fzero = false.
Proof.
  split; [reflexivity |]. split; [| reflexivity].
  unfold value, fzero, denorm_min. cbn [B2R SpecFloat.cond_Zopp].
  pose proof (bpow_gt_0 (-149)) as Hpos.
  replace ((255 - 255) * 0 - 1 * bpow (-149))%R with (- bpow (-149))%R by ring.
  rewrite Rabs_Ropp, Rabs_pos_eq by lra. lra.
Qed.

(** A scale that is positive but subnormal does not save the bound
    either: on the input [357 * 2^-149] the scale [1.4 * 2^-149] rounds to
    [2^-149], the element is quantized to 255 with zero point 0 and
    dequantized to [255 * 2^-149], which misses it by 102 scales. *)
Example roundtrip_subnormal_scale :
  Compute uint8_t sequential [0] [S754_finite false 357 (-149)] =
    Some {| Y := [255]; Y_scale := denorm_min; Y_zero_point := 0 |}
  /\ ((IZR 255 - IZR 0) * value denorm_min
      - value (S754_finite false 357 (-149))
      = - (102 * value denorm_min))%R
  /\ (0 < value denorm_min)%R.
Proof.
  split; [reflexivity |].
  unfold value, denorm_min. cbn [B2R SpecFloat.cond_Zopp].
  split; [ring |]. pose proof (bpow_gt_0 (-149)). lra.
Qed.

(** C6, amended.  For every non-empty input of finite numbers whose
    returned scale is a finite normal number (at least [FLT_MIN = 2^-126]),
    and for every element [x] with quantized value [q], the dequantized
    value [(q - Y_zero_point) * Y_scale], in exact arithmetic, is within
    [Y_scale] of [x]. *)
Theorem roundtrip_within_scale (tp : ThreadPool) (y0 : list Z)
    (x : list float) :
  serves tp (length x) = true -> length y0 = length x -> x <> [] ->
  Forall fin x ->
  exists out,
    Compute uint8_t tp y0 x = Some out
    /\ (F32.is_finite (Y_scale out) = true ->
        F32.leb FLT_MIN (Y_scale out) = true ->
        forall i v q,
          nth_error x i = Some v -> nth_error (Y out) i = Some q ->
          (Rabs ((IZR q - IZR (Y_zero_point out)) * value (Y_scale out)
                 - value v)
           <= value (Y_scale out))%R).
Proof.
  intros Htp Hlen Hne Hfin. destruct x as [| x0 rest]; [congruence |].
  rewrite Compute_nonempty by assumption.
  eexists; split; [reflexivity |]. cbn [Y Y_scale Y_zero_point].
  intros Hf Hn i v q Hv Hq.
  rewrite nth_error_map, Hv in Hq. cbn [option_map] in Hq.
  injection Hq as <-.
  apply roundtrip_bound; try assumption.
  eapply nth_error_In, Hv.
Qed.

Lemma roundtrip_within_scale_witness :
  exists out,
    Compute uint8_t sequential [0; 0; 0; 0]
      [fzero; F32.of_Z 2; F32.of_Z (-1); F32.of_Z 1] = Some out
    /\ F32.is_finite (Y_scale out) = true
    /\ F32.leb FLT_MIN (Y_scale out) = true
    /\ forall i v q,
         nth_error [fzero; F32.of_Z 2; F32.of_Z (-1); F32.of_Z 1] i = Some v ->
         nth_error (Y out) i = Some q ->
         (Rabs ((IZR q - IZR (Y_zero_point out)) * value (Y_scale out)
                - value v)
          <= value (Y_scale out))%R.
Proof.
  destruct (roundtrip_within_scale sequential [0; 0; 0; 0]
              [fzero; F32.of_Z 2; F32.of_Z (-1); F32.of_Z 1])
    as [out [Hout Hbound]].
  - reflexivity.
  - reflexivity.
  - discriminate.
  - repeat constructor.
  - exists out. split; [exact Hout |].
    assert (Y_scale out = S754_finite false 12632257 (-30)) as Hs.
    { vm_compute in Hout. injection Hout as <-. reflexivity. }
    assert (F32.is_finite (Y_scale out) = true) as Hf
        by (rewrite Hs; reflexivity).
    assert (F32.leb FLT_MIN (Y_scale out) = true) as Hn
        by (rewrite Hs; reflexivity).
    split; [exact Hf |]. split; [exact Hn |].
    exact (Hbound Hf Hn).
Defined.

(** C9.  The three outputs depend on the input alone: two runs on the
    same input agree whatever the two thread pools do with the index
    range and whatever the output buffers held before; in particular a
    run split among workers agrees with the sequential run. *)
Theorem partition_independent (tp1 tp2 : ThreadPool) (y1 y2 : list Z)
    (x : list float) :
  serves tp1 (length x) = true -> serves tp2 (length x) = true ->
  length y1 = length x -> length y2 = length x ->
  Compute uint8_t tp1 y1 x = Compute uint8_t tp2 y2 x
  /\ Compute uint8_t tp1 y1 x = Compute uint8_t sequential y1 x.
Proof.
  intros H1 H2 L1 L2. destruct x as [| x0 rest]; [split; reflexivity |].
  rewrite !Compute_nonempty by (try apply sequential_serves; assumption).
  split; reflexivity.
Qed.

Lemma partition_independent_witness :
  Compute uint8_t two_workers [1; 2; 3; 4; 5]
    [F32.of_Z 7; F32.of_Z (-2); fzero; F32.of_Z 3; F32.of_Z 1]
  = Compute uint8_t sequential [0; 0; 0; 0; 0]
      [F32.of_Z 7; F32.of_Z (-2); fzero; F32.of_Z 3; F32.of_Z 1]
  /\ Compute uint8_t two_workers [1; 2; 3; 4; 5]
       [F32.of_Z 7; F32.of_Z (-2); fzero; F32.of_Z 3; F32.of_Z 1]
     = Compute uint8_t sequential [1; 2; 3; 4; 5]
         [F32.of_Z 7; F32.of_Z (-2); fzero; F32.of_Z 3; F32.of_Z 1].
Proof.
  apply (partition_independent two_workers sequential).
  - reflexivity.
  - reflexivity.
  - reflexivity.
  - reflexivity.
Defined.

(** C10, as stated, fails: the one-element input [2^-149] is positive,
    yet its scale [2^-149 / 255] rounds to zero and the zero point is
    255. *)
Lemma nonneg_input_zero_point_counterexample :
  Forall (fun v => F32.leb fzero v = true) [denorm_min]
  /\ maxCoeff [denorm_min] = Some denorm_min
  /\ F32.ltb fzero denorm_min = true
  /\ Compute uint8_t sequential [0] [denorm_min] =
       Some {| Y := [255]; Y_scale := fzero; Y_zero_point := 255 |}.
Proof. repeat split. repeat constructor. Qed.

(** C10, amended.  For every non-empty input whose elements are all at
    least zero and whose returned scale is strictly positive, the
    returned zero point is 0. *)
Theorem nonneg_input_zero_point (tp : ThreadPool) (y0 : list Z)
    (x : list float) :
  serves tp (length x) = true -> length y0 = length x -> x <> [] ->
  Forall (fun v => F32.leb fzero v = true) x ->
  exists out,
    Compute uint8_t tp y0 x = Some out
    /\ (F32.ltb fzero (Y_scale out) = true -> Y_zero_point out = 0).
Proof.
  intros Htp Hlen Hne Hpos. destruct x as [| x0 rest]; [congruence |].
  rewrite Compute_nonempty by assumption.
  eexists; split; [reflexivity |]. cbn [Y_scale Y_zero_point].
  inversion Hpos as [| ? ? H0 Hrest]; subst.
  pose proof (fold_left_closed _ std_min std_min_cases rest x0 H0 Hrest) as Hmin.
  cbn beta in Hmin.
  unfold derived_zero_point, derived_min.
  destruct (derived_scale uint8_t x0 rest) as [s | [] | | [] m e];
    try discriminate; intros _;
    destruct (fold_left std_min rest x0) as [[] | [] | | [] m' e'];
    try discriminate Hmin; reflexivity.
Qed.

Lemma nonneg_input_zero_point_witness :
  exists out,
    Compute uint8_t sequential [0; 0] [F32.of_Z 3; F32.of_Z 1] = Some out
    /\ F32.ltb fzero (Y_scale out) = true
    /\ Y_zero_point out = 0.
Proof.
  destruct (nonneg_input_zero_point sequential [0; 0]
              [F32.of_Z 3; F32.of_Z 1])
    as [out [Hout Hzp]].
  - reflexivity.
  - reflexivity.
  - discriminate.
  - repeat constructor.
  - exists out. split; [exact Hout |].
    assert (F32.ltb fzero (Y_scale out) = true) as Hpos.
    { vm_compute in Hout. injection Hout as <-. reflexivity. }
    split; [exact Hpos | exact (Hzp Hpos)].
Defined.
(** * Further properties of the kernel *)

(** ** Integers that [float] holds exactly *)

Lemma binary_round_aux_exact (s : bool) (m : positive) (e : Z) :
  fexp F32.prec F32.emax (Zdigits2 (Zpos m) + e) = e -> e <= 104 ->
  binary_round_aux F32.prec F32.emax s (Zpos m) e loc_Exact
  = S754_finite s m e.
Proof.
  intros Hc He. unfold binary_round_aux, shr_fexp.
  rewrite Hc, Z.sub_diag.
  cbn [shr shr_record_of_loc shr_m loc_of_shr_record round_nearest_even].
  rewrite Hc, Z.sub_diag. cbn [shr shr_m].
  destruct (Z.leb_spec e (F32.emax - F32.prec)) as [_ | Hgt];
    [reflexivity | unfold F32.emax, F32.prec in Hgt; lia].
Qed.

Lemma integral_exact (s : bool) (n : Z) :
  0 < n < 2 ^ 24 ->
  exists m e,
    integral s n = S754_finite s m e
    /\ -23 <= e <= 0 /\ Zpos m = n * 2 ^ (- e)
    /\ fin (S754_finite s m e).
Proof.
  intros Hn. destruct n as [| p | p]; try lia.
  assert (integral s (Zpos p) = binary_round F32.prec F32.emax s p 0) as ->
      by (destruct s; reflexivity).
  unfold binary_round.
  pose proof (digits2_pos_bounds p) as Hd.
  set (d := Zpos (digits2_pos p)) in *.
  assert (1 <= d <= 24) as Hd24.
  { split; [subst d; lia |].
    destruct (Z.le_gt_cases d 24) as [H | H]; [exact H | exfalso].
    assert (2 ^ 24 <= 2 ^ (d - 1)) by (apply Z.pow_le_mono_r; lia). lia. }
  assert (fexp F32.prec F32.emax (d + 0) = d - 24) as ->
      by (unfold fexp, emin, F32.prec, F32.emax; lia).
  destruct (shl_align_correct p 0 (d - 24)) as [He Hm].
  destruct (shl_align p 0 (d - 24)) as [mz ez]. cbn [fst snd] in He, Hm.
  rewrite Z.min_r in He, Hm by lia. subst ez.
  assert (Zdigits2 (Zpos mz) = 24) as Hdz.
  { rewrite Hm, Zdigits2_mul_pow2 by lia. change (Zdigits2 (Zpos p)) with d. lia. }
  assert (fexp F32.prec F32.emax (Zdigits2 (Zpos mz) + (d - 24)) = d - 24) as Hc.
  { rewrite Hdz. unfold fexp, emin, F32.prec, F32.emax. lia. }
  rewrite binary_round_aux_exact by (try exact Hc; lia).
  exists mz, (d - 24). split; [reflexivity |].
  split; [lia |]. split; [rewrite Hm; f_equal; f_equal; lia |].
  split; [| reflexivity].
  unfold F32.valid, valid_binary, SpecFloat.bounded, canonical_mantissa.
  change (Zpos (digits2_pos mz)) with (Zdigits2 (Zpos mz)).
  rewrite Hc. apply andb_true_intro. split.
  - apply Z.eqb_eq. reflexivity.
  - apply Z.leb_le. unfold F32.emax, F32.prec. lia.
Qed.

(** ** [RoundHalfToEven] on every finite number *)

Lemma even_cond_Zopp (s : bool) (n : Z) :
  Z.even (SpecFloat.cond_Zopp s n) = Z.even n.
Proof. destruct s; cbn; [apply Z.even_opp | reflexivity]. Qed.

Lemma value_integral (s : bool) (n : Z) :
  0 <= n < 2 ^ 24 ->
  fin (integral s n)
  /\ value (integral s n) = IZR (SpecFloat.cond_Zopp s n)
  /\ truncate (integral s n) = SpecFloat.cond_Zopp s n.
Proof.
  intros Hn. destruct (Z.eq_dec n 0) as [-> | Hnz].
  - cbn [integral]. repeat split; destruct s; reflexivity.
  - destruct (integral_exact s n ltac:(lia)) as (m & e & -> & He & Hm & Hf).
    split; [exact Hf |].
    assert (0 < 2 ^ (- e)) as Hd by (apply Z.pow_pos_nonneg; lia).
    split.
    + assert (IZR (Zpos m) * bpow e = IZR n)%R as Hv.
      { rewrite Hm, mult_IZR, <- bpow_IZR, Rmult_assoc, <- bpow_add by lia.
        replace (- e + e) with 0 by lia. rewrite bpow_0. ring. }
      unfold value. cbn [B2R]. rewrite !cond_Zopp_IZR.
      destruct s; lra.
    + unfold truncate. f_equal.
      destruct (Z.leb_spec 0 e) as [H0 | Hneg].
      * replace e with 0 in * by lia. cbn in Hm |- *. lia.
      * rewrite Hm. apply Z.div_mul. lia.
Qed.

Lemma nearest_even_small (m : positive) (e : Z) :
  Zpos m < 2 ^ 24 -> e < 0 ->
  0 <= nearest_even (Zpos m) (2 ^ (- e)) < 2 ^ 24.
Proof.
  intros Hm He.
  assert (2 <= 2 ^ (- e)) as Hd.
  { change 2 with (2 ^ 1) at 1. apply Z.pow_le_mono_r; lia. }
  destruct (nearest_even_spec (Zpos m) (2 ^ (- e))) as [_ [Hlo Hhi]]; try lia.
  assert (0 <= Zpos m / 2 ^ (- e)) by (apply Z.div_pos; lia).
  assert (Zpos m / 2 ^ (- e) <= Zpos m / 2)
    by (apply Z.div_le_compat_l; lia).
  assert (Zpos m / 2 < 2 ^ 23).
  { apply Z.div_lt_upper_bound; [lia |]. change (2 * 2 ^ 23) with (2 ^ 24). lia. }
  change (2 ^ 24) with (2 * 2 ^ 23). lia.
Qed.

(** The distance between a fraction [m / d] and an integer. *)
Lemma fraction_distance (s : bool) (m : positive) (e n : Z) :
  e < 0 ->
  (Rabs (IZR (SpecFloat.cond_Zopp s n) - value (S754_finite s m e))
   = IZR (Z.abs (n * 2 ^ (- e) - Zpos m)) / IZR (2 ^ (- e)))%R.
Proof.
  intros He.
  assert (0 < 2 ^ (- e)) as Hd by (apply Z.pow_pos_nonneg; lia).
  assert (0 < IZR (2 ^ (- e)))%R as Hd' by (apply IZR_lt; exact Hd).
  unfold value. cbn [B2R].
  replace (bpow e) with (/ IZR (2 ^ (- e)))%R
    by (rewrite <- bpow_IZR, <- bpow_opp by lia; f_equal; lia).
  rewrite !cond_Zopp_IZR, abs_IZR, minus_IZR, mult_IZR.
  assert (Rabs (IZR n - IZR (Zpos m) * / IZR (2 ^ (- e)))
          = Rabs (IZR n * IZR (2 ^ (- e)) - IZR (Zpos m)) / IZR (2 ^ (- e)))%R
    as Hq.
  { replace (IZR n - IZR (Zpos m) * / IZR (2 ^ (- e)))%R
      with ((IZR n * IZR (2 ^ (- e)) - IZR (Zpos m)) * / IZR (2 ^ (- e)))%R
      by (field; lra).
    rewrite Rabs_mult, (Rabs_pos_eq (/ _))
      by (apply Rlt_le, Rinv_0_lt_compat; lra).
    reflexivity. }
  destruct s; [| exact Hq].
  replace (- IZR n - - IZR (Zpos m) * / IZR (2 ^ (- e)))%R
    with (- (IZR n - IZR (Zpos m) * / IZR (2 ^ (- e))))%R by ring.
  rewrite Rabs_Ropp. exact Hq.
Qed.

Lemma RoundHalfToEven_nearest (x : float) :
  fin x ->
  exists n : Z,
    fin (RoundHalfToEven x)
    /\ value (RoundHalfToEven x) = IZR n
    /\ truncate (RoundHalfToEven x) = n
    /\ (Rabs (IZR n - value x) <= / 2)%R
    /\ ((Rabs (IZR n - value x) = / 2)%R -> Z.even n = true).
Proof.
  intros Hx. unfold RoundHalfToEven. cbv zeta.
  destruct x as [s | s | | s m e]; try (destruct Hx; discriminate).
  - exists 0. cbn [nearbyintf]. unfold value. cbn [B2R truncate].
    rewrite Rminus_diag, Rabs_R0.
    repeat split; try apply Hx; try lra; reflexivity.
  - cbn [nearbyintf]. destruct (Z.leb_spec 0 e) as [He | He].
    + exists (SpecFloat.cond_Zopp s (Zpos m * 2 ^ e)).
      assert (value (S754_finite s m e)
              = IZR (SpecFloat.cond_Zopp s (Zpos m * 2 ^ e))) as Hv.
      { unfold value. cbn [B2R]. rewrite !cond_Zopp_IZR, mult_IZR.
        rewrite bpow_IZR by lia. destruct s; ring. }
      rewrite <- Hv, Rminus_diag, Rabs_R0.
      split; [exact Hx |]. split; [reflexivity |].
      split; [| split; [lra | intros; lra]].
      unfold truncate. destruct (Z.leb_spec 0 e); [reflexivity | lia].
    + pose proof (fin_bounded _ Hx) as Hb. cbn [bounded_mantissa] in Hb.
      pose proof (nearest_even_small m e Hb He) as Hn.
      assert (0 < 2 ^ (- e)) as Hd by (apply Z.pow_pos_nonneg; lia).
      assert (0 < IZR (2 ^ (- e)))%R as Hd' by (apply IZR_lt; exact Hd).
      destruct (nearest_even_spec (Zpos m) (2 ^ (- e)) Hd ltac:(lia))
        as [[Hnear Htie] _].
      set (n := nearest_even (Zpos m) (2 ^ (- e))) in *.
      destruct (value_integral s n Hn) as (Hf & Hv & Ht).
      exists (SpecFloat.cond_Zopp s n).
      split; [exact Hf |]. split; [exact Hv |]. split; [exact Ht |].
      rewrite fraction_distance by exact He.
      split.
      * apply Rmult_le_reg_r with (IZR (2 ^ (- e))); [exact Hd' |].
        unfold Rdiv. rewrite Rmult_assoc, Rinv_l by lra.
        apply IZR_le in Hnear. rewrite mult_IZR in Hnear. lra.
      * intros Heq. rewrite even_cond_Zopp. apply Htie.
        apply eq_IZR. rewrite mult_IZR.
        apply (f_equal (fun r => r * IZR (2 ^ (- e)))%R) in Heq.
        unfold Rdiv in Heq. rewrite Rmult_assoc, Rinv_l in Heq by lra. lra.
Qed.

Lemma nearest_even_multiple (n d : Z) : 0 < d -> nearest_even (n * d) d = n.
Proof.
  intros Hd. unfold nearest_even.
  rewrite Z.div_mul, Z.mod_mul by lia.
  destruct (Z.compare_spec (2 * 0) d); lia || reflexivity.
Qed.

Lemma nearbyintf_integral (s : bool) (n : Z) :
  0 <= n < 2 ^ 24 -> nearbyintf (integral s n) = integral s n.
Proof.
  intros Hn. destruct (Z.eq_dec n 0) as [-> | Hnz]; [reflexivity |].
  destruct (integral_exact s n ltac:(lia)) as (m & e & E & He & Hm & _).
  rewrite E. cbn [nearbyintf].
  destruct (Z.leb_spec 0 e) as [_ | Hneg]; [reflexivity |].
  rewrite Hm, nearest_even_multiple by (apply Z.pow_pos_nonneg; lia).
  exact E.
Qed.

Lemma SFopp_binary_round_aux (s : bool) (m e : Z) (l : location) :
  SFopp (binary_round_aux F32.prec F32.emax s m e l)
  = binary_round_aux F32.prec F32.emax (negb s) m e l.
Proof.
  unfold binary_round_aux.
  destruct (shr_fexp F32.prec F32.emax m e l) as [mrs' e'].
  destruct (shr_fexp F32.prec F32.emax _ e' loc_Exact) as [mrs'' e''].
  destruct (shr_m mrs''); try reflexivity.
  destruct (e'' <=? F32.emax - F32.prec); reflexivity.
Qed.

Lemma SFopp_integral (s : bool) (n : Z) :
  0 <= n -> SFopp (integral s n) = integral (negb s) n.
Proof.
  intros Hn. destruct n as [| p | p]; [reflexivity | | lia].
  assert (forall b, integral b (Zpos p) = binary_round F32.prec F32.emax b p 0)
    as E by (intros []; reflexivity).
  rewrite !E. unfold binary_round.
  destruct (shl_align p 0 _) as [mz ez].
  apply SFopp_binary_round_aux.
Qed.


(** ** The rounding function on its own *)

(** A real number has one nearest integer with ties to even. *)
Lemma nearest_ties_even_real_unique (v : R) (n n' : Z) :
  (Rabs (IZR n - v) <= / 2)%R ->
  ((Rabs (IZR n - v) = / 2)%R -> Z.even n = true) ->
  (Rabs (IZR n' - v) <= / 2)%R ->
  ((Rabs (IZR n' - v) = / 2)%R -> Z.even n' = true) ->
  n' = n.
Proof.
  assert (forall a b : Z,
            (Rabs (IZR a - v) <= / 2)%R ->
            ((Rabs (IZR a - v) = / 2)%R -> Z.even a = true) ->
            (Rabs (IZR b - v) <= / 2)%R ->
            ((Rabs (IZR b - v) = / 2)%R -> Z.even b = true) ->
            ~ a < b) as Hlt.
  { intros a b Ha Ea Hb Eb Hab.
    assert (IZR a + 1 <= IZR b)%R as Hgap
        by (rewrite <- plus_IZR; apply IZR_le; lia).
    pose proof (Rabs_le_inv _ _ Ha) as Ba.
    pose proof (Rabs_le_inv _ _ Hb) as Bb.
    assert (IZR a - v = - / 2)%R as Ha' by lra.
    assert (IZR b - v = / 2)%R as Hb' by lra.
    assert (Z.even a = true) as Eva
        by (apply Ea; rewrite Ha', Rabs_Ropp; apply Rabs_pos_eq; lra).
    assert (Z.even b = true) as Evb
        by (apply Eb; rewrite Hb'; apply Rabs_pos_eq; lra).
    assert (b = a + 1) as E by (apply eq_IZR; rewrite plus_IZR; lra).
    apply Z.even_spec in Eva as [k Hk]. apply Z.even_spec in Evb as [l Hl].
    lia. }
  intros Hn En Hn' En'.
  pose proof (Hlt n n' Hn En Hn' En'). pose proof (Hlt n' n Hn' En' Hn En).
  lia.
Qed.

(** X1.  [RoundHalfToEven] of any finite number, not only of a clamped
    one: the result is a finite number whose value is an integer [n];
    [n] is within 1/2 of the argument and is even when the argument lies
    halfway between two integers, and it is the only integer with these
    two properties; converting the result to an integer yields [n]. *)
Theorem RoundHalfToEven_contract (x : float) :
  fin x ->
  exists n : Z,
    fin (RoundHalfToEven x)
    /\ value (RoundHalfToEven x) = IZR n
    /\ truncate (RoundHalfToEven x) = n
    /\ (Rabs (IZR n - value x) <= / 2)%R
    /\ ((Rabs (IZR n - value x) = / 2)%R -> Z.even n = true)
    /\ (forall n' : Z,
          (Rabs (IZR n' - value x) <= / 2)%R ->
          ((Rabs (IZR n' - value x) = / 2)%R -> Z.even n' = true) ->
          n' = n).
Proof.
  intros Hx.
  destruct (RoundHalfToEven_nearest x Hx) as (n & Hf & Hv & Ht & Hn & He).
  exists n. do 5 (split; [assumption |]).
  intros n' Hn' He'.
  exact (nearest_ties_even_real_unique (value x) n n' Hn He Hn' He').
Qed.

Lemma RoundHalfToEven_contract_witness :
  fin (S754_finite true 10485760 (-22))
  /\ RoundHalfToEven (S754_finite true 10485760 (-22)) = F32.of_Z (-2)
  /\ exists n : Z,
       fin (RoundHalfToEven (S754_finite true 10485760 (-22)))
       /\ value (RoundHalfToEven (S754_finite true 10485760 (-22))) = IZR n
       /\ truncate (RoundHalfToEven (S754_finite true 10485760 (-22))) = n
       /\ (Rabs (IZR n - value (S754_finite true 10485760 (-22))) <= / 2)%R
       /\ ((Rabs (IZR n - value (S754_finite true 10485760 (-22))) = / 2)%R ->
           Z.even n = true)
       /\ (forall n' : Z,
             (Rabs (IZR n' - value (S754_finite true 10485760 (-22))) <= / 2)%R ->
             ((Rabs (IZR n' - value (S754_finite true 10485760 (-22))) = / 2)%R ->
              Z.even n' = true) ->
             n' = n).
Proof.
  assert (fin (S754_finite true 10485760 (-22))) as Hf by (split; reflexivity).
  split; [exact Hf |]. split; [reflexivity |].
  exact (RoundHalfToEven_contract (S754_finite true 10485760 (-22)) Hf).
Defined.

(** X2.  [RoundHalfToEven] is idempotent on every well-formed [float],
    finite or not: rounding a rounded value changes nothing. *)
Theorem RoundHalfToEven_idempotent (x : float) :
  F32.valid x = true ->
  RoundHalfToEven (RoundHalfToEven x) = RoundHalfToEven x.
Proof.
  intros Hv. unfold RoundHalfToEven. cbv zeta.
  destruct x as [s | s | | s m e]; try reflexivity.
  cbn [nearbyintf]. destruct (Z.leb_spec 0 e) as [He | He].
  - cbn [nearbyintf]. destruct (Z.leb_spec 0 e); [reflexivity | lia].
  - apply nearbyintf_integral, nearest_even_small; [| exact He].
    exact (fin_bounded (S754_finite s m e) (conj Hv eq_refl)).
Qed.

Lemma RoundHalfToEven_idempotent_witness :
  F32.valid (S754_finite false 14680064 (-22)) = true
  /\ RoundHalfToEven (S754_finite false 14680064 (-22)) = F32.of_Z 4
  /\ RoundHalfToEven (RoundHalfToEven (S754_finite false 14680064 (-22)))
     = RoundHalfToEven (S754_finite false 14680064 (-22)).
Proof.
  split; [reflexivity |]. split; [reflexivity |].
  apply (RoundHalfToEven_idempotent (S754_finite false 14680064 (-22))).
  reflexivity.
Defined.

(** X3.  [RoundHalfToEven] commutes with negation, for every [float]:
    ties go to the even integer on both sides of zero, and the sign of a
    zero result follows the sign of the argument. *)
Theorem RoundHalfToEven_odd (x : float) :
  RoundHalfToEven (SFopp x) = SFopp (RoundHalfToEven x).
Proof.
  unfold RoundHalfToEven. cbv zeta.
  destruct x as [s | s | | s m e]; try reflexivity.
  cbn [SFopp nearbyintf].
  destruct (0 <=? e); [reflexivity |].
  symmetry. apply SFopp_integral.
  destruct (Z.le_gt_cases 0 (- e)) as [He | He].
  - assert (0 < 2 ^ (- e)) as Hd by (apply Z.pow_pos_nonneg; lia).
    destruct (nearest_even_spec (Zpos m) (2 ^ (- e)) Hd ltac:(lia))
      as [_ [Hlo _]].
    assert (0 <= Zpos m / 2 ^ (- e)) by (apply Z.div_pos; lia). lia.
  - rewrite Z.pow_neg_r by lia. cbv. discriminate.
Qed.

(** X4.  [RoundHalfToEven] is monotone on finite numbers: if [x <= y]
    then [RoundHalfToEven x <= RoundHalfToEven y]. *)
Theorem RoundHalfToEven_monotone (x y : float) :
  fin x -> fin y -> F32.leb x y = true ->
  F32.leb (RoundHalfToEven x) (RoundHalfToEven y) = true.
Proof.
  intros Hx Hy Hle. apply (F32_leb_value x y Hx Hy) in Hle.
  destruct (RoundHalfToEven_nearest x Hx) as (nx & Fx & Vx & _ & Hnx & Htx).
  destruct (RoundHalfToEven_nearest y Hy) as (ny & Fy & Vy & _ & Hny & Hty).
  apply (F32_leb_value _ _ Fx Fy). rewrite Vx, Vy. clear Fx Fy Vx Vy.
  apply IZR_le. destruct (Z.le_gt_cases nx ny) as [H | H]; [exact H | exfalso].
  assert (IZR ny + 1 <= IZR nx)%R as Hgap
      by (rewrite <- plus_IZR; apply IZR_le; lia).
  pose proof (Rabs_le_inv _ _ Hnx) as Bx.
  pose proof (Rabs_le_inv _ _ Hny) as By.
  assert (IZR nx - value x = / 2)%R as Ex by lra.
  assert (IZR ny - value y = - / 2)%R as Ey by lra.
  assert (Z.even nx = true) as Evx
      by (apply Htx; rewrite Ex; apply Rabs_pos_eq; lra).
  assert (Z.even ny = true) as Evy.
  { apply Hty. rewrite Ey, Rabs_Ropp. apply Rabs_pos_eq. lra. }
  assert (nx = ny + 1) as E.
  { apply eq_IZR. rewrite plus_IZR. lra. }
  apply Z.even_spec in Evx as [a Ha]. apply Z.even_spec in Evy as [b Hb]. lia.
Qed.

Lemma RoundHalfToEven_monotone_witness :
  fin (S754_finite false 10485760 (-22))
  /\ fin (S754_finite false 14680064 (-22))
  /\ F32.leb (S754_finite false 10485760 (-22))
       (S754_finite false 14680064 (-22)) = true
  /\ F32.leb (RoundHalfToEven (S754_finite false 10485760 (-22)))
       (RoundHalfToEven (S754_finite false 14680064 (-22))) = true.
Proof.
  assert (fin (S754_finite false 10485760 (-22))) as Hx by (split; reflexivity).
  assert (fin (S754_finite false 14680064 (-22))) as Hy by (split; reflexivity).
  assert (F32.leb (S754_finite false 10485760 (-22))
            (S754_finite false 14680064 (-22)) = true) as Hle by reflexivity.
  split; [exact Hx |]. split; [exact Hy |]. split; [exact Hle |].
  exact (RoundHalfToEven_monotone _ _ Hx Hy Hle).
Defined.

(** ** The scale and the zero point, whatever the pool does *)

Lemma Compute_parameters (T : int_type) (tp : ThreadPool) (y0 : list Z)
    (x0 : float) (rest : list float) :
  exists ys,
    Compute T tp y0 (x0 :: rest) =
    Some {| Y := ys;
            Y_scale := derived_scale T x0 rest;
            Y_zero_point := derived_zero_point T x0 rest |}.
Proof. eexists. reflexivity. Qed.

Lemma value_range_min (m : float) :
  fin m -> value (range_min m) = Rmin (value m) 0.
Proof.
  intros Hm. destruct (range_min_value m Hm) as (_ & H0 & Hle).
  unfold range_min in *.
  destruct (std_min_cases m (S754_zero false)) as [E | E]; rewrite E in *.
  - rewrite Rmin_left; [reflexivity | exact H0].
  - change (value (S754_zero false)) with 0%R in *.
    rewrite Rmin_right; [reflexivity | exact Hle].
Qed.

Lemma value_range_max (m : float) :
  fin m -> value (range_max m) = Rmax (value m) 0.
Proof.
  intros Hm. destruct (range_max_value m Hm) as (_ & H0 & Hle).
  unfold range_max in *.
  destruct (std_max_cases m (S754_zero false)) as [E | E]; rewrite E in *.
  - rewrite Rmax_left; [reflexivity | exact H0].
  - change (value (S754_zero false)) with 0%R in *.
    rewrite Rmax_right; [reflexivity | exact Hle].
Qed.

(** The two roundings behind a normal scale: the subtraction and the
    division each lose at most one part in [2^23]. *)
Lemma scale_error (mn mx : float) :
  fin mn -> fin mx -> (value mn <= 0 <= value mx)%R ->
  F32.is_finite (compute_scale uint8_t mn mx) = true ->
  F32.leb FLT_MIN (compute_scale uint8_t mn mx) = true ->
  (Rabs (255 * value (compute_scale uint8_t mn mx) - (value mx - value mn))
   <= / 2097152 * (255 * value (compute_scale uint8_t mn mx)))%R.
Proof.
  intros Hmn Hmx Hsign. unfold compute_scale. rewrite uint8_range_width.
  pose proof (sub_rounded mx mn Hmx Hmn) as Hd.
  destruct (F32.sub mx mn) as [sd | sd | | sd md ed] eqn:Ed;
    try (intros Hf; discriminate Hf); try (intros _ Hl; discriminate Hl).
  intros Hf Hl.
  pose proof (div_rounded (S754_finite sd md ed) (F32.of_Z 255)
                false 16711680 (-16)) as Hs.
  assert (fin (S754_finite sd md ed)) as Fd
      by (split; [apply Hd | reflexivity]).
  specialize (Hs Fd eq_refl). rewrite value_255 in Hs.
  set (s := F32.div (S754_finite sd md ed) (F32.of_Z 255)) in *.
  assert (fin s) as Fs by (split; [apply Hs | exact Hf]).
  pose proof (F32_leb_value FLT_MIN s fin_FLT_MIN Fs) as Hle.
  rewrite value_FLT_MIN in Hle. apply Hle in Hl.
  pose proof (bpow_gt_0 (-126)) as H126.
  assert (Rabs (value s - value (S754_finite sd md ed) / 255)
          <= / 8388608 * value s)%R as Es.
  { destruct Hs as [_ Hs].
    assert (Rabs (value s - value (S754_finite sd md ed) / 255) <= ulp32 s)%R
      as Hu by (destruct s; try discriminate Hf; exact Hs).
    eapply Rle_trans; [exact Hu |].
    rewrite <- (Rabs_pos_eq (value s)) at 1 by lra.
    apply ulp32_normal; [exact Fs |]. rewrite Rabs_pos_eq; lra. }
  apply Rabs_le_inv in Es.
  set (d := value (S754_finite sd md ed)) in *.
  assert (bpow (-126) <= d)%R as Hdn by lra.
  assert (Rabs (d - (value mx - value mn)) <= / 8388608 * d)%R as Ed'.
  { destruct Hd as [_ Hd].
    eapply Rle_trans; [exact Hd |].
    rewrite <- (Rabs_pos_eq d) at 1 by lra.
    apply ulp32_normal; [exact Fd |]. fold d. rewrite Rabs_pos_eq; lra. }
  apply Rabs_le_inv in Ed'.
  apply Rabs_le. split; nra.
Qed.

(** The zero point against the exact quotient [- min / scale]. *)
Lemma zero_point_near (mn mx : float) :
  fin mn -> fin mx -> (value mn <= 0 <= value mx)%R ->
  F32.is_finite (compute_scale uint8_t mn mx) = true ->
  F32.leb FLT_MIN (compute_scale uint8_t mn mx) = true ->
  let scale := compute_scale uint8_t mn mx in
  let zp := compute_zero_point uint8_t mn scale in
  0 <= zp <= 255
  /\ (0 < value scale)%R
  /\ (Rabs (IZR zp - - value mn / value scale) <= / 2 + / 1000)%R.
Proof.
  intros Fmn Fmx Hsign Hfs Hls. cbv zeta.
  destruct (scale_normal mn mx Fmn Fmx Hsign Hfs Hls)
    as (Fs & Ess & Hnorm & Hwidth).
  pose proof (scale_error mn mx Fmn Fmx Hsign Hfs Hls) as Herr.
  set (scale := compute_scale uint8_t mn mx) in *.
  pose proof (bpow_gt_0 (-126)) as H126.
  assert (0 < value scale)%R as Hpos by lra.
  destruct (div_by_scale mn scale Fmn Fs Ess Hpos) as (Ft & Nt & Bt).
  { rewrite Rabs_left1 by lra. nra. }
  destruct (initial_zero_point_value mn scale Ft) as (Fi & Vi).
  pose proof (quantize_clamp_round _ Fi) as [Hzp Czp]. cbv zeta in Hzp, Czp.
  change (clamp (F32.of_Z 0) (F32.of_Z 255) (initial_zero_point uint8_t mn scale))
    with (std_max (qmin uint8_t)
            (std_min (qmax uint8_t) (initial_zero_point uint8_t mn scale)))
    in Hzp, Czp.
  fold (compute_zero_point uint8_t mn scale) in Hzp, Czp.
  set (zp := compute_zero_point uint8_t mn scale) in *.
  split; [exact Hzp |]. split; [exact Hpos |].
  assert (near (value (initial_zero_point uint8_t mn scale))
            (- value mn / value scale)) as Ni.
  { unfold near in *. rewrite Vi.
    replace (- value (F32.div mn scale) - - value mn / value scale)%R
      with (- (value (F32.div mn scale) - value mn / value scale))%R
      by (unfold Rdiv; ring).
    rewrite !Rabs_Ropp. exact Nt. }
  set (izp := value (initial_zero_point uint8_t mn scale)) in *.
  set (rho := (- value mn / value scale)%R) in *.
  assert (0 <= rho <= 255 + / 1000)%R as Hrho.
  { assert (/ value scale > 0)%R as Hinv
        by (apply Rinv_0_lt_compat; exact Hpos).
    subst rho. unfold Rdiv. split; [nra |].
    apply Rmult_le_reg_r with (value scale); [exact Hpos |].
    rewrite Rmult_assoc, Rinv_l by lra. lra. }
  clearbody izp rho zp.
  unfold near, clamp_round in *. apply Rabs_le_inv in Ni.
  apply Rabs_le.
  assert (Rabs izp = izp \/ Rabs izp = - izp)%R as [Ha | Ha]
      by (unfold Rabs; destruct (Rcase_abs izp); auto);
    rewrite Ha in Ni;
    destruct Czp as [[Hz1 Hz2] | [[Hz1 Hz2] | [Hz1 Hz2]]];
    try apply Rabs_le_inv in Hz2; lra.
Qed.

(** ** Degenerate scales *)

(** X5.  Whatever the pool does, whenever the returned scale is a zero
    (of either sign) or a NaN, the returned zero point is 255: the
    quotient [min / scale] of line 65 is then a NaN or an infinity, and
    the clamp of line 66 sends it to [qmax]. *)
Theorem degenerate_scale_zero_point (tp : ThreadPool) (y0 : list Z)
    (x : list float) :
  x <> [] ->
  exists out,
    Compute uint8_t tp y0 x = Some out
    /\ (is_zero (Y_scale out) \/ Y_scale out = S754_nan ->
        Y_zero_point out = 255).
Proof.
  intros Hne. destruct x as [| x0 rest]; [congruence |].
  destruct (Compute_parameters uint8_t tp y0 x0 rest) as [ys ->].
  eexists; split; [reflexivity |]. cbn [Y_scale Y_zero_point].
  unfold derived_zero_point, derived_scale.
  intros [Hz | Hn].
  - destruct (compute_scale uint8_t _ _) as [s | | |] eqn:E; try contradiction.
    eapply zero_point_zero_scale;
      [apply range_min_shape | apply range_max_shape | exact E].
  - rewrite Hn. apply zero_point_nan_scale.
Qed.

Lemma degenerate_scale_zero_point_witness :
  exists out,
    Compute uint8_t sequential [0; 0] [S754_finite true 5 (-149); fzero]
      = Some out
    /\ is_zero (Y_scale out)
    /\ Y_zero_point out = 255.
Proof.
  destruct (degenerate_scale_zero_point sequential [0; 0]
              [S754_finite true 5 (-149); fzero])
    as [out [Hout Hzp]].
  - discriminate.
  - exists out. split; [exact Hout |].
    assert (is_zero (Y_scale out)) as Hz.
    { vm_compute in Hout. injection Hout as <-. exact I. }
    split; [exact Hz | exact (Hzp (or_introl Hz))].
Defined.

(** X6.  Whatever the pool does, whenever the returned scale is an
    infinity (an infinite element, or a range [max - min] beyond
    [FLT_MAX]), the returned zero point is 0, unless the minimum itself
    is minus infinity, in which case it is 255. *)
Theorem infinite_scale_zero_point (tp : ThreadPool) (y0 : list Z)
    (x : list float) :
  x <> [] ->
  exists out lo,
    Compute uint8_t tp y0 x = Some out
    /\ minCoeff x = Some lo
    /\ ((exists s, Y_scale out = S754_infinity s) ->
        (lo = S754_infinity true -> Y_zero_point out = 255)
        /\ (lo <> S754_infinity true -> Y_zero_point out = 0)).
Proof.
  intros Hne. destruct x as [| x0 rest]; [congruence |].
  destruct (Compute_parameters uint8_t tp y0 x0 rest) as [ys ->].
  eexists; eexists; split; [reflexivity |]. split; [reflexivity |].
  cbn [Y_scale Y_zero_point].
  unfold derived_zero_point, derived_scale, derived_min.
  intros [s Hs]. rewrite Hs.
  destruct (fold_left std_min rest x0) as [[] | [] | | [] m e];
    try (split; [intros E; try discriminate E; try reflexivity
                | intros E; try congruence; destruct s; reflexivity]).
  exfalso. revert Hs. unfold compute_scale.
  destruct (derived_max x0 rest) as [? | ? | | ? ? ?]; discriminate.
Qed.

Lemma infinite_scale_zero_point_witness :
  exists out lo,
    Compute uint8_t sequential [0; 0] [FLT_MAX; SFopp FLT_MAX] = Some out
    /\ minCoeff [FLT_MAX; SFopp FLT_MAX] = Some lo
    /\ (exists s, Y_scale out = S754_infinity s)
    /\ lo <> S754_infinity true
    /\ Y_zero_point out = 0.
Proof.
  destruct (infinite_scale_zero_point sequential [0; 0]
              [FLT_MAX; SFopp FLT_MAX])
    as (out & lo & Hout & Hlo & Hzp).
  - discriminate.
  - exists out, lo. split; [exact Hout |]. split; [exact Hlo |].
    assert (exists s, Y_scale out = S754_infinity s) as Hs.
    { vm_compute in Hout. injection Hout as <-. exists false. reflexivity. }
    assert (lo <> S754_infinity true) as Hl.
    { vm_compute in Hlo. injection Hlo as <-. discriminate. }
    split; [exact Hs |]. split; [exact Hl |].
    exact (proj2 (Hzp Hs) Hl).
Defined.

(** ** Accuracy of the scale and of the zero point *)

Lemma derived_extremes (x0 : float) (rest : list float) :
  Forall fin (x0 :: rest) ->
  fin (fold_left std_min rest x0) /\ fin (fold_left std_max rest x0)
  /\ value (derived_min x0 rest) = Rmin (value (fold_left std_min rest x0)) 0
  /\ value (derived_max x0 rest) = Rmax (value (fold_left std_max rest x0)) 0.
Proof.
  intros Hfin.
  destruct (fold_min_value x0 rest Hfin) as [Flo _].
  destruct (fold_max_value x0 rest Hfin) as [Fhi _].
  repeat split; try apply Flo; try apply Fhi.
  - apply value_range_min, Flo.
  - apply value_range_max, Fhi.
Qed.

(** X7.  For a non-empty input of finite numbers whose returned scale is
    a finite normal number, the scale is the exact quotient
    [(max - min) / 255] of the zero-extended range up to a relative error
    of [2^-21]: the subtraction and the division of line 61 are the only
    roundings. *)
Theorem scale_relative_error (tp : ThreadPool) (y0 : list Z)
    (x : list float) :
  x <> [] -> Forall fin x ->
  exists out lo hi,
    Compute uint8_t tp y0 x = Some out
    /\ minCoeff x = Some lo /\ maxCoeff x = Some hi
    /\ (F32.is_finite (Y_scale out) = true ->
        F32.leb FLT_MIN (Y_scale out) = true ->
        (Rabs (255 * value (Y_scale out)
               - (Rmax (value hi) 0 - Rmin (value lo) 0))
         <= / 2097152 * (255 * value (Y_scale out)))%R).
Proof.
  intros Hne Hfin. destruct x as [| x0 rest]; [congruence |].
  destruct (Compute_parameters uint8_t tp y0 x0 rest) as [ys ->].
  do 3 eexists. split; [reflexivity |]. do 2 (split; [reflexivity |]).
  cbn [Y_scale]. intros Hf Hn.
  destruct (derived_range x0 rest Hfin) as (Fmn & Fmx & Hsign & _).
  destruct (derived_extremes x0 rest Hfin) as (_ & _ & <- & <-).
  apply scale_error; assumption.
Qed.

Lemma scale_relative_error_witness :
  exists out lo hi,
    Compute uint8_t sequential [0; 0; 0] [F32.of_Z 4; F32.of_Z (-6); F32.of_Z 1]
      = Some out
    /\ minCoeff [F32.of_Z 4; F32.of_Z (-6); F32.of_Z 1] = Some lo
    /\ maxCoeff [F32.of_Z 4; F32.of_Z (-6); F32.of_Z 1] = Some hi
    /\ F32.is_finite (Y_scale out) = true
    /\ F32.leb FLT_MIN (Y_scale out) = true
    /\ (Rabs (255 * value (Y_scale out)
              - (Rmax (value hi) 0 - Rmin (value lo) 0))
        <= / 2097152 * (255 * value (Y_scale out)))%R.
Proof.
  destruct (scale_relative_error sequential [0; 0; 0]
              [F32.of_Z 4; F32.of_Z (-6); F32.of_Z 1])
    as (out & lo & hi & Hout & Hlo & Hhi & Hacc).
  - discriminate.
  - repeat constructor.
  - exists out, lo, hi. do 3 (split; [assumption |]).
    assert (Y_scale out = S754_finite false 10526881 (-28)) as Hs.
    { vm_compute in Hout. injection Hout as <-. reflexivity. }
    assert (F32.is_finite (Y_scale out) = true) as Hf
        by (rewrite Hs; reflexivity).
    assert (F32.leb FLT_MIN (Y_scale out) = true) as Hn
        by (rewrite Hs; reflexivity).
    split; [exact Hf |]. split; [exact Hn |]. exact (Hacc Hf Hn).
Defined.

Lemma derived_endpoints (x0 : float) (rest : list float) :
  Forall fin (x0 :: rest) ->
  F32.is_finite (derived_scale uint8_t x0 rest) = true ->
  F32.leb FLT_MIN (derived_scale uint8_t x0 rest) = true ->
  (0 < value (derived_scale uint8_t x0 rest))%R
  /\ (Rabs ((0 - IZR (derived_zero_point uint8_t x0 rest))
            * value (derived_scale uint8_t x0 rest)
            - value (derived_min x0 rest))
      <= 51 / 100 * value (derived_scale uint8_t x0 rest))%R
  /\ (Rabs ((255 - IZR (derived_zero_point uint8_t x0 rest))
            * value (derived_scale uint8_t x0 rest)
            - value (derived_max x0 rest))
      <= 51 / 100 * value (derived_scale uint8_t x0 rest))%R.
Proof.
  intros Hfin Hf Hn.
  destruct (derived_range x0 rest Hfin) as (Fmn & Fmx & Hsign & _).
  unfold derived_zero_point, derived_scale in *.
  pose proof (scale_error _ _ Fmn Fmx Hsign Hf Hn) as Herr.
  destruct (zero_point_near _ _ Fmn Fmx Hsign Hf Hn) as (_ & Hpos & Hzp).
  cbv zeta in Hpos, Hzp.
  set (mn := value (derived_min x0 rest)) in *.
  set (mx := value (derived_max x0 rest)) in *.
  set (s := value (compute_scale uint8_t _ _)) in *.
  set (zp := IZR (compute_zero_point uint8_t _ _)) in *.
  clearbody mn mx s zp.
  assert (Rabs ((zp - - mn / s) * s) <= (/ 2 + / 1000) * s)%R as Hz.
  { rewrite Rabs_mult, (Rabs_pos_eq s) by lra.
    apply Rmult_le_compat_r; lra. }
  replace ((zp - - mn / s) * s)%R with (zp * s + mn)%R in Hz by (field; lra).
  apply Rabs_le_inv in Hz, Herr.
  split; [exact Hpos |]. split; apply Rabs_le; lra.
Qed.

(** X8.  For a non-empty input of finite numbers whose returned scale is
    a finite normal number, the quantized range covers the zero-extended
    input range: the codes 0 and 255 dequantize, in exact arithmetic, to
    within 0.51 [Y_scale] of [min] and of [max]. *)
Theorem range_endpoints (tp : ThreadPool) (y0 : list Z) (x : list float) :
  x <> [] -> Forall fin x ->
  exists out lo hi,
    Compute uint8_t tp y0 x = Some out
    /\ minCoeff x = Some lo /\ maxCoeff x = Some hi
    /\ (F32.is_finite (Y_scale out) = true ->
        F32.leb FLT_MIN (Y_scale out) = true ->
        (Rabs ((0 - IZR (Y_zero_point out)) * value (Y_scale out)
               - Rmin (value lo) 0)
         <= 51 / 100 * value (Y_scale out))%R
        /\ (Rabs ((255 - IZR (Y_zero_point out)) * value (Y_scale out)
                  - Rmax (value hi) 0)
            <= 51 / 100 * value (Y_scale out))%R).
Proof.
  intros Hne Hfin. destruct x as [| x0 rest]; [congruence |].
  destruct (Compute_parameters uint8_t tp y0 x0 rest) as [ys ->].
  do 3 eexists. split; [reflexivity |]. do 2 (split; [reflexivity |]).
  cbn [Y_scale Y_zero_point]. intros Hf Hn.
  destruct (derived_extremes x0 rest Hfin) as (_ & _ & <- & <-).
  apply derived_endpoints; assumption.
Qed.

Lemma range_endpoints_witness :
  exists out lo hi,
    Compute uint8_t sequential [0; 0; 0] [F32.of_Z 4; F32.of_Z (-6); F32.of_Z 1]
      = Some out
    /\ minCoeff [F32.of_Z 4; F32.of_Z (-6); F32.of_Z 1] = Some lo
    /\ maxCoeff [F32.of_Z 4; F32.of_Z (-6); F32.of_Z 1] = Some hi
    /\ F32.is_finite (Y_scale out) = true
    /\ F32.leb FLT_MIN (Y_scale out) = true
    /\ (Rabs ((0 - IZR (Y_zero_point out)) * value (Y_scale out)
              - Rmin (value lo) 0)
        <= 51 / 100 * value (Y_scale out))%R
    /\ (Rabs ((255 - IZR (Y_zero_point out)) * value (Y_scale out)
              - Rmax (value hi) 0)
        <= 51 / 100 * value (Y_scale out))%R.
Proof.
  destruct (range_endpoints sequential [0; 0; 0]
              [F32.of_Z 4; F32.of_Z (-6); F32.of_Z 1])
    as (out & lo & hi & Hout & Hlo & Hhi & Hacc).
  - discriminate.
  - repeat constructor.
  - exists out, lo, hi. do 3 (split; [assumption |]).
    assert (Y_scale out = S754_finite false 10526881 (-28)) as Hs.
    { vm_compute in Hout. injection Hout as <-. reflexivity. }
    assert (F32.is_finite (Y_scale out) = true) as Hf
        by (rewrite Hs; reflexivity).
    assert (F32.leb FLT_MIN (Y_scale out) = true) as Hn
        by (rewrite Hs; reflexivity).
    split; [exact Hf |]. split; [exact Hn |]. exact (Hacc Hf Hn).
Defined.

(** X9.  The mirror image of the non-negative case: for a non-empty
    input of finite numbers none of which is above zero, and whose
    returned scale is a finite normal number, the returned zero point is
    255.  (For a positive subnormal scale it need not be: the scale is
    then too coarse a quotient.) *)
Theorem nonpos_input_zero_point (tp : ThreadPool) (y0 : list Z)
    (x : list float) :
  x <> [] -> Forall fin x ->
  Forall (fun v => F32.leb v fzero = true) x ->
  exists out,
    Compute uint8_t tp y0 x = Some out
    /\ (F32.is_finite (Y_scale out) = true ->
        F32.leb FLT_MIN (Y_scale out) = true ->
        Y_zero_point out = 255).
Proof.
  intros Hne Hfin Hneg. destruct x as [| x0 rest]; [congruence |].
  destruct (Compute_parameters uint8_t tp y0 x0 rest) as [ys ->].
  eexists. split; [reflexivity |].
  cbn [Y_scale Y_zero_point]. intros Hf Hn.
  destruct (derived_range x0 rest Hfin) as (Fmn & Fmx & Hsign & _).
  destruct (derived_extremes x0 rest Hfin) as (_ & Fhi & _ & Emx).
  assert (value (derived_max x0 rest) = 0)%R as Hmx.
  { rewrite Emx. apply Rmax_right.
    pose proof (fold_left_In std_max std_max_cases rest x0) as Hin.
    rewrite Forall_forall in Hneg. specialize (Hneg _ Hin).
    apply (F32_leb_value _ fzero Fhi (fin_zero false)) in Hneg.
    exact Hneg. }
  unfold derived_zero_point, derived_scale in *.
  pose proof (scale_error _ _ Fmn Fmx Hsign Hf Hn) as Herr.
  destruct (zero_point_near _ _ Fmn Fmx Hsign Hf Hn) as (Hr & Hpos & Hzp).
  cbv zeta in Hr, Hpos, Hzp. rewrite Hmx in Herr.
  set (zp := compute_zero_point uint8_t _ _) in *.
  assert (254 < IZR zp)%R as Hlow.
  { set (mn := value (derived_min x0 rest)) in *.
    set (s := value (compute_scale uint8_t _ _)) in *.
    clearbody mn s zp.
    assert (Rabs ((IZR zp - - mn / s) * s) <= (/ 2 + / 1000) * s)%R as Hz.
    { rewrite Rabs_mult, (Rabs_pos_eq s) by lra.
      apply Rmult_le_compat_r; lra. }
    replace ((IZR zp - - mn / s) * s)%R with (IZR zp * s + mn)%R in Hz
      by (field; lra).
    apply Rabs_le_inv in Hz, Herr. nra. }
  apply lt_IZR in Hlow. lia.
Qed.

Lemma nonpos_input_zero_point_witness :
  exists out,
    Compute uint8_t sequential [0; 0] [F32.of_Z (-3); S754_zero true]
      = Some out
    /\ F32.is_finite (Y_scale out) = true
    /\ F32.leb FLT_MIN (Y_scale out) = true
    /\ Y_zero_point out = 255.
Proof.
  destruct (nonpos_input_zero_point sequential [0; 0]
              [F32.of_Z (-3); S754_zero true])
    as (out & Hout & Hzp).
  - discriminate.
  - repeat constructor.
  - repeat constructor.
  - exists out. split; [exact Hout |].
    assert (F32.is_finite (Y_scale out) = true
            /\ F32.leb FLT_MIN (Y_scale out) = true) as [Hf Hn].
    { vm_compute in Hout. injection Hout as <-. split; reflexivity. }
    split; [exact Hf |]. split; [exact Hn |]. exact (Hzp Hf Hn).
Defined.

(** For a positive subnormal scale the zero point of a non-positive
    input can be anything: here it is 200. *)
Example nonpos_subnormal_scale :
  Compute uint8_t sequential [0] [S754_finite true 400 (-149)] =
    Some {| Y := [0]; Y_scale := S754_finite false 2 (-149);
            Y_zero_point := 200 |}.
Proof. reflexivity. Qed.

(** X10.  The quantized range is used in full: for a non-empty input of
    finite numbers whose returned scale is a finite normal number, a
    largest element that is not below zero is quantized to 254 or 255,
    and a smallest element that is not above zero to 0 or 1. *)
Theorem extreme_elements (tp : ThreadPool) (y0 : list Z) (x : list float) :
  serves tp (length x) = true -> length y0 = length x -> x <> [] ->
  Forall fin x ->
  exists out lo hi,
    Compute uint8_t tp y0 x = Some out
    /\ minCoeff x = Some lo /\ maxCoeff x = Some hi
    /\ (F32.is_finite (Y_scale out) = true ->
        F32.leb FLT_MIN (Y_scale out) = true ->
        forall i v q,
          nth_error x i = Some v -> nth_error (Y out) i = Some q ->
          (value v = value hi -> (0 <= value hi)%R -> 254 <= q <= 255)
          /\ (value v = value lo -> (value lo <= 0)%R -> 0 <= q <= 1)).
Proof.
  intros Htp Hlen Hne Hfin. destruct x as [| x0 rest]; [congruence |].
  rewrite Compute_nonempty by assumption.
  do 3 eexists. split; [reflexivity |]. do 2 (split; [reflexivity |]).
  cbn [Y Y_scale Y_zero_point]. intros Hf Hn i v q Hv Hq.
  rewrite nth_error_map, Hv in Hq. cbn [option_map] in Hq.
  assert (q = quantize_one uint8_t (derived_scale uint8_t x0 rest)
                (derived_zero_point uint8_t x0 rest) v) as Eq
      by congruence.
  clear Hq.
  pose proof (roundtrip_bound x0 rest v Hfin (nth_error_In _ _ Hv) Hf Hn)
    as Hround.
  rewrite <- Eq in Hround.
  destruct (derived_endpoints x0 rest Hfin Hf Hn) as (Hpos & Hlo & Hhi).
  destruct (derived_extremes x0 rest Hfin) as (_ & _ & Emn & Emx).
  rewrite Emn in Hlo. rewrite Emx in Hhi.
  assert (0 <= q < 256) as Hq
      by (rewrite Eq; unfold quantize_one; cbn [static_cast uint8_t];
          apply Z.mod_pos_bound; lia).
  clear Eq.
  set (s := value (derived_scale uint8_t x0 rest)) in *.
  set (zp := IZR (derived_zero_point uint8_t x0 rest)) in *.
  apply Rabs_le_inv in Hround, Hlo, Hhi.
  split; intros Hv' Hs.
  - rewrite Rmax_left in Hhi by exact Hs. rewrite <- Hv' in Hhi.
    assert (253 < IZR q)%R as Hlow.
    { destruct (Rle_or_lt (IZR q) 253) as [Hc | Hc]; [exfalso | exact Hc].
      assert (IZR q * s <= 253 * s)%R
        by (apply Rmult_le_compat_r; lra).
      nra. }
    apply lt_IZR in Hlow. lia.
  - rewrite Rmin_left in Hlo by exact Hs. rewrite <- Hv' in Hlo.
    assert (IZR q < 2)%R as Hup.
    { destruct (Rle_or_lt 2 (IZR q)) as [Hc | Hc]; [exfalso | exact Hc].
      assert (2 * s <= IZR q * s)%R
        by (apply Rmult_le_compat_r; lra).
      nra. }
    apply lt_IZR in Hup. lia.
Qed.

Lemma extreme_elements_witness :
  exists out lo hi,
    Compute uint8_t two_workers [9; 9; 9]
      [F32.of_Z 4; F32.of_Z (-6); F32.of_Z 1] = Some out
    /\ minCoeff [F32.of_Z 4; F32.of_Z (-6); F32.of_Z 1] = Some lo
    /\ maxCoeff [F32.of_Z 4; F32.of_Z (-6); F32.of_Z 1] = Some hi
    /\ F32.is_finite (Y_scale out) = true
    /\ F32.leb FLT_MIN (Y_scale out) = true
    /\ (exists q, nth_error (Y out) 0 = Some q /\ 254 <= q <= 255)
    /\ (exists q, nth_error (Y out) 1 = Some q /\ 0 <= q <= 1).
Proof.
  destruct (extreme_elements two_workers [9; 9; 9]
              [F32.of_Z 4; F32.of_Z (-6); F32.of_Z 1])
    as (out & lo & hi & Hout & Hlo & Hhi & Hsat).
  - reflexivity.
  - reflexivity.
  - discriminate.
  - repeat constructor.
  - exists out, lo, hi. do 3 (split; [assumption |]).
    assert (out = {| Y := [255; 0; 178];
                     Y_scale := S754_finite false 10526881 (-28);
                     Y_zero_point := 153 |}) as E.
    { vm_compute in Hout. injection Hout as <-. reflexivity. }
    assert (F32.is_finite (Y_scale out) = true) as Hf
        by (rewrite E; reflexivity).
    assert (F32.leb FLT_MIN (Y_scale out) = true) as Hn
        by (rewrite E; reflexivity).
    assert (hi = F32.of_Z 4) as Ehi by (injection Hhi as <-; reflexivity).
    assert (lo = F32.of_Z (-6)) as Elo by (injection Hlo as <-; reflexivity).
    split; [exact Hf |]. split; [exact Hn |]. split.
    + exists 255. assert (nth_error (Y out) 0 = Some 255) as Hq
          by (rewrite E; reflexivity).
      split; [exact Hq |].
      apply (proj1 (Hsat Hf Hn 0%nat (F32.of_Z 4) 255 eq_refl Hq)).
      * rewrite Ehi. reflexivity.
      * rewrite Ehi.
        change (F32.of_Z 4) with (S754_finite false 8388608 (-21)).
        unfold value. cbn [B2R SpecFloat.cond_Zopp].
        pose proof (bpow_gt_0 (-21)). lra.
    + exists 0. assert (nth_error (Y out) 1 = Some 0) as Hq
          by (rewrite E; reflexivity).
      split; [exact Hq |].
      apply (proj2 (Hsat Hf Hn 1%nat (F32.of_Z (-6)) 0 eq_refl Hq)).
      * rewrite Elo. reflexivity.
      * rewrite Elo.
        change (F32.of_Z (-6)) with (S754_finite true 12582912 (-21)).
        unfold value. cbn [B2R SpecFloat.cond_Zopp Z.opp].
        pose proof (bpow_gt_0 (-21)). lra.
Defined.

(** ** The parallel loop under any in-bounds schedule *)

Lemma in_boundsb_correct (n : nat) (sched : schedule) :
  in_boundsb n sched = true -> in_bounds n sched.
Proof.
  unfold in_boundsb, in_bounds. rewrite forallb_forall, Forall_forall.
  intros Hb be Hbe. specialize (Hb be Hbe).
  apply andb_prop in Hb as [H1 H2]. apply Nat.leb_le in H1, H2. lia.
Qed.

(** X11.  Lines 73-79 write only where the pool sends them.  For every
    pool whose sub-ranges lie inside [0, N), whether or not they cover it
    and whether or not they overlap, output 0 keeps its length; an index
    that no sub-range contains keeps what the freshly allocated buffer
    held, and an index contained in one or several sub-ranges holds the
    quantized element. *)
Theorem loop_writes_where_sent (tp : ThreadPool) (y0 : list Z)
    (x : list float) (i : nat) :
  in_boundsb (length x) (split tp (length x)) = true ->
  length y0 = length x -> x <> [] ->
  exists out,
    Compute uint8_t tp y0 x = Some out
    /\ length (Y out) = length x
    /\ nth_error (Y out) i =
       if (hits (split tp (length x)) i =? 0)%nat
       then nth_error y0 i
       else option_map
              (quantize_one uint8_t (Y_scale out) (Y_zero_point out))
              (nth_error x i).
Proof.
  intros Hb Hlen Hne. apply in_boundsb_correct in Hb.
  destruct x as [| x0 rest]; [congruence |].
  unfold Compute. cbn [minCoeff maxCoeff]. unfold MlasQuantizeLinear.
  eexists. split; [reflexivity |]. cbn [Y Y_scale Y_zero_point].
  split.
  - apply TryParallelFor_length; assumption.
  - apply TryParallelFor_nth_error; assumption.
Qed.

Lemma loop_writes_where_sent_witness :
  (exists out,
     Compute uint8_t lower_half [7; 7; 7; 7]
       [F32.of_Z 4; F32.of_Z (-6); F32.of_Z 1; fzero] = Some out
     /\ length (Y out) = 4%nat
     /\ nth_error (Y out) 3 = Some 7)
  /\ (exists out,
        Compute uint8_t overlapping [7; 7; 7; 7]
          [F32.of_Z 4; F32.of_Z (-6); F32.of_Z 1; fzero] = Some out
        /\ length (Y out) = 4%nat
        /\ nth_error (Y out) 1 =
           Some (quantize_one uint8_t (Y_scale out) (Y_zero_point out)
                   (F32.of_Z (-6)))).
Proof.
  split.
  - destruct (loop_writes_where_sent lower_half [7; 7; 7; 7]
                [F32.of_Z 4; F32.of_Z (-6); F32.of_Z 1; fzero] 3)
      as (out & Hout & Hlen & Hnth); [reflexivity | reflexivity | discriminate |].
    exists out. repeat split; assumption.
  - destruct (loop_writes_where_sent overlapping [7; 7; 7; 7]
                [F32.of_Z 4; F32.of_Z (-6); F32.of_Z 1; fzero] 1)
      as (out & Hout & Hlen & Hnth); [reflexivity | reflexivity | discriminate |].
    exists out. repeat split; assumption.
Defined.

(** ** The parameters depend on the extremes only *)

Lemma fold_std_min_absorb (extra : list float) (lo : float) :
  Forall (fun v => F32.ltb v lo = false) extra ->
  fold_left std_min extra lo = lo.
Proof.
  induction 1 as [| v extra Hv _ IH]; [reflexivity |].
  cbn [fold_left]. unfold std_min at 2. rewrite Hv. exact IH.
Qed.

Lemma fold_std_max_absorb (extra : list float) (hi : float) :
  Forall (fun v => F32.ltb hi v = false) extra ->
  fold_left std_max extra hi = hi.
Proof.
  induction 1 as [| v extra Hv _ IH]; [reflexivity |].
  cbn [fold_left]. unfold std_max at 2. rewrite Hv. exact IH.
Qed.

Lemma leb_not_ltb (a b : float) :
  F32.leb a b = true -> F32.ltb b a = false.
Proof.
  intros Hle. destruct (leb_number a b Hle) as [Ha Hb].
  apply (ltb_key b a Hb Ha). apply (leb_key a b Ha Hb). exact Hle.
Qed.

(** X12.  Elements inside the current range change nothing: for a
    non-empty input [x] of finite numbers with least element [lo] and
    greatest element [hi], appending finite numbers [v] with
    [lo <= v <= hi] leaves the returned scale and zero point as they
    are. *)
Theorem inner_elements_ignored (tp tp' : ThreadPool) (y0 y0' : list Z)
    (x extra : list float) (lo hi : float) :
  Forall fin x -> Forall fin extra ->
  minCoeff x = Some lo -> maxCoeff x = Some hi ->
  Forall (fun v => F32.leb lo v = true /\ F32.leb v hi = true) extra ->
  exists out out',
    Compute uint8_t tp y0 x = Some out
    /\ Compute uint8_t tp' y0' (x ++ extra) = Some out'
    /\ Y_scale out' = Y_scale out
    /\ Y_zero_point out' = Y_zero_point out.
Proof.
  intros _ _ Hlo Hhi Hin. destruct x as [| x0 rest]; [discriminate |].
  cbn [minCoeff maxCoeff] in Hlo, Hhi.
  injection Hlo as Hlo. injection Hhi as Hhi.
  change ((x0 :: rest) ++ extra) with (x0 :: (rest ++ extra)).
  destruct (Compute_parameters uint8_t tp y0 x0 rest) as [ys ->].
  destruct (Compute_parameters uint8_t tp' y0' x0 (rest ++ extra)) as [ys' ->].
  do 2 eexists. do 2 (split; [reflexivity |]).
  cbn [Y_scale Y_zero_point].
  assert (derived_min x0 (rest ++ extra) = derived_min x0 rest) as Emn.
  { unfold derived_min. rewrite fold_left_app, Hlo. f_equal.
    apply fold_std_min_absorb.
    eapply Forall_impl; [| exact Hin].
    intros v [Hv _]. apply leb_not_ltb, Hv. }
  assert (derived_max x0 (rest ++ extra) = derived_max x0 rest) as Emx.
  { unfold derived_max. rewrite fold_left_app, Hhi. f_equal.
    apply fold_std_max_absorb.
    eapply Forall_impl; [| exact Hin].
    intros v [_ Hv]. apply leb_not_ltb, Hv. }
  unfold derived_zero_point, derived_scale. rewrite Emn, Emx. split; reflexivity.
Qed.

Lemma inner_elements_ignored_witness :
  exists out out',
    Compute uint8_t sequential [0; 0] [F32.of_Z 4; F32.of_Z (-6)] = Some out
    /\ Compute uint8_t two_workers [0; 0; 0; 0]
         ([F32.of_Z 4; F32.of_Z (-6)] ++ [F32.of_Z 1; F32.of_Z (-6)])
       = Some out'
    /\ Y_scale out' = Y_scale out
    /\ Y_zero_point out' = Y_zero_point out.
Proof.
  apply (inner_elements_ignored sequential two_workers [0; 0] [0; 0; 0; 0]
           [F32.of_Z 4; F32.of_Z (-6)] [F32.of_Z 1; F32.of_Z (-6)]
           (F32.of_Z (-6)) (F32.of_Z 4)).
  - repeat constructor.
  - repeat constructor.
  - reflexivity.
  - reflexivity.
  - repeat constructor.
Defined.

(** ** The order of the elements *)

Lemma fin_value_zero (x : float) : fin x -> value x = 0%R -> is_zero x.
Proof.
  intros Hx Hv. destruct x as [s | s | | s m e]; try (destruct Hx; discriminate).
  - exact I.
  - exfalso. unfold value in Hv. cbn [B2R] in Hv.
    pose proof (bpow_gt_0 e) as He.
    assert (0 < IZR (Zpos m))%R as Hm by (apply IZR_lt; lia).
    rewrite cond_Zopp_IZR in Hv. destruct s; nra.
Qed.

Lemma lex3_eq (a b : Z * Z * Z) : lex3 a b = Eq -> a = b.
Proof.
  destruct a as [[a1 a2] a3], b as [[b1 b2] b3]. unfold lex3. cbn [fst snd].
  destruct (Z.compare_spec a1 b1); try discriminate.
  destruct (Z.compare_spec a2 b2); try discriminate.
  destruct (Z.compare_spec a3 b3); try discriminate.
  intros _. congruence.
Qed.

(** Two finite data with the same value are the same datum, or two
    zeros. *)
Lemma fin_same_value (a b : float) :
  fin a -> fin b -> value a = value b ->
  a = b \/ (is_zero a /\ is_zero b).
Proof.
  intros Ha Hb Hv. pose proof (compare_correct a b Ha Hb) as Hc.
  destruct (lex3 (key a) (key b)) eqn:E; try lra.
  apply lex3_eq in E.
  destruct a as [sa | sa | | sa ma ea]; try (destruct Ha; discriminate);
    destruct b as [sb | sb | | sb mb eb]; try (destruct Hb; discriminate).
  - right. split; exact I.
  - destruct sb; discriminate E.
  - destruct sa; discriminate E.
  - left. destruct sa, sb; cbn [key] in E; try discriminate E;
      injection E as E1 E2; f_equal; lia.
Qed.

Lemma min_value_permutation (x0 x0' : float) (rest rest' : list float) :
  Permutation (x0 :: rest) (x0' :: rest') -> Forall fin (x0 :: rest) ->
  value (fold_left std_min rest x0) = value (fold_left std_min rest' x0').
Proof.
  intros Hp Hfin.
  assert (Forall fin (x0' :: rest')) as Hfin'
      by (eapply Permutation_Forall; eassumption).
  destruct (fold_min_value x0 rest Hfin) as [_ Hlow].
  destruct (fold_min_value x0' rest' Hfin') as [_ Hlow'].
  rewrite Forall_forall in Hlow, Hlow'.
  pose proof (fold_left_In std_min std_min_cases rest x0) as Hin.
  pose proof (fold_left_In std_min std_min_cases rest' x0') as Hin'.
  apply (Permutation_in _ Hp) in Hin.
  apply (Permutation_in _ (Permutation_sym Hp)) in Hin'.
  pose proof (Hlow _ Hin'). pose proof (Hlow' _ Hin). lra.
Qed.

Lemma max_value_permutation (x0 x0' : float) (rest rest' : list float) :
  Permutation (x0 :: rest) (x0' :: rest') -> Forall fin (x0 :: rest) ->
  value (fold_left std_max rest x0) = value (fold_left std_max rest' x0').
Proof.
  intros Hp Hfin.
  assert (Forall fin (x0' :: rest')) as Hfin'
      by (eapply Permutation_Forall; eassumption).
  destruct (fold_max_value x0 rest Hfin) as [_ Hup].
  destruct (fold_max_value x0' rest' Hfin') as [_ Hup'].
  rewrite Forall_forall in Hup, Hup'.
  pose proof (fold_left_In std_max std_max_cases rest x0) as Hin.
  pose proof (fold_left_In std_max std_max_cases rest' x0') as Hin'.
  apply (Permutation_in _ Hp) in Hin.
  apply (Permutation_in _ (Permutation_sym Hp)) in Hin'.
  pose proof (Hup _ Hin'). pose proof (Hup' _ Hin). lra.
Qed.

Lemma ltb_zero_zero (a b : float) :
  is_zero a -> is_zero b -> F32.ltb a b = false.
Proof. destruct a, b; try contradiction. reflexivity. Qed.

(** On an input of zeros the scale is [+0.0], whatever their signs. *)
Lemma derived_scale_all_zero (x0 : float) (rest : list float) :
  Forall is_zero (x0 :: rest) -> derived_scale uint8_t x0 rest = fzero.
Proof.
  intros Hz. inversion Hz as [| ? ? H0 Hrest]; subst.
  unfold derived_scale, derived_min, derived_max.
  rewrite fold_std_min_absorb, fold_std_max_absorb.
  - destruct x0 as [[] | | |]; try contradiction; reflexivity.
  - eapply Forall_impl; [| exact Hrest].
    intros v Hv. apply ltb_zero_zero; assumption.
  - eapply Forall_impl; [| exact Hrest].
    intros v Hv. apply ltb_zero_zero; assumption.
Qed.

Lemma compute_zero_point_zero_min (s1 s2 : bool) (scale : float) :
  compute_zero_point uint8_t (S754_zero s1) scale
  = compute_zero_point uint8_t (S754_zero s2) scale.
Proof.
  destruct scale as [[] | [] | | [] m e], s1, s2; reflexivity.
Qed.

Lemma derived_permutation (x0 x0' : float) (rest rest' : list float) :
  Permutation (x0 :: rest) (x0' :: rest') -> Forall fin (x0 :: rest) ->
  derived_scale uint8_t x0' rest' = derived_scale uint8_t x0 rest
  /\ derived_zero_point uint8_t x0' rest' = derived_zero_point uint8_t x0 rest.
Proof.
  intros Hp Hfin.
  assert (Forall fin (x0' :: rest')) as Hfin'
      by (eapply Permutation_Forall; eassumption).
  pose proof (min_value_permutation _ _ _ _ Hp Hfin) as Vlo.
  pose proof (max_value_permutation _ _ _ _ Hp Hfin) as Vhi.
  destruct (fold_min_value x0 rest Hfin) as [Flo Hlow].
  destruct (fold_max_value x0 rest Hfin) as [Fhi Hup].
  destruct (fold_min_value x0' rest' Hfin') as [Flo' _].
  destruct (fold_max_value x0' rest' Hfin') as [Fhi' _].
  assert (value (fold_left std_min rest x0)
          <= value (fold_left std_max rest x0))%R as Hord.
  { inversion Hlow; inversion Hup; subst. lra. }
  (* an input of zeros *)
  assert (is_zero (fold_left std_min rest x0) ->
          is_zero (fold_left std_max rest x0) ->
          derived_scale uint8_t x0' rest' = derived_scale uint8_t x0 rest
          /\ derived_zero_point uint8_t x0' rest'
             = derived_zero_point uint8_t x0 rest) as Hzeros.
  { intros Zl Zh.
    assert (Forall is_zero (x0 :: rest)) as Hz.
    { rewrite Forall_forall in *. intros v Hv.
      apply fin_value_zero; [apply Hfin, Hv |].
      specialize (Hlow v Hv). specialize (Hup v Hv).
      destruct (fold_left std_min rest x0); try contradiction.
      destruct (fold_left std_max rest x0); try contradiction.
      unfold value in *. cbn [B2R] in *. lra. }
    assert (Forall is_zero (x0' :: rest')) as Hz'
        by (eapply Permutation_Forall; eassumption).
    rewrite !derived_scale_all_zero by assumption.
    split; [reflexivity |].
    rewrite (proj2 (derived_all_zero x0 rest Hz)).
    exact (proj2 (derived_all_zero x0' rest' Hz')). }
  unfold derived_zero_point, derived_scale, derived_min, derived_max in *.
  remember (fold_left std_min rest x0) as lo eqn:Dlo.
  remember (fold_left std_max rest x0) as hi eqn:Dhi.
  remember (fold_left std_min rest' x0') as lo' eqn:Dlo'.
  remember (fold_left std_max rest' x0') as hi' eqn:Dhi'.
  clear Dlo Dhi Dlo' Dhi' Hlow Hup Hp Hfin Hfin'.
  destruct (fin_same_value _ _ Flo Flo' Vlo) as [El | [Zl Zl']];
    destruct (fin_same_value _ _ Fhi Fhi' Vhi) as [Eh | [Zh Zh']].
  - subst lo' hi'. split; reflexivity.
  - subst lo'.
    destruct lo as [sl | | | sl ml el]; try (destruct Flo; discriminate).
    + apply Hzeros; [exact I | exact Zh].
    + destruct hi as [sh | | |]; try contradiction.
      destruct hi' as [sh' | | |]; try contradiction.
      destruct sl.
      * destruct sh, sh'; split; reflexivity.
      * exfalso. unfold value in Hord. cbn [B2R SpecFloat.cond_Zopp] in Hord.
        pose proof (bpow_gt_0 el).
        assert (0 < IZR (Zpos ml))%R by (apply IZR_lt; lia). nra.
  - subst hi'.
    destruct hi as [sh | | | sh mh eh]; try (destruct Fhi; discriminate).
    + apply Hzeros; [exact Zl | exact I].
    + destruct lo as [sl | | |]; try contradiction.
      destruct lo' as [sl' | | |]; try contradiction.
      destruct sh.
      * exfalso. unfold value in Hord. cbn [B2R SpecFloat.cond_Zopp] in Hord.
        pose proof (bpow_gt_0 eh).
        assert (0 < IZR (Zpos mh))%R by (apply IZR_lt; lia).
        rewrite opp_IZR in Hord. nra.
      * assert (forall s, range_min (S754_zero s) = S754_zero s) as Em
            by (intros []; reflexivity).
        rewrite !Em.
        assert (forall s, compute_scale uint8_t (S754_zero s)
                            (range_max (S754_finite false mh eh))
                          = compute_scale uint8_t (S754_zero false)
                              (range_max (S754_finite false mh eh)))
          as Es by (intros []; reflexivity).
        rewrite (Es sl), (Es sl').
        split; [reflexivity | apply compute_zero_point_zero_min].
  - apply Hzeros; assumption.
Qed.

(** X13.  The order of the elements does not matter: for a non-empty
    input of finite numbers, a rearrangement of the input yields the
    same scale and the same zero point, and the quantized values
    rearranged in the same way: wherever an element of the input has
    moved to, its quantized value has moved with it. *)
Theorem permutation_equivariant (tp tp' : ThreadPool) (y0 y0' : list Z)
    (x x' : list float) :
  Permutation x x' -> x <> [] -> Forall fin x ->
  serves tp (length x) = true -> serves tp' (length x') = true ->
  length y0 = length x -> length y0' = length x' ->
  exists out out',
    Compute uint8_t tp y0 x = Some out
    /\ Compute uint8_t tp' y0' x' = Some out'
    /\ Y_scale out' = Y_scale out
    /\ Y_zero_point out' = Y_zero_point out
    /\ length (Y out) = length x /\ length (Y out') = length x'
    /\ (forall i j v,
          nth_error x i = Some v -> nth_error x' j = Some v ->
          exists q,
            nth_error (Y out) i = Some q /\ nth_error (Y out') j = Some q)
    /\ Permutation (Y out) (Y out').
Proof.
  intros Hp Hne Hfin Htp Htp' Hlen Hlen'.
  destruct x as [| x0 rest]; [congruence |].
  destruct x' as [| x0' rest'];
    [apply Permutation_sym, Permutation_nil in Hp; discriminate |].
  rewrite !Compute_nonempty by assumption.
  do 2 eexists. do 2 (split; [reflexivity |]).
  cbn [Y Y_scale Y_zero_point].
  destruct (derived_permutation _ _ _ _ Hp Hfin) as [-> ->].
  do 2 (split; [reflexivity |]).
  split; [apply length_map |]. split; [apply length_map |].
  split; [| apply Permutation_map, Hp].
  intros i j v Hi Hj. rewrite !nth_error_map, Hi, Hj. cbn [option_map].
  eexists. split; reflexivity.
Qed.

Lemma permutation_equivariant_witness :
  exists out out',
    Compute uint8_t sequential [0; 0; 0]
      [F32.of_Z 4; F32.of_Z (-6); S754_zero true] = Some out
    /\ Compute uint8_t two_workers [0; 0; 0]
         [S754_zero true; F32.of_Z 4; F32.of_Z (-6)] = Some out'
    /\ Y_scale out' = Y_scale out
    /\ Y_zero_point out' = Y_zero_point out
    /\ length (Y out) = 3%nat /\ length (Y out') = 3%nat
    /\ (forall i j v,
          nth_error [F32.of_Z 4; F32.of_Z (-6); S754_zero true] i = Some v ->
          nth_error [S754_zero true; F32.of_Z 4; F32.of_Z (-6)] j = Some v ->
          exists q,
            nth_error (Y out) i = Some q /\ nth_error (Y out') j = Some q)
    /\ Permutation (Y out) (Y out').
Proof.
  apply (permutation_equivariant sequential two_workers [0; 0; 0] [0; 0; 0]
           [F32.of_Z 4; F32.of_Z (-6); S754_zero true]
           [S754_zero true; F32.of_Z 4; F32.of_Z (-6)]).
  - apply Permutation_sym.
    apply (Permutation_cons_app [F32.of_Z 4; F32.of_Z (-6)] []).
    apply Permutation_refl.
  - discriminate.
  - repeat constructor.
  - reflexivity.
  - reflexivity.
  - reflexivity.
  - reflexivity.
Defined.

(** ** When the scale is a normal number *)

Lemma fin_round_lower (r : float) (v : R) (k : Z) :
  fin r -> (Rabs (value r - v) <= ulp32 r)%R ->
  -149 <= k -> (bpow (k + 1) <= v)%R -> (bpow k <= value r)%R.
Proof.
  intros Hr He Hk Hv.
  pose proof (bpow_gt_0 k) as Hk0.
  assert (bpow (k + 1) = 2 * bpow k)%R as E
      by (rewrite bpow_add, bpow_1; ring).
  pose proof (bpow_le (-149) k Hk) as Hmin.
  apply Rabs_le_inv in He.
  destruct (ulp32_bound r Hr) as [Hu | Hu].
  - rewrite bpow_neg_23 in Hu.
    assert (Rabs (value r) = value r \/ Rabs (value r) = - value r)%R
      as [Ha | Ha] by (unfold Rabs; destruct (Rcase_abs (value r)); auto);
      rewrite Ha in Hu; lra.
  - rewrite Hu in He. lra.
Qed.

Lemma fin_below_bpow_128 (x : float) : fin x -> (Rabs (value x) < bpow 128)%R.
Proof.
  intros Hx. destruct x as [s | s | | s m e]; try (destruct Hx; discriminate).
  - unfold value. cbn [B2R]. rewrite Rabs_R0. apply bpow_gt_0.
  - destruct (fin_canonical s m e Hx) as [Hc He].
    pose proof (canonical_bounded _ _ _ _ Hc) as Hm.
    unfold value. cbn [B2R].
    rewrite Rabs_mult, (Rabs_pos_eq (bpow e)) by (apply Rlt_le, bpow_gt_0).
    rewrite <- abs_IZR.
    replace (Z.abs (SpecFloat.cond_Zopp s (Zpos m))) with (Zpos m)
      by (destruct s; reflexivity).
    replace 128 with (24 + 104) by lia. rewrite bpow_add.
    assert (IZR (Zpos m) < bpow 24)%R as Hm'
        by (rewrite bpow_IZR by lia; apply IZR_lt; exact Hm).
    pose proof (bpow_le e 104 ltac:(lia)) as He'.
    pose proof (bpow_gt_0 e). pose proof (bpow_gt_0 104).
    assert (0 < IZR (Zpos m))%R by (apply IZR_lt; lia).
    apply Rle_lt_trans with (IZR (Zpos m) * bpow 104)%R.
    + apply Rmult_le_compat_l; lra.
    + apply Rmult_lt_compat_r; lra.
Qed.

Lemma scale_is_normal (mn mx : float) :
  fin mn -> fin mx ->
  (bpow (-116) <= value mx - value mn < bpow 127)%R ->
  F32.is_finite (compute_scale uint8_t mn mx) = true
  /\ F32.leb FLT_MIN (compute_scale uint8_t mn mx) = true.
Proof.
  intros Hmn Hmx [Hlo Hhi]. unfold compute_scale. rewrite uint8_range_width.
  pose proof (bpow_gt_0 (-116)) as H116.
  destruct (rounded32_fin _ _ (sub_rounded mx mn Hmx Hmn)) as [Fd Ed].
  { rewrite Rabs_pos_eq; lra. }
  pose proof (fin_round_lower _ _ (-117) Fd Ed ltac:(lia) Hlo) as Hd.
  pose proof (bpow_gt_0 (-117)) as H117.
  set (d := F32.sub mx mn) in *.
  pose proof (div_rounded d (F32.of_Z 255) false 16711680 (-16) Fd eq_refl)
    as Hs.
  rewrite value_255 in Hs.
  pose proof (fin_below_bpow_128 d Fd) as Hd128.
  rewrite Rabs_pos_eq in Hd128 by lra.
  assert (bpow 128 = 2 * bpow 127)%R as E128
      by (replace 128 with (127 + 1) by lia; rewrite bpow_add, bpow_1; ring).
  assert (bpow (-117) = 256 * bpow (-125))%R as E117.
  { replace (-117) with (8 + -125) by lia. rewrite bpow_add.
    f_equal. rewrite bpow_IZR by lia. reflexivity. }
  pose proof (bpow_gt_0 (-125)) as H125.
  destruct (rounded32_fin _ _ Hs) as [Fs Es].
  { rewrite Rabs_pos_eq; lra. }
  assert (bpow (-126 + 1) <= value d / 255)%R as Hq
      by (change (-126 + 1) with (-125); lra).
  pose proof (fin_round_lower _ _ (-126) Fs Es ltac:(lia) Hq) as Hn.
  split; [apply Fs |].
  apply (F32_leb_value FLT_MIN _ fin_FLT_MIN Fs).
  rewrite value_FLT_MIN. exact Hn.
Qed.

(** X14.  A sufficient condition, on the input alone, for the scale to
    be a finite normal number: the input is finite and the width
    [max - min] of its zero-extended range lies between [2^-116] and
    [2^127]. *)
Theorem normal_scale_condition (tp : ThreadPool) (y0 : list Z)
    (x : list float) :
  x <> [] -> Forall fin x ->
  exists out lo hi,
    Compute uint8_t tp y0 x = Some out
    /\ minCoeff x = Some lo /\ maxCoeff x = Some hi
    /\ ((bpow (-116) <= Rmax (value hi) 0 - Rmin (value lo) 0 < bpow 127)%R ->
        F32.is_finite (Y_scale out) = true
        /\ F32.leb FLT_MIN (Y_scale out) = true).
Proof.
  intros Hne Hfin. destruct x as [| x0 rest]; [congruence |].
  destruct (Compute_parameters uint8_t tp y0 x0 rest) as [ys ->].
  do 3 eexists. split; [reflexivity |]. do 2 (split; [reflexivity |]).
  cbn [Y_scale].
  destruct (derived_range x0 rest Hfin) as (Fmn & Fmx & _ & _).
  destruct (derived_extremes x0 rest Hfin) as (_ & _ & <- & <-).
  apply scale_is_normal; assumption.
Qed.

Lemma normal_scale_condition_witness :
  exists out lo hi,
    Compute uint8_t sequential [0; 0; 0] [F32.of_Z 4; F32.of_Z (-6); F32.of_Z 1]
      = Some out
    /\ minCoeff [F32.of_Z 4; F32.of_Z (-6); F32.of_Z 1] = Some lo
    /\ maxCoeff [F32.of_Z 4; F32.of_Z (-6); F32.of_Z 1] = Some hi
    /\ (bpow (-116) <= Rmax (value hi) 0 - Rmin (value lo) 0 < bpow 127)%R
    /\ F32.is_finite (Y_scale out) = true
    /\ F32.leb FLT_MIN (Y_scale out) = true.
Proof.
  destruct (normal_scale_condition sequential [0; 0; 0]
              [F32.of_Z 4; F32.of_Z (-6); F32.of_Z 1])
    as (out & lo & hi & Hout & Hlo & Hhi & Hn).
  - discriminate.
  - repeat constructor.
  - exists out, lo, hi. do 3 (split; [assumption |]).
    assert (bpow (-116) <= Rmax (value hi) 0 - Rmin (value lo) 0 < bpow 127)%R
      as Hw.
    { assert (lo = S754_finite true 12582912 (-21)) as ->
          by (vm_compute in Hlo; congruence).
      assert (hi = S754_finite false 8388608 (-21)) as ->
          by (vm_compute in Hhi; congruence).
      unfold value. cbn [B2R SpecFloat.cond_Zopp Z.opp].
      assert (bpow (-21) = / 2097152)%R as ->.
      { change (-21) with (- (21)). rewrite bpow_opp, bpow_IZR by lia.
        reflexivity. }
      rewrite Rmax_left, Rmin_left by lra.
      pose proof (bpow_le (-116) 0 ltac:(lia)) as H1.
      pose proof bpow_127_large as H2. rewrite bpow_0 in H1. lra. }
    split; [exact Hw |]. exact (Hn Hw).
Defined.

(** ** The kernel at [int8_t]: the narrowed range of lines 47-50 *)

Lemma sub_valid (x y : float) :
  F32.valid x = true -> F32.valid y = true -> F32.valid (F32.sub x y) = true.
Proof.
  intros Hx Hy.
  destruct x as [sx | sx | | sx mx ex], y as [sy | sy | | sy my ey];
    try reflexivity; try assumption.
  - destruct sx, sy; reflexivity.
  - destruct sx, sy; reflexivity.
  - apply (SFsub_finite_rounded F32.prec F32.emax prec32_gt_1 emax32_ge_2).
Qed.

Lemma int8_qmin : qmin int8_t = S754_finite true 16646144 (-17).
Proof. reflexivity. Qed.

Lemma int8_qmax : qmax int8_t = S754_finite false 16646144 (-17).
Proof. reflexivity. Qed.

Lemma int8_range_width :
  F32.sub (qmax int8_t) (qmin int8_t) = S754_finite false 16646144 (-16).
Proof. reflexivity. Qed.

Lemma value_127 : value (S754_finite false 16646144 (-17)) = 127%R.
Proof. apply value_dyadic; [lia | reflexivity]. Qed.

Lemma value_neg_127 : value (S754_finite true 16646144 (-17)) = (-127)%R.
Proof.
  pose proof value_127 as H. unfold value in *.
  cbn [B2R SpecFloat.cond_Zopp Z.opp] in *. lra.
Qed.

Lemma value_254 : value (S754_finite false 16646144 (-16)) = 254%R.
Proof. apply value_dyadic; [lia | reflexivity]. Qed.

(** The clamp of line 66, on values. *)
Lemma clamp_value (lo hi v : float) :
  fin lo -> fin hi -> fin v -> (value lo <= value hi)%R ->
  fin (std_max lo (std_min hi v))
  /\ (value lo <= value (std_max lo (std_min hi v)) <= value hi)%R
  /\ ((value lo <= value v <= value hi)%R ->
      value (std_max lo (std_min hi v)) = value v).
Proof.
  intros Hlo Hhi Hv Hle. unfold std_max, std_min.
  pose proof (F32_ltb_value v hi Hv Hhi) as H1.
  destruct (F32.ltb v hi) eqn:E1.
  - assert (value v < value hi)%R by (apply H1; reflexivity).
    pose proof (F32_ltb_value lo v Hlo Hv) as H2.
    destruct (F32.ltb lo v) eqn:E2.
    + assert (value lo < value v)%R by (apply H2; reflexivity).
      repeat split; try apply Hv; lra.
    + assert (value v <= value lo)%R.
      { destruct (Rle_or_lt (value v) (value lo)) as [H' | H']; [exact H' |].
        apply H2 in H'. discriminate. }
      repeat split; try apply Hlo; lra.
  - assert (value hi <= value v)%R.
    { destruct (Rle_or_lt (value hi) (value v)) as [H' | H']; [exact H' |].
      apply H1 in H'. discriminate. }
    pose proof (F32_ltb_value lo hi Hlo Hhi) as H2.
    destruct (F32.ltb lo hi) eqn:E2.
    + repeat split; try apply Hhi; lra.
    + assert (value hi <= value lo)%R.
      { destruct (Rle_or_lt (value hi) (value lo)) as [H' | H']; [exact H' |].
        apply H2 in H'. discriminate. }
      repeat split; try apply Hlo; lra.
Qed.

Lemma int8_zero_point_bounds (mn scale : float) :
  let c := std_max (qmin int8_t)
             (std_min (qmax int8_t) (initial_zero_point int8_t mn scale)) in
  -127 <= truncate (RoundHalfToEven c) <= 127
  /\ compute_zero_point int8_t mn scale = truncate (RoundHalfToEven c).
Proof.
  cbv zeta. unfold compute_zero_point.
  assert (F32.valid (initial_zero_point int8_t mn scale) = true) as Hv.
  { unfold initial_zero_point. apply sub_valid; [reflexivity | apply div_valid]. }
  set (izp := initial_zero_point int8_t mn scale) in *. clearbody izp.
  rewrite int8_qmin, int8_qmax.
  assert (forall n, -127 <= n <= 127 -> -127 <= n <= 127
                    /\ (n + 128) mod 256 - 128 = n) as Hcast.
  { intros n Hn. split; [exact Hn |].
    rewrite Z.mod_small by lia. lia. }
  destruct izp as [s | s | | s m e].
  - destruct s; apply (Hcast 0); lia.
  - destruct s; [apply (Hcast (-127)) | apply (Hcast 127)]; lia.
  - apply (Hcast 127); lia.
  - assert (fin (S754_finite true 16646144 (-17))) as Fmin by (split; reflexivity).
    assert (fin (S754_finite false 16646144 (-17))) as Fmax by (split; reflexivity).
    destruct (clamp_value _ _ (S754_finite s m e) Fmin Fmax
                (conj Hv eq_refl)) as (Fc & Hc & _).
    { rewrite value_127, value_neg_127. lra. }
    rewrite value_127, value_neg_127 in Hc.
    destruct (RoundHalfToEven_nearest _ Fc) as (n & _ & _ & Ht & Hn & _).
    cbn [static_cast int8_t]. rewrite Ht. apply Hcast.
    apply Rabs_le_inv in Hn.
    assert (-128 < IZR n < 128)%R as [H1 H2] by lra.
    apply lt_IZR in H1, H2. lia.
Qed.

(** X15.  The template at [int8_t].  Lines 47-50 narrow the range to
    [-127, 127]: for every non-empty input, NaNs and infinities
    included, the value converted at line 66 is an integer between -127
    and 127, so that the conversion is defined and the zero point is
    never -128. *)
Theorem int8_zero_point_range (tp : ThreadPool) (y0 : list Z)
    (x : list float) :
  x <> [] ->
  exists out lo,
    Compute int8_t tp y0 x = Some out
    /\ minCoeff x = Some lo
    /\ let izp :=
         F32.sub (F32.of_Z (-127)) (F32.div (std_min lo fzero) (Y_scale out)) in
       let c := std_max (F32.of_Z (-127)) (std_min (F32.of_Z 127) izp) in
       Y_zero_point out = truncate (RoundHalfToEven c)
       /\ -127 <= Y_zero_point out <= 127.
Proof.
  intros Hne. destruct x as [| x0 rest]; [congruence |].
  destruct (Compute_parameters int8_t tp y0 x0 rest) as [ys ->].
  do 2 eexists. split; [reflexivity |]. split; [reflexivity |].
  cbn [Y_scale Y_zero_point]. cbv zeta.
  destruct (int8_zero_point_bounds (derived_min x0 rest)
              (derived_scale int8_t x0 rest)) as [Hr Hz].
  cbv zeta in Hr, Hz. unfold derived_zero_point. rewrite Hz.
  split; [reflexivity | exact Hr].
Qed.

Lemma int8_zero_point_range_witness :
  exists out lo,
    Compute int8_t sequential [0; 0] [S754_nan; F32.of_Z 3] = Some out
    /\ minCoeff [S754_nan; F32.of_Z 3] = Some lo
    /\ let izp :=
         F32.sub (F32.of_Z (-127)) (F32.div (std_min lo fzero) (Y_scale out)) in
       let c := std_max (F32.of_Z (-127)) (std_min (F32.of_Z 127) izp) in
       Y_zero_point out = truncate (RoundHalfToEven c)
       /\ -127 <= Y_zero_point out <= 127.
Proof.
  apply (int8_zero_point_range sequential [0; 0] [S754_nan; F32.of_Z 3]).
  discriminate.
Defined.

Lemma int8_symmetric_range (mn mx : float) :
  fin mn -> fin mx -> value mn = (- value mx)%R ->
  F32.is_finite (compute_scale int8_t mn mx) = true ->
  F32.leb FLT_MIN (compute_scale int8_t mn mx) = true ->
  compute_zero_point int8_t mn (compute_scale int8_t mn mx) = 0.
Proof.
  intros Hmn Hmx Hsym. unfold compute_scale. rewrite int8_range_width.
  pose proof (sub_rounded mx mn Hmx Hmn) as Hd.
  destruct (F32.sub mx mn) as [sd | sd | | sd md ed] eqn:Ed;
    try (intros Hf; discriminate Hf); try (intros _ Hl; discriminate Hl).
  intros Hf Hl.
  pose proof (div_rounded (S754_finite sd md ed)
                (S754_finite false 16646144 (-16))
                false 16646144 (-16)) as Hs.
  assert (fin (S754_finite sd md ed)) as Fd
      by (split; [apply Hd | reflexivity]).
  specialize (Hs Fd eq_refl). rewrite value_254 in Hs.
  set (scale := F32.div (S754_finite sd md ed)
                  (S754_finite false 16646144 (-16))) in *.
  assert (fin scale) as Fs by (split; [apply Hs | exact Hf]).
  pose proof (F32_leb_value FLT_MIN scale fin_FLT_MIN Fs) as Hle.
  rewrite value_FLT_MIN in Hle. apply Hle in Hl.
  pose proof (bpow_gt_0 (-126)) as H126.
  assert (exists s m e, scale = S754_finite s m e) as Ess.
  { destruct scale as [ss | ss | | ss ms es]; try discriminate Hf.
    - unfold value in Hl. cbn [B2R] in Hl. lra.
    - eauto. }
  assert (Rabs (value scale - value (S754_finite sd md ed) / 254)
          <= / 8388608 * value scale)%R as Es.
  { destruct Hs as [_ Hs].
    assert (Rabs (value scale - value (S754_finite sd md ed) / 254)
            <= ulp32 scale)%R
      as Hu by (destruct scale; try discriminate Hf; exact Hs).
    eapply Rle_trans; [exact Hu |].
    rewrite <- (Rabs_pos_eq (value scale)) at 1 by lra.
    apply ulp32_normal; [exact Fs |]. rewrite Rabs_pos_eq; lra. }
  apply Rabs_le_inv in Es.
  set (d := value (S754_finite sd md ed)) in *.
  assert (bpow (-126) <= d)%R as Hdn by lra.
  assert (Rabs (d - (value mx - value mn)) <= / 8388608 * d)%R as Ed'.
  { destruct Hd as [_ Hd].
    eapply Rle_trans; [exact Hd |].
    rewrite <- (Rabs_pos_eq d) at 1 by lra.
    apply ulp32_normal; [exact Fd |]. fold d. rewrite Rabs_pos_eq; lra. }
  apply Rabs_le_inv in Ed'. rewrite Hsym in Ed'.
  assert (0 < value scale)%R as Hpos by lra.
  set (a := value mx) in *. set (s := value scale) in *.
  assert ((127 - / 100) * s <= a <= (127 + / 100) * s)%R as Ha
      by (split; nra).
  (* the quotient min / scale *)
  destruct (div_by_scale mn scale Hmn Fs Ess Hpos) as (Ft & Nt & _).
  { rewrite Hsym. fold a s. rewrite Rabs_Ropp, Rabs_pos_eq by nra. nra. }
  rewrite Hsym in Nt. fold a s in Nt.
  assert (127 - / 100 <= a / s <= 127 + / 100)%R as Hrho.
  { unfold Rdiv. split.
    - apply Rmult_le_reg_r with s; [exact Hpos |].
      rewrite Rmult_assoc, Rinv_l by lra. lra.
    - apply Rmult_le_reg_r with s; [exact Hpos |].
      rewrite Rmult_assoc, Rinv_l by lra. lra. }
  replace (- a / s)%R with (- (a / s))%R in Nt by (unfold Rdiv; ring).
  set (rho := (a / s)%R) in *. clearbody rho.
  (* the initial zero point is close to zero *)
  assert (fin (S754_finite true 16646144 (-17))) as Fmin by (split; reflexivity).
  assert (fin (S754_finite false 16646144 (-17))) as Fmax by (split; reflexivity).
  pose proof (sub_rounded _ _ Fmin Ft) as Hi. rewrite value_neg_127 in Hi.
  pose proof bpow_127_large as Hlarge.
  set (t := value (F32.div mn scale)) in *.
  assert (Rabs (t + 127) <= / 50)%R as Ht.
  { clearbody t. unfold near in Nt. apply Rabs_le_inv in Nt. apply Rabs_le.
    assert (Rabs t = t \/ Rabs t = - t)%R as [E | E]
        by (unfold Rabs; destruct (Rcase_abs t); auto);
      rewrite E in Nt; lra. }
  apply Rabs_le_inv in Ht.
  destruct (rounded32_near _ _ Hi) as [Fi Ni].
  { apply Rabs_def1; lra. }
  unfold compute_zero_point.
  change (F32.sub (S754_finite true 16646144 (-17)) (F32.div mn scale))
    with (initial_zero_point int8_t mn scale) in Fi, Ni.
  set (izp := initial_zero_point int8_t mn scale) in *.
  assert (Rabs (value izp) <= / 10)%R as Hsmall.
  { clearbody izp t. unfold near in Ni. apply Rabs_le_inv in Ni. apply Rabs_le.
    assert (Rabs (value izp) = value izp \/ Rabs (value izp) = - value izp)%R
      as [E | E] by (unfold Rabs; destruct (Rcase_abs (value izp)); auto);
      rewrite E in Ni; lra. }
  apply Rabs_le_inv in Hsmall.
  rewrite int8_qmin, int8_qmax.
  destruct (clamp_value _ _ izp Fmin Fmax Fi) as (Fc & _ & Hc).
  { rewrite value_127, value_neg_127. lra. }
  rewrite value_127, value_neg_127 in Hc.
  specialize (Hc ltac:(lra)).
  destruct (RoundHalfToEven_nearest _ Fc) as (n & _ & _ & Hn & Hnear & _).
  cbn [static_cast int8_t]. rewrite Hn. rewrite Hc in Hnear.
  apply Rabs_le_inv in Hnear.
  assert (-1 < IZR n < 1)%R as [H1 H2] by lra.
  apply lt_IZR in H1, H2. replace n with 0 by lia. reflexivity.
Qed.

(** X16.  The purpose of lines 47-50 ("so that zero point can be 0"):
    at [int8_t], for a non-empty input of finite numbers whose minimum
    is the opposite of its maximum and whose returned scale is a finite
    normal number, the returned zero point is 0. *)
Theorem int8_symmetric_zero_point (tp : ThreadPool) (y0 : list Z)
    (x : list float) :
  x <> [] -> Forall fin x ->
  exists out lo hi,
    Compute int8_t tp y0 x = Some out
    /\ minCoeff x = Some lo /\ maxCoeff x = Some hi
    /\ (value lo = (- value hi)%R ->
        F32.is_finite (Y_scale out) = true ->
        F32.leb FLT_MIN (Y_scale out) = true ->
        Y_zero_point out = 0).
Proof.
  intros Hne Hfin. destruct x as [| x0 rest]; [congruence |].
  destruct (Compute_parameters int8_t tp y0 x0 rest) as [ys ->].
  do 3 eexists. split; [reflexivity |]. do 2 (split; [reflexivity |]).
  cbn [Y_scale Y_zero_point]. intros Hsym Hf Hn.
  destruct (derived_range x0 rest Hfin) as (Fmn & Fmx & Hsign & Hall).
  destruct (derived_extremes x0 rest Hfin) as (_ & _ & Emn & Emx).
  inversion Hall as [| ? ? H0 _]; subst.
  assert (value (fold_left std_min rest x0)
          <= value (fold_left std_max rest x0))%R as Hord.
  { destruct (fold_min_value x0 rest Hfin) as [_ Hlow].
    destruct (fold_max_value x0 rest Hfin) as [_ Hup].
    inversion Hlow; inversion Hup; subst. lra. }
  rewrite Rmin_left in Emn by lra. rewrite Rmax_left in Emx by lra.
  apply int8_symmetric_range; try assumption.
  rewrite Emn, Emx. exact Hsym.
Qed.

Lemma int8_symmetric_zero_point_witness :
  exists out lo hi,
    Compute int8_t sequential [0; 0; 0]
      [F32.of_Z 3; F32.of_Z (-3); F32.of_Z 1] = Some out
    /\ minCoeff [F32.of_Z 3; F32.of_Z (-3); F32.of_Z 1] = Some lo
    /\ maxCoeff [F32.of_Z 3; F32.of_Z (-3); F32.of_Z 1] = Some hi
    /\ value lo = (- value hi)%R
    /\ F32.is_finite (Y_scale out) = true
    /\ F32.leb FLT_MIN (Y_scale out) = true
    /\ Y_zero_point out = 0.
Proof.
  destruct (int8_symmetric_zero_point sequential [0; 0; 0]
              [F32.of_Z 3; F32.of_Z (-3); F32.of_Z 1])
    as (out & lo & hi & Hout & Hlo & Hhi & Hzp).
  - discriminate.
  - repeat constructor.
  - exists out, lo, hi. do 3 (split; [assumption |]).
    assert (value lo = (- value hi)%R) as Hsym.
    { assert (lo = S754_finite true 12582912 (-22)) as ->
          by (vm_compute in Hlo; congruence).
      assert (hi = S754_finite false 12582912 (-22)) as ->
          by (vm_compute in Hhi; congruence).
      unfold value. cbn [B2R SpecFloat.cond_Zopp Z.opp]. lra. }
    assert (F32.is_finite (Y_scale out) = true
            /\ F32.leb FLT_MIN (Y_scale out) = true) as [Hf Hn].
    { vm_compute in Hout. injection Hout as <-. split; reflexivity. }
    split; [exact Hsym |]. split; [exact Hf |]. split; [exact Hn |].
    exact (Hzp Hsym Hf Hn).
Defined.

(** ** Zeros *)

(** X17.  On a non-empty input all of whose elements are zeros, of
    either sign, and whatever the pool does, the kernel returns the
    scale [+0.0] and the zero point 255: [min / scale] is [0 / 0], a
    NaN, which the clamp of line 66 replaces by [qmax]. *)
Theorem all_zero_parameters (tp : ThreadPool) (y0 : list Z)
    (x : list float) :
  x <> [] -> Forall is_zero x ->
  exists out,
    Compute uint8_t tp y0 x = Some out
    /\ Y_scale out = fzero
    /\ Y_zero_point out = 255.
Proof.
  intros Hne Hz. destruct x as [| x0 rest]; [congruence |].
  destruct (Compute_parameters uint8_t tp y0 x0 rest) as [ys ->].
  eexists. split; [reflexivity |]. cbn [Y_scale Y_zero_point]. split.
  - apply derived_scale_all_zero, Hz.
  - apply (derived_all_zero x0 rest Hz).
Qed.

Lemma all_zero_parameters_witness :
  exists out,
    Compute uint8_t lower_half [7; 7; 7] [fzero; S754_zero true; fzero]
      = Some out
    /\ Y_scale out = fzero
    /\ Y_zero_point out = 255.
Proof.
  apply (all_zero_parameters lower_half [7; 7; 7]
           [fzero; S754_zero true; fzero]).
  - discriminate.
  - repeat constructor.
Defined.

(** A zero divided by a scale that is neither zero nor NaN is a zero,
    and adding it to a non-negative integer changes nothing. *)
Lemma zero_quotient_sum (v scale : float) (z : Z) :
  is_zero v -> 0 <= z ->
  (exists s, scale = S754_infinity s)
  \/ (exists s m e, scale = S754_finite s m e) ->
  F32.add (F32.div v scale) (F32.of_Z z) = F32.of_Z z.
Proof.
  intros Hv Hz Hscale. destruct v as [sv | | |]; try contradiction.
  assert (exists s', F32.div (S754_zero sv) scale = S754_zero s') as [s' ->]
      by (destruct Hscale as [[s ->] | (s & m & e & ->)]; eexists; reflexivity).
  destruct z as [| p | p]; [destruct s'; reflexivity | | lia].
  pose proof (binary_round_has_sign F32.prec F32.emax false p 0) as Hs.
  change (F32.of_Z (Zpos p)) with (binary_round F32.prec F32.emax false p 0).
  destruct (binary_round F32.prec F32.emax false p 0) as [sz | sz | | sz mz ez];
    cbn [has_sign] in Hs; try contradiction; try reflexivity.
  subst sz. destruct s'; reflexivity.
Qed.

(** X18.  Whenever an element of the input is a zero and the returned
    scale is neither a zero nor a NaN, the corresponding element of the
    quantized tensor is the returned zero point: [0 / scale] is a zero,
    the sum is the zero point itself, which lies in [0, 255], so that
    neither the clamp nor the rounding changes it. *)
Theorem zero_element_regular_scale (tp : ThreadPool) (y0 : list Z)
    (x : list float) (i : nat) (v : float) :
  serves tp (length x) = true -> length y0 = length x ->
  nth_error x i = Some v -> is_zero v ->
  exists out,
    Compute uint8_t tp y0 x = Some out
    /\ (~ is_zero (Y_scale out) -> Y_scale out <> S754_nan ->
        F32.add (F32.div v (Y_scale out)) (F32.of_Z (Y_zero_point out))
        = F32.of_Z (Y_zero_point out)
        /\ nth_error (Y out) i = Some (Y_zero_point out)).
Proof.
  intros Htp Hlen Hi Hv.
  destruct x as [| x0 rest]; [destruct i; discriminate |].
  rewrite Compute_nonempty by assumption.
  eexists; split; [reflexivity |]. cbn [Y Y_scale Y_zero_point].
  intros Hnz Hnn.
  pose proof (derived_zero_point_range x0 rest) as Hr.
  split.
  - apply zero_quotient_sum; [exact Hv | lia |].
    destruct (derived_scale uint8_t x0 rest) as [s | s | | s m e]; eauto 6.
    + exfalso. apply Hnz. exact I.
    + congruence.
  - rewrite nth_error_map, Hi. cbn [option_map]. f_equal.
    apply quantize_zero_regular; [exact Hr | exact Hv |].
    destruct (derived_scale uint8_t x0 rest) as [s | s | | s m e]; eauto 6.
    + exfalso. apply Hnz. exact I.
    + congruence.
Qed.

Lemma zero_element_regular_scale_witness :
  exists out,
    Compute uint8_t sequential [0; 0; 0]
      [F32.of_Z (-1); S754_zero true; S754_infinity false] = Some out
    /\ ~ is_zero (Y_scale out) /\ Y_scale out <> S754_nan
    /\ F32.add (F32.div (S754_zero true) (Y_scale out))
         (F32.of_Z (Y_zero_point out))
       = F32.of_Z (Y_zero_point out)
    /\ nth_error (Y out) 1 = Some (Y_zero_point out).
Proof.
  destruct (zero_element_regular_scale sequential [0; 0; 0]
              [F32.of_Z (-1); S754_zero true; S754_infinity false]
              1 (S754_zero true))
    as (out & Hout & Hq).
  - reflexivity.
  - reflexivity.
  - reflexivity.
  - exact I.
  - exists out. split; [exact Hout |].
    assert (Y_scale out = S754_infinity false) as Hs.
    { vm_compute in Hout. injection Hout as <-. reflexivity. }
    assert (~ is_zero (Y_scale out)) as Hnz by (rewrite Hs; exact (fun H => H)).
    assert (Y_scale out <> S754_nan) as Hnn by (rewrite Hs; discriminate).
    split; [exact Hnz |]. split; [exact Hnn |]. exact (Hq Hnz Hnn).
Defined.
